(** * JSON graph visualizer: the graph model and the viewport zoom

    A shallow embedding of [src/components/JsonVisualizer.tsx]:
    - [createGraph] with its inner [traverse] and [positionNodes]
      (the GraphModel of the specification),
    - [toggleNodeExpansion] / [collapseAllNodes] (the ExpansionStore),
    - [handleWheel], [handleTouchStart], [handleTouchMove],
      [handleTouchEnd] (the zoom part of the ViewportController),
    - the overlay message chosen by the component when [nodes] is empty,
    - what is rendered from the graph: [renderEdges], [getObjectPreview]
      and the preview block and toggle button of [renderNodeContent],
      the lookups of [selectedNodeData] and of the details panel,
    - the other handlers of the canvas: [handleZoomIn], [handleZoomOut],
      [handleMouseDown], [handleMouseMove], [handleMouseUp],
      [handleDoubleClick], [handleResetView], [handleRecenter],
      [handleNodeClick].

    Modelling choices.
    - JavaScript strings are sequences of UTF-16 code units.
    - Numbers are IEEE 754 binary64 values.  The counter [nodeId], the
      levels and the pixel sizes of the graph model are small integers,
      which binary64 represents exactly, so they are [nat] and [Z]; the
      zoom factor and the touch coordinates are genuine binary64 values,
      modelled with the Standard Library's [spec_float].
    - The arrays [nodes] and [edges] and the counter [nodeId], which
      [traverse] mutates, are passed as a state; a node object referenced
      from several places is its index in [nodes].
    - [JSON.parse] belongs to the runtime and is a parameter; a JSON value
      is what it returns.
    - The event handlers run one after the other, each on the state left
      by the previous one. *)

From Stdlib Require Import ZArith NArith Lia List Sorted Ascii String.
From Stdlib Require Import Floats.SpecFloat.
From stdpp Require Import base decidable option list gmap strings pretty.

Set Warnings "-register-all,-clear-no-such-hyp".

Open Scope Z_scope.
Open Scope nat_scope.

(* ===================================================================== *)
(** ** JavaScript strings *)
(* ===================================================================== *)

(** A JavaScript string: its UTF-16 code units. *)
Abbreviation jsstring := (list N).

(** An ASCII literal of the source as a JavaScript string. *)
Definition js (s : string) : jsstring :=
  N_of_ascii <$> list_ascii_of_string s.

(** [String.prototype.trim] removes the code units of the ECMAScript
    [WhiteSpace] and [LineTerminator] productions at both ends. *)
Definition is_js_whitespace (c : N) : bool :=
  (bool_decide (c ∈ [0x09; 0x0A; 0x0B; 0x0C; 0x0D; 0x20; 0xA0; 0x1680;
                     0x2028; 0x2029; 0x202F; 0x205F; 0x3000; 0xFEFF]%N)
   || ((0x2000 <=? c)%N && (c <=? 0x200A)%N)).

Fixpoint trim_start (s : jsstring) : jsstring :=
  match s with
  | c :: s' => if is_js_whitespace c then trim_start s' else s
  | [] => []
  end.

Definition trim (s : jsstring) : jsstring :=
  rev (trim_start (rev (trim_start s))).

(** Truthiness of a string: every string but the empty one. *)
Definition truthy_string (s : jsstring) : bool :=
  match s with [] => false | _ => true end.

(* ===================================================================== *)
(** ** JSON values *)
(* ===================================================================== *)

(** What [JSON.parse] returns.  The list of a [JObject] holds the own
    enumerable properties in the order of [Object.keys] / [Object.entries];
    the list of a [JArray] holds the elements in index order. *)
Inductive JSONValue : Type :=
  | JNull
  | JBoolean (b : bool)
  | JNumber (x : spec_float)
  | JString (s : jsstring)
  | JArray (items : list JSONValue)
  | JObject (props : list (jsstring * JSONValue)).

Inductive NodeType : Type :=
  | TObject | TArray | TString | TNumber | TBoolean | TNull | TRoot.

Inductive FromSide : Type := SRight | SBottom.
Inductive ToSide : Type := SLeft | STop.

Record GraphNode : Type := mkGraphNode {
  gn_id : jsstring;
  gn_key : jsstring;
  gn_value : JSONValue;
  gn_type : NodeType;
  gn_x : Z;
  gn_y : Z;
  gn_width : Z;
  gn_height : Z;
  gn_children : list jsstring;
  gn_parent : option jsstring;
  gn_level : nat;
  gn_isExpanded : bool
}.

Record GraphEdge : Type := mkGraphEdge {
  ge_from : jsstring;
  ge_to : jsstring;
  ge_fromSide : FromSide;
  ge_toSide : ToSide
}.

(** The result of [createGraph]. *)
Record Graph : Type := mkGraph {
  nodes : list GraphNode;
  edges : list GraphEdge
}.

(** The three variables closed over by [traverse]: the two arrays and
    the [nodeId] counter. *)
Record TState : Type := mkTState {
  ts_nodes : list GraphNode;
  ts_edges : list GraphEdge;
  ts_nodeId : nat
}.

Definition isArray (value : JSONValue) : bool :=
  match value with JArray _ => true | _ => false end.

Definition isNull (value : JSONValue) : bool :=
  match value with JNull => true | _ => false end.

(** The [typeof] operator on the values [JSON.parse] can return. *)
Definition typeof (value : JSONValue) : NodeType :=
  match value with
  | JNull | JArray _ | JObject _ => TObject
  | JBoolean _ => TBoolean
  | JNumber _ => TNumber
  | JString _ => TString
  end.

Definition NodeType_eqb (a b : NodeType) : bool :=
  match a, b with
  | TObject, TObject | TArray, TArray | TString, TString
  | TNumber, TNumber | TBoolean, TBoolean | TNull, TNull | TRoot, TRoot => true
  | _, _ => false
  end.

(** [Object.entries(value)] of an object. *)
Definition Object_entries (value : JSONValue) : list (jsstring * JSONValue) :=
  match value with JObject props => props | _ => [] end.

(** [Object.keys(value)] of an object. *)
Definition Object_keys (value : JSONValue) : list jsstring :=
  (Object_entries value).*1.

(** The elements of an array. *)
Definition array_items (value : JSONValue) : list JSONValue :=
  match value with JArray items => items | _ => [] end.

(** The template literal [`node-${nodeId}`]. *)
Definition node_id_string (nodeId : nat) : jsstring :=
  js "node-" ++ js (pretty nodeId).

(** The template literal [`[${index}]`]. *)
Definition index_key (index : nat) : jsstring :=
  js "[" ++ js (pretty index) ++ js "]".

Definition set_children (n : GraphNode) (c : list jsstring) : GraphNode :=
  mkGraphNode (gn_id n) (gn_key n) (gn_value n) (gn_type n) (gn_x n) (gn_y n)
    (gn_width n) (gn_height n) c (gn_parent n) (gn_level n) (gn_isExpanded n).

Definition set_position (n : GraphNode) (x y : Z) : GraphNode :=
  mkGraphNode (gn_id n) (gn_key n) (gn_value n) (gn_type n) x y
    (gn_width n) (gn_height n) (gn_children n) (gn_parent n) (gn_level n)
    (gn_isExpanded n).

(** [nodes.find(n => n.id === parentId)] followed by
    [parentNode.children.push(currentId)]: the first node with that id is
    updated in place; nothing happens when there is none. *)
Definition push_child (parentId currentId : jsstring)
    (ns : list GraphNode) : list GraphNode :=
  match list_find (λ n, gn_id n = parentId) ns with
  | Some (i, parentNode) =>
      <[i := set_children parentNode (gn_children parentNode ++ [currentId])]> ns
  | None => ns
  end.

Section GraphModel.

(** The component state [expandedNodes]. *)
Variable expandedNodes : gset jsstring.

Definition node_type (value : JSONValue) : NodeType :=
  if isArray value then TArray
  else if isNull value then TNull
  else typeof value.

Definition hasChildren (value : JSONValue) : bool :=
  let type := node_type value in
  (NodeType_eqb type TObject && negb (isNull value)
     && (0 <? length (Object_keys value)))
  || (NodeType_eqb type TArray && (0 <? length (array_items value))).

(** The number of preview rows, [keys.length]. *)
Definition preview_keys (value : JSONValue) : list jsstring :=
  if NodeType_eqb (node_type value) TObject then Object_keys value
  else imap (λ i _, index_key i) (array_items value).

Definition extraHeight (value : JSONValue) (isExpanded : bool) : Z :=
  if hasChildren value && isExpanded
  then Z.min (Z.of_nat (length (preview_keys value)) * 25) 150
  else 0.

(** The node literal built by [traverse]. *)
Definition new_node (currentId key : jsstring) (value : JSONValue)
    (parentId : option jsstring) (level : nat) : GraphNode :=
  let isExpanded := bool_decide (currentId ∈ expandedNodes) in
  let baseWidth := 220%Z in
  let baseHeight := 100%Z in
  {| gn_id := currentId;
     gn_key := key;
     gn_value := value;
     gn_type := node_type value;
     gn_x := 0;
     gn_y := 0;
     gn_width := baseWidth;
     gn_height := baseHeight + extraHeight value isExpanded;
     gn_children := [];
     gn_parent := parentId;
     gn_level := level;
     gn_isExpanded := isExpanded |}.

(** The part of [traverse] before the recursion: take an id, push the
    node, and when [parentId] is truthy push the edge and register the
    child with its parent. *)
Definition emit (value : JSONValue) (key : jsstring)
    (parentId : option jsstring) (level : nat) (st : TState) : TState :=
  let currentId := node_id_string (ts_nodeId st) in
  let node := new_node currentId key value parentId level in
  let nodes1 := ts_nodes st ++ [node] in
  match parentId with
  | Some p =>
      if truthy_string p then
        mkTState (push_child p currentId nodes1)
                 (ts_edges st ++ [mkGraphEdge p currentId SRight SLeft])
                 (S (ts_nodeId st))
      else mkTState nodes1 (ts_edges st) (S (ts_nodeId st))
  | None => mkTState nodes1 (ts_edges st) (S (ts_nodeId st))
  end.

(** [traverse(value, key, parentId, level)]: returns [currentId] and
    the updated arrays and counter.  The two inner loops are the
    [forEach] over [Object.entries(value)] and over the array. *)
Fixpoint traverse (value : JSONValue) (key : jsstring)
    (parentId : option jsstring) (level : nat) (st : TState)
    {struct value} : jsstring * TState :=
  let currentId := node_id_string (ts_nodeId st) in
  let isExpanded := bool_decide (currentId ∈ expandedNodes) in
  let st1 := emit value key parentId level st in
  if hasChildren value && isExpanded then
    match value with
    | JObject props =>
        (currentId,
         (fix each (l : list (jsstring * JSONValue)) (s : TState) : TState :=
            match l with
            | [] => s
            | (childKey, childValue) :: l' =>
                each l' (traverse childValue childKey (Some currentId)
                           (S level) s).2
            end) props st1)
    | JArray items =>
        (currentId,
         (fix each (l : list JSONValue) (index : nat) (s : TState) : TState :=
            match l with
            | [] => s
            | item :: l' =>
                each l' (S index)
                  (traverse item (index_key index) (Some currentId)
                     (S level) s).2
            end) items 0 st1)
    | _ => (currentId, st1)
    end
  else (currentId, st1).

End GraphModel.

(* ===================================================================== *)
(** ** The layout pass *)
(* ===================================================================== *)

(** [levelGroups] is a JavaScript object keyed by level.  Integer-like
    keys are enumerated in ascending order, so the object is an
    association list kept sorted by key.  Each group holds references to
    the node objects of [nodes]; a reference is the node's index in
    [nodes], so that the assignments of [positionNodes] reach the array. *)
Fixpoint group_push (level ref : nat)
    (levelGroups : list (nat * list nat)) : list (nat * list nat) :=
  match levelGroups with
  | [] => [(level, [ref])]
  | (l, g) :: rest =>
      if decide (level = l) then (l, g ++ [ref]) :: rest
      else if decide (level < l) then (level, [ref]) :: levelGroups
      else (l, g) :: group_push level ref rest
  end.

(** The first [forEach] of [positionNodes]. *)
Definition levelGroups_of (ns : list GraphNode) : list (nat * list nat) :=
  fold_left (λ groups p, group_push (gn_level p.2) p.1 groups)
            (imap pair ns) [].

Definition levelWidth : Z := 300.

(** The body of the inner [forEach]: [node.x = x; node.y = currentY;
    currentY += node.height + 30]. *)
Definition place (x : Z) (s : list GraphNode * Z) (ref : nat)
    : list GraphNode * Z :=
  match s.1 !! ref with
  | Some node =>
      (<[ref := set_position node x s.2]> s.1, (s.2 + (gn_height node + 30))%Z)
  | None => s
  end.

(** The body of the outer [forEach], over [Object.entries(levelGroups)]. *)
Definition place_level (s : list GraphNode * Z) (entry : nat * list nat)
    : list GraphNode * Z :=
  let levelNum := entry.1 in
  let x := (Z.of_nat levelNum * levelWidth + 50)%Z in
  fold_left (place x) entry.2 s.

(** [positionNodes()]: [currentY] starts at 50 and is shared by all
    levels. *)
Definition positionNodes (ns : list GraphNode) : list GraphNode :=
  (fold_left place_level (levelGroups_of ns) (ns, 50%Z)).1.

(* ===================================================================== *)
(** ** createGraph and the overlay message *)
(* ===================================================================== *)

Definition initial_state : TState := mkTState [] [] 0.

Definition finish (st : TState) : Graph :=
  mkGraph (positionNodes (ts_nodes st)) (ts_edges st).

(** The graph of an already parsed document: what [createGraph] does
    after [JSON.parse] has returned [parsed]. *)
Definition build (expandedNodes : gset jsstring) (parsed : JSONValue) : Graph :=
  finish (traverse expandedNodes parsed (js "root") None 0 initial_state).2.

Inductive Overlay : Type :=
  | InvalidJSONFormat      (* 'Invalid JSON format' *)
  | EnterJSONToVisualize.  (* 'Enter JSON to visualize' *)

Section CreateGraph.

(** [JSON.parse] of the runtime: [None] when it throws. *)
Variable JSON_parse : jsstring → option JSONValue.
Variable expandedNodes : gset jsstring.

Definition createGraph (jsonInput : jsstring) : Graph :=
  finish
    (if truthy_string (trim jsonInput) then
       match JSON_parse jsonInput with
       | Some parsed =>
           (traverse expandedNodes parsed (js "root") None 0 initial_state).2
       | None => initial_state
       end
     else initial_state).

(** The message rendered over the canvas:
    [nodes.length === 0 && (jsonInput.trim() ? ... : ...)]. *)
Definition overlay (jsonInput : jsstring) : option Overlay :=
  if (length (nodes (createGraph jsonInput)) =? 0) then
    Some (if truthy_string (trim jsonInput)
          then InvalidJSONFormat else EnterJSONToVisualize)
  else None.

End CreateGraph.

(* ===================================================================== *)
(** ** The expansion store *)
(* ===================================================================== *)

Definition toggleNodeExpansion (nodeId : jsstring)
    (prev : gset jsstring) : gset jsstring :=
  if bool_decide (nodeId ∈ prev) then prev ∖ {[nodeId]} else prev ∪ {[nodeId]}.

(** [collapseAllNodes] installs the empty set (and clears the selection,
    which the graph does not depend on). *)
Definition collapseAllNodes : gset jsstring := ∅.

(** The expansion set installed by [handleSampleJson]. *)
Definition sample_expandedNodes : gset jsstring := {[ js "node-0" ]}.

(* ===================================================================== *)
(** ** A uniform view of the two loops of [traverse] *)
(* ===================================================================== *)

(** The (key, value) pairs visited by the loops of [traverse]:
    [Object.entries] of an object, and the elements of an array under the
    keys [`[${index}]`]. *)
Definition child_entries (value : JSONValue) : list (jsstring * JSONValue) :=
  match value with
  | JObject props => props
  | JArray items => imap (λ index item, (index_key index, item)) items
  | _ => []
  end.

Definition traverse_children (E : gset jsstring) (currentId : jsstring)
    (level : nat) (l : list (jsstring * JSONValue)) (s : TState) : TState :=
  fold_left
    (λ s kv, (traverse E kv.2 kv.1 (Some currentId) (S level) s).2) l s.

(** The edge pushed by [emit], if any. *)
Definition parent_edge (parentId : option jsstring)
    (currentId : jsstring) : list GraphEdge :=
  match parentId with
  | Some p =>
      if truthy_string p then [mkGraphEdge p currentId SRight SLeft] else []
  | None => []
  end.

(** The registration of a child with its parent done by [emit], if any. *)
Definition register (parentId : option jsstring) (currentId : jsstring)
    (ns : list GraphNode) : list GraphNode :=
  match parentId with
  | Some p => if truthy_string p then push_child p currentId ns else ns
  | None => ns
  end.

(** The nodes, edges and counter produced by one call of [traverse]
    when it starts from empty arrays and the counter [m]. *)
Definition subtree (E : gset jsstring) (value : JSONValue) (key : jsstring)
    (parentId : option jsstring) (level m : nat) : TState :=
  (traverse E value key parentId level (mkTState [] [] m)).2.

(** The nodes, edges and counter produced by the calls of one loop, with
    the ids of the children in order. *)
Fixpoint children_fold (E : gset jsstring) (currentId : jsstring)
    (level : nat) (l : list (jsstring * JSONValue)) (m : nat)
    : list jsstring * TState :=
  match l with
  | [] => ([], mkTState [] [] m)
  | kv :: l' =>
      let s := subtree E kv.2 kv.1 (Some currentId) (S level) m in
      let r := children_fold E currentId level l' (ts_nodeId s) in
      (node_id_string m :: r.1,
       mkTState (ts_nodes s ++ ts_nodes r.2) (ts_edges s ++ ts_edges r.2)
                (ts_nodeId r.2))
  end.

(** An id that no node numbered [m] or later will get. *)
Definition fresh_from (m : nat) (q : jsstring) : Prop :=
  ∀ k, m ≤ k → q ≠ node_id_string k.

(** The nodes carry the ids numbered consecutively from [m]. *)
Definition ids_from (m : nat) (ns : list GraphNode) : Prop :=
  gn_id <$> ns = node_id_string <$> seq m (length ns).

(** [traverse] is local: started from arrays that already hold [pre] and
    [pe], it leaves them alone, except for registering the new node with
    its parent, and appends what it produces from empty arrays. *)
Definition frame_ok (E : gset jsstring) (v : JSONValue) : Prop :=
  ∀ key p level m,
    (∀ q, p = Some q → fresh_from m q) →
    ids_from m (ts_nodes (subtree E v key p level m)) ∧
    ts_nodeId (subtree E v key p level m)
      = m + length (ts_nodes (subtree E v key p level m)) ∧
    ∀ pre pe,
      (∀ n, n ∈ pre → fresh_from m (gn_id n)) →
      traverse E v key p level (mkTState pre pe m) =
        (node_id_string m,
         mkTState
           (register p (node_id_string m) pre
              ++ ts_nodes (subtree E v key p level m))
           (pe ++ ts_edges (subtree E v key p level m))
           (ts_nodeId (subtree E v key p level m))).

(** What [traverse] establishes for a node, once its loop has run. *)
Definition node_ok (E : gset jsstring) (n : GraphNode) : Prop :=
  gn_type n = node_type (gn_value n) ∧
  gn_x n = 0%Z ∧ gn_y n = 0%Z ∧ gn_width n = 220%Z ∧
  gn_isExpanded n = bool_decide (gn_id n ∈ E) ∧
  gn_height n = (100 + extraHeight (gn_value n) (gn_isExpanded n))%Z ∧
  length (gn_children n)
    = (if hasChildren (gn_value n) && gn_isExpanded n
       then length (child_entries (gn_value n)) else 0) ∧
  (∀ k, gn_id n = node_id_string k →
        head (gn_children n)
          = if hasChildren (gn_value n) && gn_isExpanded n
            then Some (node_id_string (S k)) else None).

(** A node below the root of a subtree has a parent numbered before it. *)
Definition parent_before (m : nat) (n : GraphNode) : Prop :=
  ∃ a b, m ≤ a ∧ a < b ∧
         gn_parent n = Some (node_id_string a) ∧ gn_id n = node_id_string b.

Definition parent_ok (m : nat) (p : option jsstring) (n : GraphNode) : Prop :=
  (gn_id n = node_id_string m ∧ gn_parent n = p) ∨ parent_before m n.

(** The edges of a list of nodes: one per node with a (truthy) parent. *)
Definition edges_of (ns : list GraphNode) : list GraphEdge :=
  ns ≫= (λ n, parent_edge (gn_parent n) (gn_id n)).

Definition subtree_ok (E : gset jsstring) (v : JSONValue) : Prop :=
  ∀ key p level m,
    (∀ q, p = Some q → fresh_from m q) →
    Forall (node_ok E) (ts_nodes (subtree E v key p level m)) ∧
    Forall (parent_ok m p) (ts_nodes (subtree E v key p level m)) ∧
    ts_edges (subtree E v key p level m)
      = edges_of (ts_nodes (subtree E v key p level m)) ∧
    ∃ c rest, ts_nodes (subtree E v key p level m)
        = set_children (new_node E (node_id_string m) key v p level) c :: rest.

(** A node with its position reset: all that the layout pass keeps. *)
Definition erase_position (n : GraphNode) : GraphNode := set_position n 0 0.

(** The indices of the nodes of a level, in traversal order. *)
Definition level_members (ns : list GraphNode) (l : nat) : list nat :=
  filter (λ i, gn_level <$> ns !! i = Some l) (seq 0 (length ns)).

(** The order in which the two nested loops of [positionNodes] reach the
    nodes, each reference with the level of its group. *)
Definition flatten_groups (levelGroups : list (nat * list nat))
    : list (nat * nat) :=
  levelGroups ≫= (λ entry, pair entry.1 <$> entry.2).

Definition place_entry (s : list GraphNode * Z) (lr : nat * nat)
    : list GraphNode * Z :=
  place (Z.of_nat lr.1 * levelWidth + 50)%Z s lr.2.

Definition groups_ok (ns : list GraphNode)
    (levelGroups : list (nat * list nat)) : Prop :=
  StronglySorted lt levelGroups.*1 ∧
  (∀ l g, (l, g) ∈ levelGroups → g = level_members ns l) ∧
  (∀ n, n ∈ ns → gn_level n ∈ levelGroups.*1).

(** A non-empty object or a non-empty array. *)
Definition nonempty_container (value : JSONValue) : Prop :=
  match value with
  | JObject (_ :: _) | JArray (_ :: _) => True
  | _ => False
  end.

(** The number of edges that end in the node [i]. *)
Definition incoming (g : Graph) (i : jsstring) : nat :=
  length (filter (λ e, ge_to e = i) (edges g)).

(** The nodes and edges [traverse] produces for a whole document. *)
Definition document_tree (E : gset jsstring) (parsed : JSONValue) : TState :=
  subtree E parsed (js "root") None 0 0.

(** The document of [handleSampleJson], as [JSON.parse] returns it for
    the text [JSON.stringify(sampleJson, null, 2)]. *)
Definition sampleJson : JSONValue :=
  JObject
    [(js "user",
      JObject
        [(js "name", JString (js "John Doe"));
         (js "age", JNumber (binary_normalize 53 1024 30 0 false));
         (js "email", JString (js "john@example.com"));
         (js "avatar", JString (js "data:image/svg+xml;base64,PHN2ZyB3aWR0aD0iNjQiIGhlaWdodD0iNjQiIHZpZXdCb3g9IjAgMCA2NCA2NCIgZmlsbD0ibm9uZSIgeG1sbnM9Imh0dHA6Ly93d3cudzMub3JnLzIwMDAvc3ZnIj4KPGNpcmNsZSBjeD0iMzIiIGN5PSIzMiIgcj0iMzIiIGZpbGw9IiMzQjgyRjYiLz4KPHN2ZyB4PSIxNiIgeT0iMTYiIHdpZHRoPSIzMiIgaGVpZ2h0PSIzMiIgdmlld0JveD0iMCAwIDI0IDI0IiBmaWxsPSJub25lIiBzdHJva2U9IndoaXRlIiBzdHJva2Utd2lkdGg9IjIiPgo8cGF0aCBkPSJtMjAgMTctMiAyLTYtNi02IDYtMiAyIi8+CjxwYXRoIGQ9Im0xMiAxMy0yIDItNi02LTYgNi0yIDIiLz4KPC9zdmc+Cjwvc3ZnPgo="));
         (js "website", JString (js "https://johndoe.dev"))]);
     (js "projects",
      JArray
        [JObject
           [(js "name", JString (js "Portfolio Website"));
            (js "status", JString (js "completed"));
            (js "technologies",
             JArray [JString (js "React"); JString (js "TypeScript");
                     JString (js "Tailwind")])];
         JObject
           [(js "name", JString (js "Mobile App"));
            (js "status", JString (js "in-progress"));
            (js "technologies",
             JArray [JString (js "React Native"); JString (js "Expo")])]]);
     (js "settings",
      JObject
        [(js "theme", JString (js "dark"));
         (js "notifications", JBoolean true);
         (js "privacy",
          JObject [(js "showEmail", JBoolean false);
                   (js "showPhone", JBoolean true)])]);
     (js "metadata", JNull)].

(** The document and the expansion set of the scenarios of the
    specification: [{"a":1,"b":[2,3]}] with the root and [b] expanded. *)
Definition num (z : Z) : spec_float := binary_normalize 53 1024 z 0 false.

Definition scenario_doc : JSONValue :=
  JObject [(js "a", JNumber (num 1));
           (js "b", JArray [JNumber (num 2); JNumber (num 3)])].

Definition scenario_expanded : gset jsstring := {[ js "node-0"; js "node-2" ]}.

Definition set_isExpanded (n : GraphNode) (b : bool) : GraphNode :=
  mkGraphNode (gn_id n) (gn_key n) (gn_value n) (gn_type n) (gn_x n) (gn_y n)
    (gn_width n) (gn_height n) (gn_children n) (gn_parent n) (gn_level n) b.

(** A node with its flag recomputed for another expansion set. *)
Definition mirror (E : gset jsstring) (n : GraphNode) : GraphNode :=
  set_isExpanded n (bool_decide (gn_id n ∈ E)).

Definition mirror_state (E : gset jsstring) (s : TState) : TState :=
  mkTState (mirror E <$> ts_nodes s) (ts_edges s) (ts_nodeId s).

(** The node [n] is treated alike under the two expansion sets: they
    agree on its id, or it has nothing to expand. *)
Definition agree (E1 E2 : gset jsstring) (n : GraphNode) : Prop :=
  bool_decide (gn_id n ∈ E1) = bool_decide (gn_id n ∈ E2)
  ∨ hasChildren (gn_value n) = false.

Definition sim_ok (E1 E2 : gset jsstring) (v : JSONValue) : Prop :=
  ∀ key p level m,
    (∀ q, p = Some q → fresh_from m q) →
    Forall (agree E1 E2) (ts_nodes (subtree E1 v key p level m)) →
    subtree E2 v key p level m = mirror_state E2 (subtree E1 v key p level m).

(** The id [L] names a leaf of the graph: a node whose value is a
    primitive or an empty container. *)
Definition names_leaf (g : Graph) (L : jsstring) : Prop :=
  ∃ n, n ∈ nodes g ∧ gn_id n = L ∧ ¬ nonempty_container (gn_value n).

(** The node with id [L] gets the flag [b]; the others are unchanged. *)
Definition flag_at (L : jsstring) (b : bool) (n : GraphNode) : GraphNode :=
  if decide (gn_id n = L) then set_isExpanded n b else n.

(* ===================================================================== *)
(** ** The viewport: zoom by wheel and by pinch *)
(* ===================================================================== *)

(** JavaScript numbers are IEEE 754 binary64 values. *)
Definition prec : Z := 53.
Definition emax : Z := 1024.

Definition fadd : spec_float → spec_float → spec_float := SFadd prec emax.
Definition fsub : spec_float → spec_float → spec_float := SFsub prec emax.
Definition fmul : spec_float → spec_float → spec_float := SFmul prec emax.
Definition fdiv : spec_float → spec_float → spec_float := SFdiv prec emax.

(** The number literals of the handlers: the binary64 value nearest to
    the decimal, obtained by one correctly rounded division of integers. *)
Definition f0 : spec_float := S754_zero false.
Definition f1 : spec_float := num 1.
Definition f3 : spec_float := num 3.
Definition f0_1 : spec_float := fdiv (num 1) (num 10).
Definition f0_3 : spec_float := fdiv (num 3) (num 10).
Definition f0_8 : spec_float := fdiv (num 8) (num 10).
Definition f0_95 : spec_float := fdiv (num 95) (num 100).
Definition f1_05 : spec_float := fdiv (num 105) (num 100).

Definition is_nan (x : spec_float) : bool :=
  match x with S754_nan => true | _ => false end.

(** A finite number: what a WebIDL [double] attribute can hold. *)
Definition is_finite (x : spec_float) : bool :=
  match x with S754_zero _ | S754_finite _ _ _ => true | _ => false end.

(** [Math.min] and [Math.max] of two numbers: NaN when an argument is
    NaN, and [-0] below [+0]. *)
Definition Math_min (a b : spec_float) : spec_float :=
  match SFcompare a b with
  | None => S754_nan
  | Some Lt => a
  | Some Gt => b
  | Some Eq => match a with S754_zero true => a | _ => b end
  end.

Definition Math_max (a b : spec_float) : spec_float :=
  match SFcompare a b with
  | None => S754_nan
  | Some Lt => b
  | Some Gt => a
  | Some Eq => match a with S754_zero false => a | _ => b end
  end.

Definition Math_sqrt : spec_float → spec_float := SFsqrt prec emax.

(** [Math.pow(x, 2)], computed as the correctly rounded square. *)
Definition Math_pow2 (x : spec_float) : spec_float := fmul x x.

(** Truthiness of a number: every number but [+0], [-0] and NaN. *)
Definition truthy_number (x : spec_float) : bool :=
  match x with S754_zero _ | S754_nan => false | _ => true end.

Record Touch : Type := mkTouch { clientX : spec_float; clientY : spec_float }.

(** [getTouchDistance(touches)]: [None] is [null]. *)
Definition getTouchDistance (touches : list Touch) : option spec_float :=
  match touches with
  | touch1 :: touch2 :: _ =>
      Some (Math_sqrt
              (fadd (Math_pow2 (fsub (clientX touch2) (clientX touch1)))
                    (Math_pow2 (fsub (clientY touch2) (clientY touch1)))))
  | _ => None
  end.

(** The state the zoom handlers read and write: [zoom] and
    [lastTouchDistance] ([None] is [null]). *)
Record Viewport : Type := mkViewport {
  zoom : spec_float;
  lastTouchDistance : option spec_float
}.

(** [Math.max(0.1, Math.min(3, x))]. *)
Definition clamp_zoom (x : spec_float) : spec_float :=
  Math_max f0_1 (Math_min f3 x).

Definition handleWheel (ctrlKey metaKey : bool) (deltaY : spec_float)
    (v : Viewport) : Viewport :=
  if ctrlKey || metaKey then
    let delta := if SFltb f0 deltaY then f0_95 else f1_05 in
    mkViewport (clamp_zoom (fmul (zoom v) delta)) (lastTouchDistance v)
  else v.

Definition handleTouchStart (touches : list Touch) (v : Viewport) : Viewport :=
  if length touches =? 2
  then mkViewport (zoom v) (getTouchDistance touches)
  else v.

Definition handleTouchMove (touches : list Touch) (v : Viewport) : Viewport :=
  if length touches =? 2 then
    match lastTouchDistance v with
    | Some last =>
        if truthy_number last then
          match getTouchDistance touches with
          | Some distance =>
              if truthy_number distance then
                let rawScale := fdiv distance last in
                let dampedScale := fadd f1 (fmul (fsub rawScale f1) f0_3) in
                mkViewport (clamp_zoom (fmul (zoom v) dampedScale))
                           (Some distance)
              else v
          | None => v
          end
        else v
    | None => v
    end
  else v.

Definition handleTouchEnd (v : Viewport) : Viewport :=
  mkViewport (zoom v) None.

Inductive ViewportEvent : Type :=
  | Wheel (ctrlKey metaKey : bool) (deltaY : spec_float)
  | TouchStart (touches : list Touch)
  | TouchMove (touches : list Touch)
  | TouchEnd.

Definition handle (v : Viewport) (ev : ViewportEvent) : Viewport :=
  match ev with
  | Wheel ctrlKey metaKey deltaY => handleWheel ctrlKey metaKey deltaY v
  | TouchStart touches => handleTouchStart touches v
  | TouchMove touches => handleTouchMove touches v
  | TouchEnd => handleTouchEnd v
  end.

(** The viewport after a sequence of events, each handler seeing the
    state left by the previous one. *)
Definition run (evs : list ViewportEvent) (v : Viewport) : Viewport :=
  fold_left handle evs v.

(** [0.1 <= z <= 3]. *)
Definition zoom_in_range (z : spec_float) : bool :=
  SFleb f0_1 z && SFleb z f3.

(** The initial state of the component: [zoom = 0.8], no pinch. *)
Definition initial_viewport : Viewport := mkViewport f0_8 None.

(** An event as the browser can deliver it: finite coordinates and a
    finite wheel delta. *)
Definition finite_touch (t : Touch) : bool :=
  is_finite (clientX t) && is_finite (clientY t).

Definition well_formed_event (ev : ViewportEvent) : bool :=
  match ev with
  | Wheel _ _ deltaY => is_finite deltaY
  | TouchStart touches | TouchMove touches => forallb finite_touch touches
  | TouchEnd => true
  end.

(** The ratio [distance / lastTouchDistance] that [handleTouchMove]
    computes in the state [v], when its guards let it through. *)
Definition pinch_scale (v : Viewport) (touches : list Touch)
    : option spec_float :=
  if length touches =? 2 then
    match lastTouchDistance v, getTouchDistance touches with
    | Some last, Some distance =>
        if truthy_number last && truthy_number distance
        then Some (fdiv distance last) else None
    | _, _ => None
    end
  else None.

(** No pinch move of the sequence, run from [v], computes the ratio NaN. *)
Fixpoint scales_defined (evs : list ViewportEvent) (v : Viewport) : bool :=
  match evs with
  | [] => true
  | ev :: evs' =>
      match ev with
      | TouchMove touches =>
          match pinch_scale v touches with
          | Some rawScale => negb (is_nan rawScale)
          | None => true
          end
      | _ => true
      end
      && scales_defined evs' (handle v ev)
  end.

Definition is_infinite (x : spec_float) : bool :=
  match x with S754_infinity _ => true | _ => false end.

(** The distance between the touch points of the event did not overflow. *)
Definition finite_distance (ev : ViewportEvent) : bool :=
  match ev with
  | TouchStart touches | TouchMove touches =>
      match getTouchDistance touches with
      | Some d => negb (is_infinite d)
      | None => true
      end
  | _ => true
  end.

(** The stored distance, if any, is not infinite. *)
Definition last_not_infinite (v : Viewport) : bool :=
  match lastTouchDistance v with
  | Some d => negb (is_infinite d)
  | None => true
  end.

(** Touch points 3 and 5 pixels apart. *)
Definition near_touches : list Touch := [mkTouch f0 f0; mkTouch (num 3) f0].
Definition wide_touches : list Touch := [mkTouch f0 f0; mkTouch (num 3) (num 4)].

(** Two touch points [2^600] pixels apart: finite coordinates whose
    squared distance overflows. *)
Definition far_touches : list Touch :=
  [mkTouch f0 f0; mkTouch (S754_finite false 4503599627370496 548) f0].

(** The blank test of [createGraph]: all code units are white space. *)
Definition blank (s : jsstring) : bool := forallb is_js_whitespace s.

(** A stand-in for [JSON.parse] that accepts the three literal names and
    rejects every other text. *)
Definition literal_parse (s : jsstring) : option JSONValue :=
  if decide (s = js "null") then Some JNull
  else if decide (s = js "true") then Some (JBoolean true)
  else if decide (s = js "false") then Some (JBoolean false)
  else None.

(* ===================================================================== *)
(** ** Parents and children *)
(* ===================================================================== *)

(** The nodes of [ns] whose [parent] is the id [i], in the order of [ns]. *)
Definition children_of (ns : list GraphNode) (i : jsstring) : list GraphNode :=
  filter (λ c, gn_parent c = Some i) ns.

(** The node [n] and the nodes of [ns] that name it as parent agree: its
    [children] are their ids in order, they carry the entries of its
    value in source order when its loop ran and there are none otherwise,
    and they are one level below it. *)
Definition family_ok (ns : list GraphNode) (n : GraphNode) : Prop :=
  gn_children n = gn_id <$> children_of ns (gn_id n) ∧
  (λ c, (gn_key c, gn_value c)) <$> children_of ns (gn_id n)
    = (if hasChildren (gn_value n) && gn_isExpanded n
       then child_entries (gn_value n) else []) ∧
  Forall (λ c, gn_level c = S (gn_level n)) (children_of ns (gn_id n)).

(** A node below the root of a subtree numbered from [m] with [len]
    nodes: its parent is an earlier node of the subtree. *)
Definition inner_node (m len : nat) (c : GraphNode) : Prop :=
  ∃ a b, m ≤ a ∧ a < b ∧ b < m + len ∧
         gn_parent c = Some (node_id_string a) ∧ gn_id c = node_id_string b.

(** A node produced by the loop of the node numbered [m], whose calls
    are numbered from [m1] and produce [len] nodes: an entry of the node,
    or a node below an entry. *)
Definition loop_node (m m1 len level : nat) (c : GraphNode) : Prop :=
  ∃ b, m1 ≤ b ∧ b < m1 + len ∧ gn_id c = node_id_string b ∧
       ((gn_parent c = Some (node_id_string m) ∧ gn_level c = S level) ∨
        (∃ a, m1 ≤ a ∧ a < b ∧ gn_parent c = Some (node_id_string a))).

Definition tree_ok (E : gset jsstring) (v : JSONValue) : Prop :=
  ∀ key p level m,
    (∀ q, p = Some q → fresh_from m q) →
    ∃ c rest,
      ts_nodes (subtree E v key p level m)
        = set_children (new_node E (node_id_string m) key v p level) c :: rest ∧
      Forall (inner_node m (S (length rest))) rest ∧
      Forall (family_ok (ts_nodes (subtree E v key p level m)))
             (ts_nodes (subtree E v key p level m)).

(** Two nodes that differ at most in their position. *)
Definition same_node (a b : GraphNode) : Prop :=
  erase_position a = erase_position b.


(** The order in which [positionNodes] reaches the nodes: by level, and
    within a level by position in [nodes].  A pair is (level, index). *)
Definition layout_before (a b : nat * nat) : Prop :=
  a.1 < b.1 ∨ (a.1 = b.1 ∧ a.2 < b.2).

(* ===================================================================== *)
(** ** The values of a document *)
(* ===================================================================== *)

(** The JSON values of a document in document order: the document
    itself, then, entry by entry, the values of its properties or
    elements, each with the values it contains. *)
Fixpoint json_values (v : JSONValue) : list JSONValue :=
  v :: match v with
       | JArray items =>
           (fix each (l : list JSONValue) : list JSONValue :=
              match l with
              | [] => []
              | item :: l' => json_values item ++ each l'
              end) items
       | JObject props =>
           (fix each (l : list (jsstring * JSONValue)) : list JSONValue :=
              match l with
              | [] => []
              | (_, val) :: l' => json_values val ++ each l'
              end) props
       | _ => []
       end.

(** The ids [node-0 .. node-(n-1)]. *)
Definition first_ids (n : nat) : gset jsstring :=
  list_to_set (node_id_string <$> seq 0 n).

(* ===================================================================== *)
(** ** Looking a node up by its id *)
(* ===================================================================== *)

(** [nodes.find(n => n.id === id)]: [None] is [undefined]. *)
Definition find_node (ns : list GraphNode) (id : jsstring) : option GraphNode :=
  snd <$> list_find (λ n, gn_id n = id) ns.

(** [selectedNode ? nodes.find(n => n.id === selectedNode) : null]. *)
Definition selectedNodeData (ns : list GraphNode)
    (selectedNode : option jsstring) : option GraphNode :=
  match selectedNode with
  | Some id => if truthy_string id then find_node ns id else None
  | None => None
  end.

(** The children list of the details panel:
    [selectedNodeData.children.map(childId => nodes.find(...))], a button
    with the key and the type of the child where the child is found and
    [null] ([None]) where it is not. *)
Definition panel_children (ns : list GraphNode) (selected : GraphNode)
    : list (option (jsstring * NodeType)) :=
  (λ childId,
     (λ child, (gn_key child, gn_type child)) <$> find_node ns childId)
  <$> gn_children selected.

(* ===================================================================== *)
(** ** The preview rows of a node card *)
(* ===================================================================== *)

(** The code unit of the double quote. *)
Definition quote : jsstring := [34%N].

Record PreviewRow : Type := mkPreviewRow {
  pr_key : jsstring;
  pr_preview : option jsstring;   (* [None] is [undefined] *)
  pr_type : NodeType
}.

Section Preview.

(** [Number.prototype.toString] of the runtime. *)
Variable Number_toString : spec_float → jsstring.

(** The [preview] of a value [val].  [valType] is
    [Array.isArray(val) ? 'array' : val === null ? 'null' : typeof val],
    that is [node_type val]; the chain of conditionals on it is written
    as a match on the value:
    - a string: the first 15 code units between quotes, followed by
      ['...'] when there are more;
    - an object: ['{...}']; an array: ['[...]'];
    - otherwise [val?.toString().substring(0, 15)], which is [undefined]
      for [null]. *)
Definition preview_of (val : JSONValue) : option jsstring :=
  match val with
  | JString s =>
      Some (quote ++ take 15 s ++ (if 15 <? length s then js "..." else [])
              ++ quote)
  | JObject _ => Some (js "{...}")
  | JArray _ => Some (js "[...]")
  | JNull => None
  | JBoolean b => Some (take 15 (js (if b then "true" else "false")))
  | JNumber x => Some (take 15 (Number_toString x))
  end.

(** [getObjectPreview(value, type)], as [renderNodeContent] calls it:
    with the value and the type of a node. *)
Definition getObjectPreview (value : JSONValue) (type : NodeType)
    : list PreviewRow :=
  if NodeType_eqb type TObject && negb (isNull value) then
    (λ kv, mkPreviewRow kv.1 (preview_of kv.2) (node_type kv.2))
      <$> take 3 (Object_entries value)
  else if NodeType_eqb type TArray then
    imap (λ index val,
            mkPreviewRow (index_key index) (preview_of val) (node_type val))
         (take 3 (array_items value))
  else [].

(** The baselines of the text lines of the preview block of a node card:
    one line per preview row, at [node.y + 75 + index * 20], and the line
    ['+N more...'] at [node.y + 75 + 3 * 20] when the value has more than
    three entries.  The block is rendered for objects and arrays only. *)
Definition preview_lines (node : GraphNode) : list Z :=
  if NodeType_eqb (gn_type node) TObject || NodeType_eqb (gn_type node) TArray
  then
    imap (λ index _, (gn_y node + 75 + Z.of_nat index * 20)%Z)
         (getObjectPreview (gn_value node) (gn_type node))
    ++ (if (NodeType_eqb (gn_type node) TObject
              && (3 <? length (Object_keys (gn_value node))))
           || (NodeType_eqb (gn_type node) TArray
                 && (3 <? length (array_items (gn_value node))))
        then [(gn_y node + 75 + 3 * 20)%Z] else [])
  else [].

End Preview.

(** The condition under which [renderNodeContent] draws the
    expand/collapse button. *)
Definition shows_toggle (node : GraphNode) : bool :=
  (0 <? length (gn_children node))
  || (NodeType_eqb (gn_type node) TObject && negb (isNull (gn_value node))
        && (0 <? length (Object_keys (gn_value node))))
  || (NodeType_eqb (gn_type node) TArray
        && (0 <? length (array_items (gn_value node)))).

(* ===================================================================== *)
(** ** The edges as drawn *)
(* ===================================================================== *)

From Stdlib Require QArith.

(** The five numbers of the path of an edge,
    [M fromX fromY C midX fromY, midX toY, toX toY].  Halving a height
    yields halves of integers, which are rationals here. *)
Record EdgePath : Type := mkEdgePath {
  ep_fromX : QArith_base.Q;
  ep_fromY : QArith_base.Q;
  ep_midX : QArith_base.Q;
  ep_toX : QArith_base.Q;
  ep_toY : QArith_base.Q
}.

Definition Qof (z : Z) : QArith_base.Q := QArith_base.inject_Z z.

(** [a / 2]. *)
Definition half (a : QArith_base.Q) : QArith_base.Q :=
  QArith_base.Qdiv a (Qof 2).

(** The body of the [map] of [renderEdges]: [None] is [null], returned
    when an end of the edge is not found among the nodes. *)
Definition renderEdge (ns : list GraphNode) (edge : GraphEdge)
    : option EdgePath :=
  match find_node ns (ge_from edge), find_node ns (ge_to edge) with
  | Some fromNode, Some toNode =>
      let fromX := Qof (gn_x fromNode + gn_width fromNode) in
      let fromY :=
        QArith_base.Qplus (Qof (gn_y fromNode)) (half (Qof (gn_height fromNode))) in
      let toX := Qof (gn_x toNode) in
      let toY :=
        QArith_base.Qplus (Qof (gn_y toNode)) (half (Qof (gn_height toNode))) in
      let midX :=
        QArith_base.Qplus fromX (half (QArith_base.Qminus toX fromX)) in
      Some (mkEdgePath fromX fromY midX toX toY)
  | _, _ => None
  end.

Definition renderEdges (g : Graph) : list (option EdgePath) :=
  renderEdge (nodes g) <$> edges g.

(* ===================================================================== *)
(** ** The canvas: zoom buttons, drag, double click, selection *)
(* ===================================================================== *)

Definition f0_5 : spec_float := fdiv (num 5) (num 10).
Definition f1_2 : spec_float := fdiv (num 12) (num 10).
Definition f50 : spec_float := num 50.

(** The updaters of [handleZoomIn] and [handleZoomOut]. *)
Definition handleZoomIn (prev : spec_float) : spec_float :=
  Math_min (fmul prev f1_2) f3.

Definition handleZoomOut (prev : spec_float) : spec_float :=
  Math_max (fdiv prev f1_2) f0_1.

Record Point : Type := mkPoint { pt_x : spec_float; pt_y : spec_float }.

(** The state read and written by the handlers of the canvas. *)
Record Canvas : Type := mkCanvas {
  cv_view : Viewport;                  (* [zoom], [lastTouchDistance] *)
  cv_pan : Point;
  cv_isDragging : bool;
  cv_dragStart : Point;
  cv_lastTap : Z;                      (* a value of [Date.now()] *)
  cv_selectedNode : option jsstring    (* [None] is [null] *)
}.

(** The initial state of the component. *)
Definition initial_canvas : Canvas :=
  mkCanvas initial_viewport (mkPoint f50 f50) false (mkPoint f0 f0) 0 None.

Definition set_view (c : Canvas) (v : Viewport) : Canvas :=
  mkCanvas v (cv_pan c) (cv_isDragging c) (cv_dragStart c) (cv_lastTap c)
    (cv_selectedNode c).

Definition set_zoom (c : Canvas) (z : spec_float) : Canvas :=
  set_view c (mkViewport z (lastTouchDistance (cv_view c))).

Definition set_pan (c : Canvas) (p : Point) : Canvas :=
  mkCanvas (cv_view c) p (cv_isDragging c) (cv_dragStart c) (cv_lastTap c)
    (cv_selectedNode c).

Definition set_selectedNode (c : Canvas) (s : option jsstring) : Canvas :=
  mkCanvas (cv_view c) (cv_pan c) (cv_isDragging c) (cv_dragStart c)
    (cv_lastTap c) s.

(** [onSvg] is the test [e.target === svgRef.current]. *)
Definition handleMouseDown (onSvg : bool) (clientX clientY : spec_float)
    (c : Canvas) : Canvas :=
  if onSvg then
    mkCanvas (cv_view c) (cv_pan c) true
      (mkPoint (fsub clientX (pt_x (cv_pan c)))
               (fsub clientY (pt_y (cv_pan c))))
      (cv_lastTap c) (cv_selectedNode c)
  else c.

Definition handleMouseMove (clientX clientY : spec_float) (c : Canvas)
    : Canvas :=
  if cv_isDragging c then
    set_pan c (mkPoint (fsub clientX (pt_x (cv_dragStart c)))
                       (fsub clientY (pt_y (cv_dragStart c))))
  else c.

(** Also the handler of [onMouseLeave]. *)
Definition handleMouseUp (c : Canvas) : Canvas :=
  mkCanvas (cv_view c) (cv_pan c) false (cv_dragStart c) (cv_lastTap c)
    (cv_selectedNode c).

(** [now] is the value of [Date.now()]. *)
Definition handleDoubleClick (onSvg : bool) (now : Z) (c : Canvas) : Canvas :=
  if onSvg then
    let c1 :=
      if (now - cv_lastTap c <? 300)%Z then
        set_pan
          (set_zoom c (if SFeqb (zoom (cv_view c)) f1 then f0_5 else f1))
          (mkPoint f50 f50)
      else c in
    mkCanvas (cv_view c1) (cv_pan c1) (cv_isDragging c1) (cv_dragStart c1)
      now (cv_selectedNode c1)
  else c.

Definition handleResetView (c : Canvas) : Canvas :=
  set_pan (set_zoom c f0_8) (mkPoint f50 f50).

Definition handleRecenter (c : Canvas) : Canvas :=
  set_selectedNode (set_pan (set_zoom c f0_8) (mkPoint f50 f50)) None.

Definition handleNodeClick (nodeId : jsstring) (c : Canvas) : Canvas :=
  if decide (cv_selectedNode c = Some nodeId)
  then set_selectedNode c None
  else set_selectedNode c (Some nodeId).

Inductive CanvasEvent : Type :=
  | Gesture (ev : ViewportEvent)       (* wheel and touch events *)
  | MouseDown (onSvg : bool) (clientX clientY : spec_float)
  | MouseMove (clientX clientY : spec_float)
  | MouseUp
  | MouseLeave
  | DoubleClick (onSvg : bool) (now : Z)
  | ZoomIn
  | ZoomOut
  | ResetView
  | Recenter
  | NodeClick (nodeId : jsstring).

Definition canvas_handle (c : Canvas) (ev : CanvasEvent) : Canvas :=
  match ev with
  | Gesture ev => set_view c (handle (cv_view c) ev)
  | MouseDown onSvg clientX clientY => handleMouseDown onSvg clientX clientY c
  | MouseMove clientX clientY => handleMouseMove clientX clientY c
  | MouseUp | MouseLeave => handleMouseUp c
  | DoubleClick onSvg now => handleDoubleClick onSvg now c
  | ZoomIn => set_zoom c (handleZoomIn (zoom (cv_view c)))
  | ZoomOut => set_zoom c (handleZoomOut (zoom (cv_view c)))
  | ResetView => handleResetView c
  | Recenter => handleRecenter c
  | NodeClick nodeId => handleNodeClick nodeId c
  end.

Definition canvas_run (evs : list CanvasEvent) (c : Canvas) : Canvas :=
  fold_left canvas_handle evs c.

(** The events that assign the zoom a constant: the double click on the
    canvas and the two reset buttons. *)
Definition resets_zoom (ev : CanvasEvent) : bool :=
  match ev with
  | DoubleClick true _ | ResetView | Recenter => true
  | _ => false
  end.

(** The events that can move the view: a press on the canvas, which
    starts a drag, and those that assign the pan a constant. *)
Definition moves_view (ev : CanvasEvent) : bool :=
  match ev with
  | MouseDown true _ _ | DoubleClick true _ | ResetView | Recenter => true
  | _ => false
  end.

(* ===================================================================== *)
(** ** Invariants of the traversal used below *)
(* ===================================================================== *)

(** The values of the nodes of a subtree are values of the document, in
    document order, and all of them when every id of the subtree is in
    the expansion set. *)
Definition values_ok (E : gset jsstring) (v : JSONValue) : Prop :=
  ∀ key p level m,
    (∀ q, p = Some q → fresh_from m q) →
    gn_value <$> ts_nodes (subtree E v key p level m) `sublist_of` json_values v ∧
    ((∀ k, m ≤ k → k < m + length (json_values v) → node_id_string k ∈ E) →
     gn_value <$> ts_nodes (subtree E v key p level m) = json_values v).

(** What a node is given when [traverse] creates it and never changes
    afterwards: its id, key, value, type, parent and level. *)
Definition label (n : GraphNode)
    : jsstring * jsstring * JSONValue * NodeType * option jsstring * nat :=
  (gn_id n, gn_key n, gn_value n, gn_type n, gn_parent n, gn_level n).

(** A node as [traverse] creates it: without children and not placed. *)
Definition created (n : GraphNode) : GraphNode :=
  set_children (erase_position n) [].

(** Two runs of [traverse] under expansion sets that agree on the ids
    below [node-k] produce the same nodes up to [node-k]: the same labels
    up to and including [node-k], the same nodes as created before it. *)
Definition prefix_ok (E E' : gset jsstring) (v : JSONValue) : Prop :=
  ∀ key p level m k,
    (∀ q, p = Some q → fresh_from m q) →
    (∀ j, m ≤ j → j < k → node_id_string j ∈ E ↔ node_id_string j ∈ E') →
    take (S k - m) (label <$> ts_nodes (subtree E v key p level m))
      = take (S k - m) (label <$> ts_nodes (subtree E' v key p level m)) ∧
    take (k - m) (created <$> ts_nodes (subtree E v key p level m))
      = take (k - m) (created <$> ts_nodes (subtree E' v key p level m)).
(* ===================================================================== *)
(** ** Strings and ids *)
(* ===================================================================== *)

Lemma js_inj (s t : string) : js s = js t → s = t.
Proof.
  unfold js. revert t.
  induction s as [|a s IH]; intros [|b t]; simpl; intros H; try done.
  injection H as Ha Hs.
  f_equal; [|by apply IH].
  rewrite <- (ascii_N_embedding a), <- (ascii_N_embedding b). by rewrite Ha.
Qed.

Lemma node_id_string_inj (a b : nat) :
  node_id_string a = node_id_string b → a = b.
Proof.
  unfold node_id_string. intros H.
  apply app_inv_head in H. apply js_inj in H.
  by apply (inj pretty) in H.
Qed.

Lemma node_id_string_truthy (m : nat) :
  truthy_string (node_id_string m) = true.
Proof. reflexivity. Qed.

Lemma node_id_string_0 : node_id_string 0 = js "node-0".
Proof. reflexivity. Qed.

Lemma fresh_from_id (m m1 : nat) : m < m1 → fresh_from m1 (node_id_string m).
Proof. intros Hlt k Hk Heq. apply node_id_string_inj in Heq. lia. Qed.

Lemma fresh_from_mono (m m1 : nat) (q : jsstring) :
  m ≤ m1 → fresh_from m q → fresh_from m1 q.
Proof. intros Hle Hq k Hk. apply Hq. lia. Qed.

(* ===================================================================== *)
(** ** The recursion of [traverse] *)
(* ===================================================================== *)

(** Induction over a JSON value through the entries its loops visit. *)
Lemma JSONValue_entries_ind (P : JSONValue → Prop) :
  (∀ v, Forall (λ kv, P kv.2) (child_entries v) → P v) → ∀ v, P v.
Proof.
  intros step.
  fix IH 1. intros v. apply step.
  destruct v as [| | | |items|props]; simpl; try by constructor.
  - generalize index_key.
    induction items as [|item items IHitems]; intros f; simpl.
    + constructor.
    + constructor; [apply IH|]. apply (IHitems (f ∘ S)).
  - induction props as [|[k c] props IHprops]; simpl.
    + constructor.
    + constructor; [apply IH|apply IHprops].
Qed.

Lemma hasChildren_entries (v : JSONValue) :
  hasChildren v = (0 <? length (child_entries v)).
Proof.
  destruct v as [| | | |items|props]; try reflexivity.
  - unfold hasChildren; simpl. by rewrite length_imap.
  - unfold hasChildren, Object_keys; simpl. rewrite length_fmap.
    by rewrite orb_false_r.
Qed.

Lemma preview_keys_length (v : JSONValue) :
  length (preview_keys v) = length (child_entries v).
Proof.
  destruct v as [| | | |items|props]; try reflexivity.
  - unfold preview_keys; simpl. by rewrite !length_imap.
  - unfold preview_keys, Object_keys; simpl. by rewrite length_fmap.
Qed.

(** The body of [traverse], with both loops read as one loop over
    [child_entries]. *)
Lemma traverse_unfold (E : gset jsstring) (value : JSONValue) (key : jsstring)
    (parentId : option jsstring) (level : nat) (st : TState) :
  traverse E value key parentId level st =
    (node_id_string (ts_nodeId st),
     if hasChildren value && bool_decide (node_id_string (ts_nodeId st) ∈ E)
     then traverse_children E (node_id_string (ts_nodeId st)) level
            (child_entries value) (emit E value key parentId level st)
     else emit E value key parentId level st).
Proof.
  destruct value as [| | | |items|props]; simpl; try reflexivity.
  - destruct (_ && _); [|done]. f_equal.
    unfold traverse_children.
    generalize (emit E (JArray items) key parentId level st).
    change (λ index item, (index_key index, item))
      with (λ index (item : JSONValue), (index_key (0 + index), item)).
    generalize 0.
    induction items as [|item items IH]; intros n s; simpl; [done|].
    rewrite IH. rewrite Nat.add_0_r. f_equal.
    apply imap_ext. intros i x _. simpl. f_equal. f_equal. lia.
  - destruct (_ && _); [|done]. f_equal.
    unfold traverse_children.
    generalize (emit E (JObject props) key parentId level st).
    induction props as [|[k c] props IH]; intros s; simpl; [done|].
    by rewrite IH.
Qed.

(* ===================================================================== *)
(** ** Registering a child with its parent *)
(* ===================================================================== *)

Lemma set_children_same (n : GraphNode) : set_children n (gn_children n) = n.
Proof. by destruct n. Qed.

Lemma push_child_app_l (q c : jsstring) (a b : list GraphNode) :
  (∀ n, n ∈ b → gn_id n ≠ q) →
  push_child q c (a ++ b) = push_child q c a ++ b.
Proof.
  intros Hb. unfold push_child.
  destruct (list_find (λ n, gn_id n = q) a) as [[i x]|] eqn:Ha.
  - rewrite (list_find_app_l _ _ _ _ _ Ha).
    apply list_find_Some in Ha as (Hi & _ & _).
    apply lookup_lt_Some in Hi. by rewrite insert_app_l.
  - assert (list_find (λ n, gn_id n = q) (a ++ b) = None) as ->; [|done].
    apply list_find_app_None. split; [done|].
    apply list_find_None, Forall_forall. intros n Hn. by apply Hb.
Qed.

Lemma push_child_app_r (q c : jsstring) (a b : list GraphNode) :
  (∀ n, n ∈ a → gn_id n ≠ q) →
  push_child q c (a ++ b) = a ++ push_child q c b.
Proof.
  intros Ha. unfold push_child.
  assert (list_find (λ n, gn_id n = q) a = None) as Hnone.
  { apply list_find_None, Forall_forall. intros n Hn. by apply Ha. }
  rewrite (list_find_app_r _ _ _ Hnone).
  destruct (list_find (λ n, gn_id n = q) b) as [[i x]|]; simpl; [|done].
  by rewrite Nat.add_comm, insert_app_r.
Qed.

Lemma push_child_head (q c : jsstring) (nd : GraphNode) (l : list GraphNode) :
  gn_id nd = q →
  push_child q c (nd :: l) = set_children nd (gn_children nd ++ [c]) :: l.
Proof.
  intros Hq. unfold push_child. simpl.
  by rewrite decide_True.
Qed.


(* ===================================================================== *)
(** ** Locality of [traverse] *)
(* ===================================================================== *)

Lemma ids_from_fresh (m : nat) (ns : list GraphNode) (n : GraphNode) :
  ids_from m ns → n ∈ ns → fresh_from (m + length ns) (gn_id n).
Proof.
  intros Hids Hn k Hk Heq.
  assert (gn_id n ∈ gn_id <$> ns) as Hin by (by apply list_elem_of_fmap_2).
  rewrite Hids in Hin.
  apply list_elem_of_fmap in Hin as (j & Hj & Hjin).
  apply elem_of_seq in Hjin.
  rewrite Heq in Hj. apply node_id_string_inj in Hj. lia.
Qed.

Lemma ids_from_app (m : nat) (a b : list GraphNode) :
  ids_from m a → ids_from (m + length a) b → ids_from m (a ++ b).
Proof.
  unfold ids_from. intros Ha Hb.
  rewrite fmap_app, length_app, seq_app, fmap_app. by rewrite Ha, Hb.
Qed.

Lemma emit_frame (E : gset jsstring) (v : JSONValue) (key : jsstring)
    (p : option jsstring) (level : nat) (pre : list GraphNode)
    (pe : list GraphEdge) (m : nat) :
  (∀ q, p = Some q → q ≠ node_id_string m) →
  emit E v key p level (mkTState pre pe m) =
    mkTState
      (register p (node_id_string m) pre
         ++ [new_node E (node_id_string m) key v p level])
      (pe ++ parent_edge p (node_id_string m)) (S m).
Proof.
  intros Hp. unfold emit, register, parent_edge. simpl.
  destruct p as [q|]; [|by rewrite app_nil_r].
  destruct (truthy_string q); [|by rewrite app_nil_r].
  rewrite push_child_app_l; [done|].
  intros n Hn. apply list_elem_of_singleton in Hn as ->. simpl.
  intros Heq. by apply (Hp q).
Qed.

Lemma traverse_children_frame (E : gset jsstring) (m level : nat)
    (l : list (jsstring * JSONValue)) :
  Forall (λ kv, frame_ok E kv.2) l →
  ∀ pre pe nd loc le m1,
    m < m1 → gn_id nd = node_id_string m →
    (∀ n, n ∈ pre → fresh_from m (gn_id n)) →
    (∀ n, n ∈ loc → fresh_from m1 (gn_id n)) →
    traverse_children E (node_id_string m) level l
        (mkTState (pre ++ nd :: loc) (pe ++ le) m1) =
      mkTState
        (pre ++
           set_children nd
             (gn_children nd
                ++ (children_fold E (node_id_string m) level l m1).1)
           :: loc ++ ts_nodes (children_fold E (node_id_string m) level l m1).2)
        (pe ++ le ++ ts_edges (children_fold E (node_id_string m) level l m1).2)
        (ts_nodeId (children_fold E (node_id_string m) level l m1).2)
    ∧ ids_from m1 (ts_nodes (children_fold E (node_id_string m) level l m1).2)
    ∧ ts_nodeId (children_fold E (node_id_string m) level l m1).2
        = m1 + length (ts_nodes (children_fold E (node_id_string m) level l m1).2).
Proof.
  induction 1 as [|kv l Hkv _ IH]; intros pre pe nd loc le m1 Hlt Hnd Hpre Hloc.
  - simpl. rewrite !app_nil_r, set_children_same.
    split; [done|]. split; [done|lia].
  - destruct (Hkv kv.1 (Some (node_id_string m)) (S level) m1)
      as (Hids & Hcnt & Hfr).
    { intros q [= <-]. by apply fresh_from_id. }
    unfold traverse_children in *. simpl.
    set (s := subtree E kv.2 kv.1 (Some (node_id_string m)) (S level) m1) in *.
    rewrite (Hfr (pre ++ nd :: loc) (pe ++ le)).
    2:{ intros n [Hn|Hn]%elem_of_app.
        - apply (fresh_from_mono m); [lia|by apply Hpre].
        - apply elem_of_cons in Hn as [->|Hn]; [|by apply Hloc].
          rewrite Hnd. by apply fresh_from_id. }
    simpl. rewrite push_child_app_r.
    2:{ intros n Hn. by apply (Hpre n Hn m). }
    rewrite (push_child_head _ _ _ _ Hnd).
    rewrite <- !(app_assoc pre), <- (app_assoc pe). simpl.
    destruct (IH pre pe
                (set_children nd (gn_children nd ++ [node_id_string m1]))
                (loc ++ ts_nodes s) (le ++ ts_edges s) (ts_nodeId s))
      as (IH1 & IH2 & IH3).
    { lia. }
    { done. }
    { done. }
    { intros n [Hn|Hn]%elem_of_app.
      - apply (fresh_from_mono m1); [lia|by apply Hloc].
      - rewrite Hcnt. by apply ids_from_fresh. }
    rewrite IH1. simpl.
    split; [|split].
    + by rewrite <- !app_assoc.
    + apply ids_from_app; [done|]. by rewrite <- Hcnt.
    + rewrite IH3, Hcnt, length_app. lia.
Qed.

Lemma frame_ok_all (E : gset jsstring) (v : JSONValue) : frame_ok E v.
Proof.
  induction v as [v IH] using JSONValue_entries_ind.
  intros key p level m Hp.
  assert (∀ q, p = Some q → q ≠ node_id_string m) as Hp'.
  { intros q Hq. by apply (Hp q Hq m). }
  unfold subtree.
  rewrite (traverse_unfold E v key p level (mkTState [] [] m)). simpl.
  rewrite (emit_frame E v key p level [] [] m Hp').
  assert (register p (node_id_string m) [] = []) as Hreg.
  { unfold register. destruct p as [q|]; [|done]. by destruct (truthy_string q). }
  rewrite Hreg. simpl.
  destruct (hasChildren v && bool_decide (node_id_string m ∈ E)) eqn:Hc.
  - destruct (traverse_children_frame E m level (child_entries v) IH
                [] [] (new_node E (node_id_string m) key v p level) []
                (parent_edge p (node_id_string m)) (S m))
      as (H1 & H2 & H3); [lia|done|by intros n Hn%elem_of_nil..|].
    simpl in H1. rewrite H1. simpl.
    split; [|split].
    + unfold ids_from in *. simpl. f_equal. exact H2.
    + rewrite H3. lia.
    + intros pre pe Hpre.
      rewrite (traverse_unfold E v key p level (mkTState pre pe m)). simpl.
      rewrite Hc. f_equal.
      rewrite (emit_frame E v key p level pre pe m Hp').
      destruct (traverse_children_frame E m level (child_entries v) IH
                  (register p (node_id_string m) pre) pe
                  (new_node E (node_id_string m) key v p level) []
                  (parent_edge p (node_id_string m)) (S m))
        as (H1' & _); [lia|done| |by intros n Hn%elem_of_nil|].
      { intros n Hn. unfold register in Hn.
        destruct p as [q|]; [|by apply Hpre].
        destruct (truthy_string q); [|by apply Hpre].
        unfold push_child in Hn.
        destruct (list_find _ pre) as [[i x]|] eqn:Hfind; [|by apply Hpre].
        apply list_find_Some in Hfind as (Hi & _ & _).
        apply list_elem_of_lookup in Hn as [j Hj].
        destruct (decide (i = j)) as [->|Hne].
        - rewrite list_lookup_insert_eq in Hj by (by eapply lookup_lt_Some).
          injection Hj as <-. simpl.
          apply Hpre. by eapply list_elem_of_lookup_2.
        - rewrite list_lookup_insert_ne in Hj by done.
          apply Hpre. by eapply list_elem_of_lookup_2. }
      rewrite H1'. done.
  - simpl. split; [done|]. split; [lia|].
    intros pre pe Hpre.
    rewrite (traverse_unfold E v key p level (mkTState pre pe m)). simpl.
    rewrite Hc. f_equal.
    by rewrite (emit_frame E v key p level pre pe m Hp').
Qed.

(* ===================================================================== *)
(** ** The subtree produced by one call *)
(* ===================================================================== *)

Lemma subtree_ids (E : gset jsstring) (v : JSONValue) (key : jsstring)
    (p : option jsstring) (level m : nat) :
  (∀ q, p = Some q → fresh_from m q) →
  ids_from m (ts_nodes (subtree E v key p level m)) ∧
  ts_nodeId (subtree E v key p level m)
    = m + length (ts_nodes (subtree E v key p level m)).
Proof.
  intros Hp. destruct (frame_ok_all E v key p level m Hp) as (H1 & H2 & _).
  by split.
Qed.

(** The recursion equation of [subtree]: the node of the call, then the
    subtrees of its entries one after the other. *)
Lemma subtree_unfold (E : gset jsstring) (v : JSONValue) (key : jsstring)
    (p : option jsstring) (level m : nat) :
  (∀ q, p = Some q → fresh_from m q) →
  subtree E v key p level m =
    if hasChildren v && bool_decide (node_id_string m ∈ E) then
      mkTState
        (set_children (new_node E (node_id_string m) key v p level)
           (children_fold E (node_id_string m) level (child_entries v) (S m)).1
         :: ts_nodes
              (children_fold E (node_id_string m) level (child_entries v) (S m)).2)
        (parent_edge p (node_id_string m)
           ++ ts_edges
                (children_fold E (node_id_string m) level (child_entries v) (S m)).2)
        (ts_nodeId
           (children_fold E (node_id_string m) level (child_entries v) (S m)).2)
    else
      mkTState [new_node E (node_id_string m) key v p level]
               (parent_edge p (node_id_string m)) (S m).
Proof.
  intros Hp.
  assert (∀ q, p = Some q → q ≠ node_id_string m) as Hp'.
  { intros q Hq. by apply (Hp q Hq m). }
  unfold subtree.
  rewrite (traverse_unfold E v key p level (mkTState [] [] m)). simpl.
  rewrite (emit_frame E v key p level [] [] m Hp').
  assert (register p (node_id_string m) [] = []) as ->.
  { unfold register. destruct p as [q|]; [|done]. by destruct (truthy_string q). }
  simpl.
  destruct (hasChildren v && bool_decide (node_id_string m ∈ E)); [|done].
  destruct (traverse_children_frame E m level (child_entries v)
              (proj2 (Forall_forall _ _) (λ kv _, frame_ok_all E kv.2))
              [] [] (new_node E (node_id_string m) key v p level) []
              (parent_edge p (node_id_string m)) (S m))
    as (H1 & _); [lia|done|by intros n Hn%elem_of_nil..|].
  exact H1.
Qed.

Lemma children_fold_child_ids (E : gset jsstring) (i : jsstring) (level : nat)
    (l : list (jsstring * JSONValue)) (m1 : nat) :
  length (children_fold E i level l m1).1 = length l ∧
  head (children_fold E i level l m1).1
    = match l with [] => None | _ => Some (node_id_string m1) end.
Proof.
  revert m1. induction l as [|kv l IH]; intros m1; simpl; [done|].
  split; [|done]. f_equal. apply IH.
Qed.

Lemma parent_before_mono (m m1 : nat) (n : GraphNode) :
  m ≤ m1 → parent_before m1 n → parent_before m n.
Proof.
  intros Hle (a & b & Ha & Hb & Hp & Hi). exists a, b. split_and!; [lia|done..].
Qed.

Lemma children_fold_ok (E : gset jsstring) (m level : nat)
    (l : list (jsstring * JSONValue)) :
  Forall (λ kv, subtree_ok E kv.2) l →
  ∀ m1, m < m1 →
    Forall (node_ok E)
      (ts_nodes (children_fold E (node_id_string m) level l m1).2) ∧
    Forall (parent_before m)
      (ts_nodes (children_fold E (node_id_string m) level l m1).2) ∧
    ts_edges (children_fold E (node_id_string m) level l m1).2
      = edges_of (ts_nodes (children_fold E (node_id_string m) level l m1).2).
Proof.
  induction 1 as [|kv l Hkv _ IH]; intros m1 Hlt; simpl.
  - split_and!; by constructor.
  - destruct (Hkv kv.1 (Some (node_id_string m)) (S level) m1)
      as (H1 & H2 & H3 & _).
    { intros q [= <-]. by apply fresh_from_id. }
    destruct (subtree_ids E kv.2 kv.1 (Some (node_id_string m)) (S level) m1)
      as (_ & Hcnt).
    { intros q [= <-]. by apply fresh_from_id. }
    destruct (IH (ts_nodeId
                    (subtree E kv.2 kv.1 (Some (node_id_string m)) (S level) m1)))
      as (H4 & H5 & H6); [lia|].
    split_and!.
    + by apply Forall_app.
    + apply Forall_app. split; [|done].
      eapply Forall_impl; [exact H2|]. intros n [[Hid Hpar]|Hb].
      * exists m, m1. split_and!; [lia|done..].
      * apply (parent_before_mono m m1); [lia|done].
    + unfold edges_of in *. by rewrite bind_app, H3, H6.
Qed.

Lemma new_node_ok (E : gset jsstring) (i key : jsstring) (v : JSONValue)
    (p : option jsstring) (level m : nat) (c : list jsstring) :
  i = node_id_string m →
  length c = (if hasChildren v && bool_decide (i ∈ E)
              then length (child_entries v) else 0) →
  head c = (if hasChildren v && bool_decide (i ∈ E)
            then Some (node_id_string (S m)) else None) →
  node_ok E (set_children (new_node E i key v p level) c).
Proof.
  intros -> Hlen Hhd. unfold node_ok. simpl.
  split_and!; try done.
  intros k Hk. apply node_id_string_inj in Hk as <-. done.
Qed.

Lemma subtree_ok_all (E : gset jsstring) (v : JSONValue) : subtree_ok E v.
Proof.
  induction v as [v IH] using JSONValue_entries_ind.
  intros key p level m Hp.
  rewrite (subtree_unfold E v key p level m Hp).
  destruct (hasChildren v && bool_decide (node_id_string m ∈ E)) eqn:Hc; simpl.
  - destruct (children_fold_ok E m level (child_entries v) IH (S m))
      as (H1 & H2 & H3); [lia|].
    destruct (children_fold_child_ids E (node_id_string m) level
                (child_entries v) (S m)) as (H4 & H5).
    split_and!.
    + constructor; [|done].
      apply (new_node_ok E _ key v p level m); [done|by rewrite Hc|].
      rewrite Hc, H5.
      apply andb_true_iff in Hc as [Hc _].
      rewrite hasChildren_entries in Hc. apply Nat.ltb_lt in Hc.
      destruct (child_entries v); [simpl in Hc; lia|done].
    + constructor; [by left|].
      eapply Forall_impl; [exact H2|]. intros n Hn. by right.
    + unfold edges_of in *. simpl. by rewrite H3.
    + eauto.
  - split_and!.
    + constructor; [|done].
      rewrite <- (set_children_same (new_node _ _ _ _ _ _)).
      apply (new_node_ok E _ key v p level m); simpl; by rewrite ?Hc.
    + constructor; [by left|done].
    + unfold edges_of. simpl. by rewrite app_nil_r.
    + exists [], []. by rewrite <- (set_children_same (new_node _ _ _ _ _ _)) at 1.
Qed.

(* ===================================================================== *)
(** ** The groups of the layout pass *)
(* ===================================================================== *)

Lemma group_push_keys (level ref : nat) (groups : list (nat * list nat)) (l : nat) :
  l ∈ (group_push level ref groups).*1 ↔ l = level ∨ l ∈ groups.*1.
Proof.
  induction groups as [|[l0 g0] groups IH]; simpl.
  - rewrite list_elem_of_singleton, elem_of_nil. tauto.
  - repeat case_decide; simpl; rewrite ?elem_of_cons; simpl.
    + subst. tauto.
    + tauto.
    + rewrite IH. tauto.
Qed.

Lemma group_push_sorted (level ref : nat) (groups : list (nat * list nat)) :
  StronglySorted lt groups.*1 →
  StronglySorted lt (group_push level ref groups).*1.
Proof.
  induction groups as [|[l0 g0] groups IH]; simpl; intros Hs.
  - repeat constructor.
  - apply StronglySorted_inv in Hs as [Hs Hall]. simpl in *.
    repeat case_decide; simpl.
    + by constructor.
    + constructor; [by constructor|].
      constructor; [done|].
      eapply Forall_impl; [exact Hall|]. simpl. lia.
    + constructor; [by apply IH|].
      apply Forall_forall. intros l [->|Hl]%group_push_keys; [lia|].
      by eapply Forall_forall in Hall.
Qed.

Lemma group_push_elem (level ref : nat) (groups : list (nat * list nat))
    (l : nat) (g : list nat) :
  StronglySorted lt groups.*1 →
  (l, g) ∈ group_push level ref groups →
  (l ≠ level ∧ (l, g) ∈ groups) ∨
  (l = level ∧ ((∃ g0, (level, g0) ∈ groups ∧ g = g0 ++ [ref]) ∨
                ((level ∉ groups.*1) ∧ g = [ref]))).
Proof.
  induction groups as [|[l0 g0] groups IH]; simpl; intros Hs Hin.
  - apply list_elem_of_singleton in Hin. injection Hin as -> ->.
    right. split; [done|]. right. split; [apply not_elem_of_nil|done].
  - apply StronglySorted_inv in Hs as [Hs Hall]. simpl in *.
    assert (∀ k h, (k, h) ∈ groups → l0 < k) as Hgt.
    { intros k h Hk. eapply Forall_forall in Hall; [exact Hall|].
      apply list_elem_of_fmap. by exists (k, h). }
    repeat case_decide.
    + subst l0. apply elem_of_cons in Hin as [Hin|Hin].
      * injection Hin as -> ->. right. split; [done|]. left.
        exists g0. split; [by left|done].
      * left. split; [|by right]. apply Hgt in Hin. lia.
    + apply elem_of_cons in Hin as [Hin|Hin].
      * injection Hin as -> ->. right. split; [done|]. right. split; [|done].
        intros [Heq|Hk]%elem_of_cons; [done|].
        eapply Forall_forall in Hall; [|exact Hk]. lia.
      * left. split; [|done].
        apply elem_of_cons in Hin as [Hin|Hin]; [injection Hin as -> ->; lia|].
        apply Hgt in Hin. lia.
    + apply elem_of_cons in Hin as [Hin|Hin].
      * injection Hin as -> ->. left. split; [done|by left].
      * destruct (IH Hs Hin) as [[Hne Hl]|[-> [(h & Hh & ->)|[Hnot ->]]]].
        -- left. split; [done|by right].
        -- right. split; [done|]. left. exists h. split; [by right|done].
        -- right. split; [done|]. right. split; [|done].
           intros [Heq|Hk]%elem_of_cons; done.
Qed.

Lemma filter_ext_elem {A} (P1 P2 : A → Prop)
    `{!∀ x, Decision (P1 x), !∀ x, Decision (P2 x)} (l : list A) :
  (∀ x, x ∈ l → P1 x ↔ P2 x) → filter P1 l = filter P2 l.
Proof.
  induction l as [|a l IH]; intros Hiff; [done|].
  rewrite !filter_cons.
  rewrite IH by (intros x Hx; apply Hiff; by right).
  destruct (decide (P1 a)) as [H1|H1], (decide (P2 a)) as [H2|H2]; try done.
  - exfalso. apply H2, Hiff; [by left|done].
  - exfalso. apply H1, Hiff; [by left|done].
Qed.

Lemma levelGroups_of_snoc (ns : list GraphNode) (n : GraphNode) :
  levelGroups_of (ns ++ [n])
    = group_push (gn_level n) (length ns) (levelGroups_of ns).
Proof.
  unfold levelGroups_of. rewrite imap_app, fold_left_app. simpl.
  by rewrite Nat.add_0_r.
Qed.

Lemma level_members_snoc (ns : list GraphNode) (n : GraphNode) (l : nat) :
  level_members (ns ++ [n]) l
    = level_members ns l ++ (if decide (gn_level n = l) then [length ns] else []).
Proof.
  unfold level_members.
  rewrite length_app. simpl. rewrite seq_app, filter_app. simpl. f_equal.
  - apply filter_ext_elem. intros i Hi.
    apply elem_of_seq in Hi. rewrite lookup_app_l by lia. done.
  - rewrite filter_cons, filter_nil.
    rewrite lookup_app_r by lia. rewrite Nat.sub_diag. simpl.
    repeat case_decide; try done; naive_solver.
Qed.

Lemma level_members_none (ns : list GraphNode) (l : nat) :
  (∀ n, n ∈ ns → gn_level n ≠ l) → level_members ns l = [].
Proof.
  intros Hns. apply elem_of_nil_inv. intros i Hi.
  apply list_elem_of_filter in Hi as [Hi _].
  destruct (ns !! i) as [n|] eqn:Hn; [|done].
  injection Hi as Hi. apply (Hns n); [|done]. by eapply list_elem_of_lookup_2.
Qed.

Lemma levelGroups_of_ok (ns : list GraphNode) : groups_ok ns (levelGroups_of ns).
Proof.
  induction ns as [|n ns IH] using rev_ind.
  - split_and!; [constructor| |].
    + intros l g Hin. by apply elem_of_nil in Hin.
    + intros n Hn. by apply elem_of_nil in Hn.
  - destruct IH as (Hs & Hmem & Hcov).
    rewrite levelGroups_of_snoc. split_and!.
    + by apply group_push_sorted.
    + intros l g Hin. rewrite level_members_snoc.
      apply group_push_elem in Hin as [[Hne Hl]|[-> H]]; [| |done].
      * rewrite decide_False by done. rewrite app_nil_r. by apply Hmem.
      * rewrite decide_True by done.
        destruct H as [(g0 & Hg0 & ->)|[Hnot ->]].
        -- f_equal. by apply Hmem.
        -- rewrite level_members_none; [done|].
           intros n' Hn' Heq. apply Hnot. rewrite <- Heq. by apply Hcov.
    + intros n' [Hn'|Hn']%elem_of_app; apply group_push_keys.
      * right. by apply Hcov.
      * apply list_elem_of_singleton in Hn' as ->. by left.
Qed.

Lemma level_members_lookup (ns : list GraphNode) (l i : nat) :
  i ∈ level_members ns l ↔ ∃ n, ns !! i = Some n ∧ gn_level n = l.
Proof.
  unfold level_members. rewrite list_elem_of_filter, elem_of_seq.
  split.
  - intros [Hl _]. destruct (ns !! i) as [n|]; [|done].
    injection Hl as Hl. by exists n.
  - intros (n & Hn & Hl). rewrite Hn. simpl. split; [by rewrite Hl|].
    apply lookup_lt_Some in Hn. lia.
Qed.

(** Two nodes of a level with no node of that level between them are
    neighbours in the group of the level. *)
Lemma level_members_adjacent (ns : list GraphNode) (l i j : nat) :
  i < j →
  i ∈ level_members ns l → j ∈ level_members ns l →
  (∀ k, i < k → k < j → k ∉ level_members ns l) →
  ∃ A B, level_members ns l = A ++ i :: j :: B.
Proof.
  intros Hij Hi Hj Hbetween.
  assert (j < length ns) as Hjlen.
  { apply level_members_lookup in Hj as (n & Hn & _). by eapply lookup_lt_Some. }
  apply list_elem_of_filter in Hi as [Hi _].
  pose proof Hj as Hj'. apply list_elem_of_filter in Hj' as [Hj' _].
  unfold level_members in *.
  replace (length ns) with (i + (1 + ((j - i - 1) + (1 + (length ns - j - 1)))))
    by lia.
  rewrite !seq_app, !filter_app. simpl.
  rewrite !filter_cons, !filter_nil.
  replace (i + 1 + (j - i - 1)) with j by lia.
  rewrite (decide_True _ _ Hi), (decide_True _ _ Hj').
  assert (filter (λ i0, gn_level <$> ns !! i0 = Some l) (seq (i + 1) (j - i - 1)) = [])
    as ->.
  { apply elem_of_nil_inv. intros k Hk.
    apply list_elem_of_filter in Hk as [Hk Hin]. apply elem_of_seq in Hin.
    apply (Hbetween k); [lia..|].
    apply list_elem_of_filter. split; [done|]. apply elem_of_seq. lia. }
  simpl. eauto.
Qed.

(* ===================================================================== *)
(** ** The order of placement *)
(* ===================================================================== *)

Lemma place_level_flat (groups : list (nat * list nat)) (s : list GraphNode * Z) :
  fold_left place_level groups s
    = fold_left place_entry (flatten_groups groups) s.
Proof.
  unfold flatten_groups. revert s.
  induction groups as [|[l g] groups IH]; intros s; simpl; [done|].
  rewrite fold_left_app, <- IH. f_equal.
  unfold place_level. simpl. generalize s.
  induction g as [|i g IHg]; intros s'; simpl; [done|]. by rewrite IHg.
Qed.

Lemma flatten_groups_elem (groups : list (nat * list nat)) (l i : nat) :
  (l, i) ∈ flatten_groups groups ↔ ∃ g, (l, g) ∈ groups ∧ i ∈ g.
Proof.
  unfold flatten_groups. rewrite list_elem_of_bind. split.
  - intros ([l0 g] & Hin & Hg). simpl in Hin.
    apply list_elem_of_fmap in Hin as (i0 & Heq & Hi0).
    injection Heq as -> ->. by exists g.
  - intros (g & Hg & Hi). exists (l, g). split; [|done].
    simpl. apply list_elem_of_fmap. by exists i.
Qed.

Lemma flatten_groups_NoDup (ns : list GraphNode) (groups : list (nat * list nat)) :
  groups_ok ns groups → NoDup (flatten_groups groups).*2.
Proof.
  intros (Hs & Hmem & _).
  assert (∀ l i, (l, i) ∈ flatten_groups groups → i ∈ level_members ns l) as Hlev.
  { intros l i (g & Hg & Hi)%flatten_groups_elem. by rewrite <- (Hmem l g Hg). }
  apply NoDup_fmap_2_strong.
  - intros [l1 i1] [l2 i2] H1 H2. simpl. intros <-. f_equal.
    apply Hlev, level_members_lookup in H1 as (n1 & Hn1 & <-).
    apply Hlev, level_members_lookup in H2 as (n2 & Hn2 & <-).
    congruence.
  - unfold flatten_groups. apply NoDup_bind.
    + intros [l1 g1] [l2 g2] [l i] H1 H2. simpl.
      intros (i1 & Heq1 & Hi1)%list_elem_of_fmap (i2 & Heq2 & Hi2)%list_elem_of_fmap.
      injection Heq1 as -> ->. injection Heq2 as -> ->.
      by rewrite (Hmem _ _ H1), (Hmem _ _ H2).
    + intros [l g] Hg. simpl. apply NoDup_fmap_2; [by intros ?? [=]|].
      rewrite (Hmem l g Hg). apply NoDup_filter, NoDup_seq.
    + eapply NoDup_fmap_1 with (f := fst).
      clear Hmem Hlev. induction Hs as [|k ks Hks IH Hall]; [constructor|].
      constructor; [|done].
      intros Hk. eapply Forall_forall in Hall; [|exact Hk]. lia.
Qed.

(* ===================================================================== *)
(** ** Placing the nodes *)
(* ===================================================================== *)

Lemma erase_position_eq (n n' : GraphNode) :
  erase_position n = erase_position n' →
  n' = set_position n (gn_x n') (gn_y n').
Proof. destruct n, n'. unfold erase_position. simpl. by intros [= -> -> -> -> -> -> -> -> -> ->]. Qed.

Lemma place_entry_at (s : list GraphNode * Z) (lr : nat * nat) (n : GraphNode) :
  s.1 !! lr.2 = Some n →
  place_entry s lr
    = (<[lr.2 := set_position n (Z.of_nat lr.1 * levelWidth + 50) s.2]> s.1,
       (s.2 + (gn_height n + 30))%Z).
Proof. intros Hn. unfold place_entry, place. by rewrite Hn. Qed.

Lemma place_entry_other (s : list GraphNode * Z) (lr : nat * nat) (i : nat) :
  i ≠ lr.2 → (place_entry s lr).1 !! i = s.1 !! i.
Proof.
  intros Hne. unfold place_entry, place.
  destruct (s.1 !! lr.2); [|done]. simpl. by rewrite list_lookup_insert_ne.
Qed.

Lemma place_entry_erase (s : list GraphNode * Z) (lr : nat * nat) :
  erase_position <$> (place_entry s lr).1 = erase_position <$> s.1.
Proof.
  unfold place_entry, place.
  destruct (s.1 !! lr.2) as [n|] eqn:Hn; [|done]. simpl.
  rewrite list_fmap_insert. apply list_insert_id.
  by rewrite list_lookup_fmap, Hn.
Qed.

Lemma fold_place_erase (o : list (nat * nat)) (s : list GraphNode * Z) :
  erase_position <$> (fold_left place_entry o s).1 = erase_position <$> s.1.
Proof.
  revert s. induction o as [|lr o IH]; intros s; simpl; [done|].
  by rewrite IH, place_entry_erase.
Qed.

Lemma fold_place_other (o : list (nat * nat)) (s : list GraphNode * Z) (i : nat) :
  i ∉ o.*2 → (fold_left place_entry o s).1 !! i = s.1 !! i.
Proof.
  revert s. induction o as [|lr o IH]; intros s Hi; simpl; [done|].
  rewrite fmap_cons in Hi. apply not_elem_of_cons in Hi as [Hne Hi].
  by rewrite IH, place_entry_other.
Qed.

(** The reference [a.2], reached once, is placed at the cursor left by the
    references before it. *)
Lemma fold_place_single (o1 o2 : list (nat * nat)) (a : nat * nat)
    (s : list GraphNode * Z) (na : GraphNode) :
  NoDup (o1 ++ a :: o2).*2 →
  s.1 !! a.2 = Some na →
  (fold_left place_entry (o1 ++ a :: o2) s).1 !! a.2
    = Some (set_position na (Z.of_nat a.1 * levelWidth + 50)
              (fold_left place_entry o1 s).2)
  ∧ (fold_left place_entry (o1 ++ [a]) s).2
    = ((fold_left place_entry o1 s).2 + (gn_height na + 30))%Z.
Proof.
  intros Hnd Hna.
  rewrite fmap_app, fmap_cons in Hnd.
  apply NoDup_app in Hnd as (_ & Hdisj & Hnd2).
  apply NoDup_cons in Hnd2 as [Hnot2 _].
  assert (a.2 ∉ o1.*2) as Hnot1.
  { intros Hin. apply (Hdisj _ Hin). by left. }
  assert ((fold_left place_entry o1 s).1 !! a.2 = Some na) as Hat.
  { by rewrite fold_place_other. }
  rewrite !fold_left_app. simpl.
  rewrite fold_place_other by done.
  rewrite (place_entry_at _ _ _ Hat). simpl. split; [|done].
  apply list_lookup_insert_eq. by eapply lookup_lt_Some.
Qed.

Lemma positionNodes_flat (ns : list GraphNode) :
  positionNodes ns
    = (fold_left place_entry (flatten_groups (levelGroups_of ns)) (ns, 50%Z)).1.
Proof. unfold positionNodes. by rewrite place_level_flat. Qed.

(** The layout pass changes nothing but the positions. *)
Lemma positionNodes_erase (ns : list GraphNode) :
  erase_position <$> positionNodes ns = erase_position <$> ns.
Proof. rewrite positionNodes_flat. apply fold_place_erase. Qed.

Lemma positionNodes_length (ns : list GraphNode) :
  length (positionNodes ns) = length ns.
Proof.
  rewrite <- (length_fmap erase_position), positionNodes_erase.
  apply length_fmap.
Qed.

Lemma positionNodes_lookup (ns : list GraphNode) (i : nat) (n' : GraphNode) :
  positionNodes ns !! i = Some n' →
  ∃ n, ns !! i = Some n ∧ n' = set_position n (gn_x n') (gn_y n').
Proof.
  intros Hn'.
  assert ((erase_position <$> ns) !! i = Some (erase_position n')) as H.
  { by rewrite <- positionNodes_erase, list_lookup_fmap, Hn'. }
  rewrite list_lookup_fmap in H.
  destruct (ns !! i) as [n|]; simpl in H; [|done].
  exists n. split; [done|]. apply erase_position_eq. congruence.
Qed.

Lemma flatten_groups_member (ns : list GraphNode) (i : nat) (n : GraphNode) :
  ns !! i = Some n →
  ∃ g, (gn_level n, g) ∈ levelGroups_of ns ∧ g = level_members ns (gn_level n)
       ∧ i ∈ g.
Proof.
  intros Hn. destruct (levelGroups_of_ok ns) as (_ & Hmem & Hcov).
  assert (gn_level n ∈ (levelGroups_of ns).*1) as Hk.
  { apply Hcov. by eapply list_elem_of_lookup_2. }
  apply list_elem_of_fmap in Hk as ([l g] & Hl & Hg). simpl in Hl. subst l.
  exists g. split; [done|]. split; [by apply Hmem|].
  rewrite (Hmem _ _ Hg). apply level_members_lookup. by exists n.
Qed.

(** Every node gets the x of its level. *)
Lemma positionNodes_x (ns : list GraphNode) (i : nat) (n : GraphNode) :
  ns !! i = Some n →
  ∃ y, positionNodes ns !! i
         = Some (set_position n (Z.of_nat (gn_level n) * levelWidth + 50) y).
Proof.
  intros Hn.
  destruct (flatten_groups_member ns i n Hn) as (g & Hg & _ & Hi).
  assert ((gn_level n, i) ∈ flatten_groups (levelGroups_of ns)) as Hin.
  { apply flatten_groups_elem. by exists g. }
  apply list_elem_of_split in Hin as (o1 & o2 & Ho).
  pose proof (flatten_groups_NoDup ns _ (levelGroups_of_ok ns)) as Hnd.
  rewrite positionNodes_flat, Ho. rewrite Ho in Hnd.
  destruct (fold_place_single o1 o2 (gn_level n, i) (ns, 50%Z) n Hnd Hn)
    as [H _].
  eauto.
Qed.

(** Two nodes of a level with no node of that level between them: the
    second is placed [height + 30] below the first. *)
Lemma positionNodes_y_next (ns : list GraphNode) (i j : nat) (ni nj : GraphNode) :
  ns !! i = Some ni → ns !! j = Some nj →
  i < j → gn_level ni = gn_level nj →
  (∀ k nk, i < k → k < j → ns !! k = Some nk → gn_level nk ≠ gn_level ni) →
  ∃ xi xj y,
    positionNodes ns !! i = Some (set_position ni xi y) ∧
    positionNodes ns !! j
      = Some (set_position nj xj (y + (gn_height ni + 30))).
Proof.
  intros Hni Hnj Hij Hlev Hbetween.
  destruct (flatten_groups_member ns i ni Hni) as (g & Hg & Hgeq & Hi).
  assert (j ∈ level_members ns (gn_level ni)) as Hj.
  { apply level_members_lookup. by exists nj. }
  rewrite Hgeq in Hi.
  destruct (level_members_adjacent ns (gn_level ni) i j Hij Hi Hj)
    as (A & B & HAB).
  { intros k Hik Hkj (nk & Hnk & Hl)%level_members_lookup.
    by apply (Hbetween k nk). }
  apply list_elem_of_split in Hg as (G1 & G2 & HG).
  pose proof (flatten_groups_NoDup ns _ (levelGroups_of_ok ns)) as Hnd.
  rewrite positionNodes_flat.
  assert (flatten_groups (levelGroups_of ns)
          = (flatten_groups G1 ++ (pair (gn_level ni) <$> A))
              ++ (gn_level ni, i)
              :: (gn_level ni, j)
              :: ((pair (gn_level ni) <$> B) ++ flatten_groups G2)) as Ho.
  { rewrite HG. unfold flatten_groups. rewrite bind_app, bind_cons. simpl.
    rewrite Hgeq, HAB, fmap_app. simpl. by rewrite <- !app_assoc. }
  rewrite Ho in Hnd. rewrite Ho.
  set (o1 := flatten_groups G1 ++ (pair (gn_level ni) <$> A)) in *.
  set (o2 := (pair (gn_level ni) <$> B) ++ flatten_groups G2) in *.
  destruct (fold_place_single o1 ((gn_level ni, j) :: o2) (gn_level ni, i)
              (ns, 50%Z) ni Hnd Hni) as [Hi1 Hi2].
  assert (o1 ++ (gn_level ni, i) :: (gn_level ni, j) :: o2
          = (o1 ++ [(gn_level ni, i)]) ++ (gn_level ni, j) :: o2) as Hre.
  { by rewrite <- app_assoc. }
  rewrite Hre in Hnd.
  destruct (fold_place_single (o1 ++ [(gn_level ni, i)]) o2 (gn_level ni, j)
              (ns, 50%Z) nj Hnd Hnj) as [Hj1 _].
  rewrite Hi2 in Hj1. rewrite <- Hre in Hj1.
  eauto.
Qed.

(** The first node, at level 0, is placed first: at the initial cursor. *)
Lemma positionNodes_first (ns : list GraphNode) (n : GraphNode) :
  ns !! 0 = Some n → gn_level n = 0 →
  positionNodes ns !! 0 = Some (set_position n 50 50).
Proof.
  intros Hn Hlev.
  destruct (flatten_groups_member ns 0 n Hn) as (g & Hg & Hgeq & _).
  destruct (levelGroups_of_ok ns) as (Hs & _ & _).
  pose proof (flatten_groups_NoDup ns _ (levelGroups_of_ok ns)) as Hnd.
  rewrite positionNodes_flat.
  rewrite Hlev in *.
  destruct (levelGroups_of ns) as [|[k g0] G2]; [by apply elem_of_nil in Hg|].
  assert ((k, g0) = (0, g)) as Hhd.
  { apply elem_of_cons in Hg as [Hg|Hg]; [done|].
    apply StronglySorted_inv in Hs as [_ Hall]. simpl in Hall.
    eapply Forall_forall in Hall; [|apply list_elem_of_fmap; by exists (0, g)].
    simpl in Hall. lia. }
  injection Hhd as -> ->.
  assert (∃ g', g = 0 :: g') as [g' Hg'].
  { rewrite Hgeq. unfold level_members.
    destruct ns as [|n0 ns']; [done|]. simpl in Hn. injection Hn as ->.
    simpl. rewrite filter_cons_True by (simpl; by rewrite Hlev). eauto. }
  subst g. unfold flatten_groups in *. rewrite bind_cons in *.
  rewrite Hg' in *. simpl in *.
  destruct (fold_place_single [] _ (0, 0) (ns, 50%Z) n Hnd Hn) as [H _].
  simpl in H. by rewrite H.
Qed.

(* ===================================================================== *)
(** ** The built graph *)
(* ===================================================================== *)

Lemma build_eq (E : gset jsstring) (D : JSONValue) :
  build E D = mkGraph (positionNodes (ts_nodes (document_tree E D)))
                      (ts_edges (document_tree E D)).
Proof. reflexivity. Qed.

(** With a non-blank text that parses, [createGraph] is [build]. *)
Lemma createGraph_parsed (JSON_parse : jsstring → option JSONValue)
    (E : gset jsstring) (jsonInput : jsstring) (D : JSONValue) :
  truthy_string (trim jsonInput) = true →
  JSON_parse jsonInput = Some D →
  createGraph JSON_parse E jsonInput = build E D.
Proof. intros Ht Hp. unfold createGraph. by rewrite Ht, Hp. Qed.

Lemma root_fresh (m : nat) : ∀ q : jsstring, None = Some q → fresh_from m q.
Proof. intros q [=]. Qed.

Lemma hasChildren_nonempty (v : JSONValue) :
  hasChildren v = true ↔ nonempty_container v.
Proof.
  destruct v as [| | | |[|x items]|[|kv props]]; unfold hasChildren; simpl;
    split; intros H; done.
Qed.

(** Every node of the built graph is a node of the traversal, placed. *)
Lemma build_nodes_lookup (E : gset jsstring) (D : JSONValue) (i : nat)
    (n' : GraphNode) :
  nodes (build E D) !! i = Some n' →
  ∃ n, ts_nodes (document_tree E D) !! i = Some n ∧ node_ok E n ∧
       n' = set_position n (gn_x n') (gn_y n').
Proof.
  rewrite build_eq. simpl. intros (n & Hn & Heq)%positionNodes_lookup.
  exists n. split_and!; [done| |done].
  destruct (subtree_ok_all E D (js "root") None 0 0 (root_fresh 0)) as (Hok & _).
  eapply Forall_forall in Hok; [exact Hok|]. by eapply list_elem_of_lookup_2.
Qed.

Lemma build_nodes_elem (E : gset jsstring) (D : JSONValue) (n' : GraphNode) :
  n' ∈ nodes (build E D) →
  ∃ n, n ∈ ts_nodes (document_tree E D) ∧ node_ok E n ∧
       n' = set_position n (gn_x n') (gn_y n').
Proof.
  intros [i Hi]%list_elem_of_lookup.
  destruct (build_nodes_lookup E D i n' Hi) as (n & Hn & Hok & Heq).
  exists n. split_and!; [by eapply list_elem_of_lookup_2|done..].
Qed.

Lemma build_ids (E : gset jsstring) (D : JSONValue) :
  gn_id <$> nodes (build E D)
    = node_id_string <$> seq 0 (length (nodes (build E D))).
Proof.
  rewrite build_eq. simpl.
  destruct (subtree_ids E D (js "root") None 0 0 (root_fresh 0)) as [Hids _].
  rewrite positionNodes_length.
  transitivity (gn_id <$> (erase_position <$> positionNodes (ts_nodes (document_tree E D)))).
  { rewrite <- list_fmap_compose. by apply list_fmap_ext. }
  rewrite positionNodes_erase, <- list_fmap_compose.
  etransitivity; [|exact Hids]. by apply list_fmap_ext.
Qed.

Lemma build_ids_NoDup (E : gset jsstring) (D : JSONValue) :
  NoDup (gn_id <$> nodes (build E D)).
Proof.
  rewrite build_ids. apply NoDup_fmap_2; [|apply NoDup_seq].
  intros a b. apply node_id_string_inj.
Qed.

(** The first node is the root of the document. *)
Lemma build_root (E : gset jsstring) (D : JSONValue) :
  ∃ c rest,
    nodes (build E D)
      = set_position
          (set_children (new_node E (js "node-0") (js "root") D None 0) c) 50 50
        :: rest.
Proof.
  destruct (subtree_ok_all E D (js "root") None 0 0 (root_fresh 0))
    as (_ & _ & _ & c & rest & Hns).
  rewrite build_eq. simpl. fold (document_tree E D) in Hns.
  pose proof (positionNodes_first (ts_nodes (document_tree E D))
                (set_children (new_node E (js "node-0") (js "root") D None 0) c))
    as Hfirst.
  rewrite Hns in Hfirst. specialize (Hfirst eq_refl eq_refl).
  rewrite <- Hns in Hfirst.
  destruct (positionNodes (ts_nodes (document_tree E D))) as [|r rest'];
    [done|].
  simpl in Hfirst. injection Hfirst as ->. eauto.
Qed.

Lemma edges_of_parent_before (m : nat) (ns : list GraphNode) :
  Forall (parent_before m) ns → ge_to <$> edges_of ns = gn_id <$> ns.
Proof.
  unfold edges_of. induction 1 as [|n ns (a & b & _ & _ & Hp & _) _ IH]; [done|].
  rewrite bind_cons, fmap_app, IH. rewrite Hp. simpl. done.
Qed.

(** The edges end in the nodes after the root, one each, in order. *)
Lemma build_edge_targets (E : gset jsstring) (D : JSONValue) :
  ge_to <$> edges (build E D) = tail (gn_id <$> nodes (build E D)).
Proof.
  pose proof (build_ids E D) as Hids.
  rewrite build_eq in *. simpl in *.
  rewrite positionNodes_length in Hids.
  destruct (subtree_ok_all E D (js "root") None 0 0 (root_fresh 0))
    as (_ & Hpar & Hedges & c & rest & Hns).
  destruct (subtree_ids E D (js "root") None 0 0 (root_fresh 0)) as [Hids0 _].
  fold (document_tree E D) in *.
  rewrite Hedges.
  assert (gn_id <$> positionNodes (ts_nodes (document_tree E D))
          = gn_id <$> ts_nodes (document_tree E D)) as ->.
  { rewrite Hids. symmetry. exact Hids0. }
  rewrite Hns in *. unfold edges_of. rewrite bind_cons. simpl.
  apply Forall_cons in Hpar as [_ Hrest].
  apply edges_of_parent_before with (m := 0).
  unfold ids_from in Hids0. cbn [length seq] in Hids0.
  rewrite !fmap_cons in Hids0. injection Hids0 as Hrest_ids.
  apply Forall_forall. intros n Hn.
  eapply Forall_forall in Hrest; [|exact Hn].
  destruct Hrest as [[Hid _]|Hb]; [|done].
  exfalso.
  assert (gn_id n ∈ gn_id <$> rest) as Hin by (by apply list_elem_of_fmap_2).
  rewrite Hrest_ids in Hin.
  apply list_elem_of_fmap in Hin as (k & Hk & Hkin). apply elem_of_seq in Hkin.
  rewrite Hid in Hk. apply node_id_string_inj in Hk. lia.
Qed.

Lemma count_targets (es : list GraphEdge) (x : jsstring) :
  NoDup (ge_to <$> es) →
  length (filter (λ e, ge_to e = x) es)
    = if decide (x ∈ ge_to <$> es) then 1 else 0.
Proof.
  induction es as [|e es IH]; intros Hnd; [done|].
  rewrite fmap_cons in Hnd. apply NoDup_cons in Hnd as [Hnot Hnd].
  rewrite filter_cons, fmap_cons.
  destruct (decide (ge_to e = x)) as [Heq|Hne]; simpl.
  - rewrite IH by done. subst x.
    rewrite decide_False by done. rewrite decide_True by (by left). done.
  - rewrite IH by done.
    destruct (decide (x ∈ ge_to <$> es)) as [Hin|Hnin].
    + rewrite decide_True by (by right). done.
    + rewrite decide_False; [done|].
      intros [Heq|Hin]%elem_of_cons; [by apply Hne|by apply Hnin].
Qed.

(* ===================================================================== *)
(** ** The graph model: tree shape, children, heights, ids *)
(* ===================================================================== *)


Lemma build_isExpanded (E : gset jsstring) (D : JSONValue) :
  Forall (λ n, gn_isExpanded n = bool_decide (gn_id n ∈ E))
         (nodes (build E D)).
Proof.
  apply Forall_forall. intros n' Hn'.
  destruct (build_nodes_elem E D n' Hn') as (n & _ & Hok & ->). simpl.
  by destruct Hok as (_ & _ & _ & _ & Hexp & _).
Qed.

Lemma build_children_length (E : gset jsstring) (D : JSONValue) :
  Forall (λ n, length (gn_children n)
               = (if hasChildren (gn_value n) && gn_isExpanded n
                  then length (child_entries (gn_value n)) else 0))
         (nodes (build E D)).
Proof.
  apply Forall_forall. intros n' Hn'.
  destruct (build_nodes_elem E D n' Hn') as (n & _ & Hok & ->). simpl.
  by destruct Hok as (_ & _ & _ & _ & _ & _ & Hlen & _).
Qed.

(** C1.  For every parsed document [D] and expansion set [E] the built
    graph has a node, and [nodes.length = edges.length + 1]: its first
    node, the root, has no incoming edge, and every other node has exactly
    one incoming edge. *)
Theorem C1_tree_property (E : gset jsstring) (D : JSONValue) :
  length (nodes (build E D)) = length (edges (build E D)) + 1 ∧
  ∃ root rest,
    nodes (build E D) = root :: rest ∧
    incoming (build E D) (gn_id root) = 0 ∧
    Forall (λ n, incoming (build E D) (gn_id n) = 1) rest.
Proof.
  pose proof (build_edge_targets E D) as Hto.
  pose proof (build_ids_NoDup E D) as Hnd.
  destruct (build_root E D) as (c & rest & Hns).
  rewrite Hns in Hto, Hnd. rewrite fmap_cons in Hto, Hnd. cbn [tail] in Hto.
  apply NoDup_cons in Hnd as [Hroot Hnd].
  split.
  - rewrite Hns. cbn [length].
    rewrite <- (length_fmap ge_to (edges _)), Hto, length_fmap. lia.
  - eexists _, rest. split; [exact Hns|]. unfold incoming.
    split.
    + rewrite count_targets by (by rewrite Hto).
      rewrite Hto. by rewrite decide_False.
    + apply Forall_forall. intros n Hn.
      rewrite count_targets by (by rewrite Hto).
      rewrite Hto. rewrite decide_True; [done|].
      by apply list_elem_of_fmap_2.
Qed.

(** C2.  A node of the built graph has [children.length > 0] exactly
    when its value is a non-empty object or a non-empty array and its id
    is in the expansion set. *)
Theorem C2_children_iff (E : gset jsstring) (D : JSONValue) :
  Forall (λ n, 0 < length (gn_children n)
               ↔ nonempty_container (gn_value n) ∧ gn_id n ∈ E)
         (nodes (build E D)).
Proof.
  apply Forall_forall. intros n' Hn'.
  destruct (build_nodes_elem E D n' Hn') as (n & _ & Hok & ->). simpl.
  destruct Hok as (_ & _ & _ & _ & Hexp & _ & Hlen & _).
  rewrite Hlen, Hexp, <- hasChildren_nonempty.
  destruct (hasChildren (gn_value n)) eqn:Hc; simpl.
  - rewrite hasChildren_entries in Hc. apply Nat.ltb_lt in Hc.
    case_bool_decide; simpl; [tauto|]. split; [lia|tauto].
  - split; [lia|]. intros [? _]. done.
Qed.

(** C4.  With the empty expansion set the built graph is the root node
    alone, collapsed, and has no edge. *)
Theorem C4_collapse_all (D : JSONValue) :
  nodes (build collapseAllNodes D)
    = [set_position (new_node ∅ (js "node-0") (js "root") D None 0) 50 50] ∧
  edges (build collapseAllNodes D) = [].
Proof.
  unfold collapseAllNodes.
  assert (document_tree ∅ D
          = mkTState [new_node ∅ (node_id_string 0) (js "root") D None 0] [] 1)
    as Htree.
  { unfold document_tree.
    rewrite subtree_unfold by apply root_fresh.
    rewrite (bool_decide_eq_false_2 (node_id_string 0 ∈ (∅ : gset jsstring)))
      by apply not_elem_of_empty.
    by rewrite andb_false_r. }
  rewrite build_eq, Htree. cbn [nodes edges ts_nodes ts_edges].
  split; [|done].
  pose proof (positionNodes_first
                [new_node ∅ (node_id_string 0) (js "root") D None 0]
                _ eq_refl eq_refl) as Hfirst.
  pose proof (positionNodes_length
                [new_node ∅ (node_id_string 0) (js "root") D None 0]) as Hlen.
  destruct (positionNodes _) as [|r [|r' l]]; simpl in Hfirst, Hlen; try done.
  by injection Hfirst as ->.
Qed.

(** C6.  The height of a node is the base height 100, plus, exactly when
    the node is expanded and has children, [min (childCount * 25) 150];
    the count is that of the entries of its value. *)
Theorem C6_height (E : gset jsstring) (D : JSONValue) :
  Forall (λ n,
      gn_height n
        = (100 + (if gn_isExpanded n && (0 <? length (gn_children n))%nat
                  then Z.min (Z.of_nat (length (gn_children n)) * 25) 150
                  else 0))%Z
      ∧ length (gn_children n)
        = (if gn_isExpanded n && hasChildren (gn_value n)
           then length (child_entries (gn_value n)) else 0))
    (nodes (build E D)).
Proof.
  apply Forall_forall. intros n' Hn'.
  destruct (build_nodes_elem E D n' Hn') as (n & _ & Hok & ->). simpl.
  destruct Hok as (_ & _ & _ & _ & _ & Hh & Hlen & _).
  rewrite Hh, Hlen. unfold extraHeight.
  rewrite (andb_comm (gn_isExpanded n)).
  destruct (hasChildren (gn_value n)) eqn:Hc; simpl; [|by rewrite andb_false_r].
  destruct (gn_isExpanded n); simpl; [|done].
  rewrite hasChildren_entries in Hc. rewrite Hc.
  by rewrite preview_keys_length.
Qed.

(** C9.  The [isExpanded] flag of every node of the built graph is the
    membership of its id in the expansion set. *)
Theorem C9_expanded_mirrors (E : gset jsstring) (D : JSONValue) :
  Forall (λ n, gn_isExpanded n = bool_decide (gn_id n ∈ E))
         (nodes (build E D)).
Proof.
  apply Forall_forall. intros n' [i Hi]%list_elem_of_lookup.
  destruct (build_nodes_lookup E D i n' Hi) as (n & _ & Hok & ->).
  cbn [set_position gn_isExpanded gn_id].
  unfold node_ok in Hok. tauto.
Qed.

Lemma document_tree_shape (E : gset jsstring) (D : JSONValue) :
  ∃ c rest,
    ts_nodes (document_tree E D)
      = set_children (new_node E (js "node-0") (js "root") D None 0) c :: rest ∧
    Forall (parent_before 0) rest ∧
    ts_edges (document_tree E D) = edges_of rest.
Proof.
  destruct (subtree_ok_all E D (js "root") None 0 0 (root_fresh 0))
    as (_ & Hpar & Hedges & c & rest & Hns).
  destruct (subtree_ids E D (js "root") None 0 0 (root_fresh 0)) as [Hids0 _].
  fold (document_tree E D) in *.
  exists c, rest. split; [exact Hns|].
  rewrite Hedges, Hns in *. split; [|by unfold edges_of; rewrite bind_cons].
  apply Forall_cons in Hpar as [_ Hrest].
  unfold ids_from in Hids0. cbn [length seq] in Hids0.
  rewrite !fmap_cons in Hids0. injection Hids0 as Hrest_ids.
  apply Forall_forall. intros n Hn.
  eapply Forall_forall in Hrest; [|exact Hn].
  destruct Hrest as [[Hid _]|Hb]; [|done].
  exfalso.
  assert (gn_id n ∈ gn_id <$> rest) as Hin by (by apply list_elem_of_fmap_2).
  rewrite Hrest_ids in Hin.
  apply list_elem_of_fmap in Hin as (k & Hk & Hkin). apply elem_of_seq in Hkin.
  rewrite Hid in Hk. apply node_id_string_inj in Hk. lia.
Qed.

Lemma build_lookup_id (E : gset jsstring) (D : JSONValue) (k : nat)
    (n : GraphNode) :
  nodes (build E D) !! k = Some n → gn_id n = node_id_string k.
Proof.
  intros Hn.
  assert ((gn_id <$> nodes (build E D)) !! k = Some (gn_id n)) as H.
  { by rewrite list_lookup_fmap, Hn. }
  rewrite build_ids, list_lookup_fmap in H.
  destruct (seq 0 (length (nodes (build E D))) !! k) as [j|] eqn:Hj;
    simpl in H; [|done].
  apply lookup_seq in Hj as [-> _]. by injection H as <-.
Qed.

(** C10.  The ids of the built graph are ["node-0"], ["node-1"], ... in
    the order of the nodes, hence pairwise distinct; the first node is the
    root of the document, with id ["node-0"]; the order is depth-first
    pre-order: every edge leads from an earlier node to a later one, and
    the first child of a node comes right after it.  With the expansion
    set of the sample loader the root, and no other node, is expanded. *)
Theorem C10_node_ids (E : gset jsstring) (D : JSONValue) :
  gn_id <$> nodes (build E D)
    = node_id_string <$> seq 0 (length (nodes (build E D))) ∧
  NoDup (gn_id <$> nodes (build E D)) ∧
  (∃ root rest,
     nodes (build E D) = root :: rest ∧
     gn_id root = js "node-0" ∧ gn_key root = js "root" ∧
     gn_value root = D ∧ gn_parent root = None ∧ gn_level root = 0) ∧
  Forall (λ e, ∃ a b, a < b ∧ ge_from e = node_id_string a
                             ∧ ge_to e = node_id_string b)
         (edges (build E D)) ∧
  (∀ k n, nodes (build E D) !! k = Some n →
          head (gn_children n)
            = if hasChildren (gn_value n) && gn_isExpanded n
              then Some (node_id_string (S k)) else None) ∧
  (∃ root rest,
     nodes (build sample_expandedNodes D) = root :: rest ∧
     gn_isExpanded root = true ∧
     length (gn_children root) = length (child_entries D) ∧
     Forall (λ n, gn_isExpanded n = false) rest).
Proof.
  split_and!.
  - apply build_ids.
  - apply build_ids_NoDup.
  - destruct (build_root E D) as (c & rest & Hns).
    eexists _, rest. split; [exact Hns|]. done.
  - destruct (document_tree_shape E D) as (c & rest & _ & Hpar & Hedges).
    rewrite build_eq. cbn [edges]. rewrite Hedges.
    apply Forall_forall. intros e He.
    unfold edges_of in He. apply list_elem_of_bind in He as (n & He & Hn).
    eapply Forall_forall in Hpar; [|exact Hn].
    destruct Hpar as (a & b & _ & Hab & Hp & Hi).
    rewrite Hp, Hi in He. simpl in He.
    apply list_elem_of_singleton in He as ->. by exists a, b.
  - intros k n' Hn'.
    pose proof (build_lookup_id E D k n' Hn') as Hid.
    destruct (build_nodes_lookup E D k n' Hn') as (n & _ & Hok & Heq).
    rewrite Heq in *. simpl in *.
    destruct Hok as (_ & _ & _ & _ & _ & _ & _ & Hhd). by apply Hhd.
  - destruct (build_root sample_expandedNodes D) as (c & rest & Hns).
    pose proof (build_isExpanded sample_expandedNodes D) as Hexp.
    pose proof (build_ids sample_expandedNodes D) as Hids.
    pose proof (build_children_length sample_expandedNodes D) as Hcl.
    rewrite Hns in Hexp, Hids, Hcl.
    apply Forall_cons in Hexp as [Hroot Hrest].
    apply Forall_cons in Hcl as [Hcl _].
    eexists _, rest. split; [exact Hns|]. split_and!.
    + rewrite Hroot. simpl. apply bool_decide_eq_true.
      unfold sample_expandedNodes. by apply elem_of_singleton.
    + rewrite Hcl, Hroot. simpl.
      rewrite bool_decide_eq_true_2
        by (unfold sample_expandedNodes; by apply elem_of_singleton).
      rewrite hasChildren_entries.
      destruct (child_entries D); done.
    + cbn [length seq] in Hids. rewrite !fmap_cons in Hids.
      injection Hids as Hids.
      apply Forall_forall. intros n Hn.
      eapply Forall_forall in Hrest; [|exact Hn]. rewrite Hrest.
      apply bool_decide_eq_false.
      assert (gn_id n ∈ gn_id <$> rest) as Hin by (by apply list_elem_of_fmap_2).
      rewrite Hids in Hin.
      apply list_elem_of_fmap in Hin as (k & Hk & Hkin).
      apply elem_of_seq in Hkin.
      unfold sample_expandedNodes. rewrite elem_of_singleton, Hk.
      rewrite <- node_id_string_0. intros Heq%node_id_string_inj. lia.
Qed.

(** The sample of [handleSampleJson]: the root and its four entries, the
    root alone expanded. *)
Example sample_graph :
  (λ n : GraphNode,
     (gn_key n, gn_type n, gn_isExpanded n, length (gn_children n)))
    <$> nodes (build sample_expandedNodes sampleJson)
  = [(js "root", TObject, true, 4); (js "user", TObject, false, 0);
     (js "projects", TArray, false, 0); (js "settings", TObject, false, 0);
     (js "metadata", TNull, false, 0)].
Proof. vm_compute. reflexivity. Qed.

(* ===================================================================== *)
(** ** The layout of the built graph *)
(* ===================================================================== *)

Lemma positionNodes_y_step (ns : list GraphNode) (i j : nat) (ni nj : GraphNode) :
  positionNodes ns !! i = Some ni → positionNodes ns !! j = Some nj →
  i < j → gn_level ni = gn_level nj →
  (∀ k nk, i < k → k < j → positionNodes ns !! k = Some nk →
           gn_level nk ≠ gn_level ni) →
  gn_y nj = (gn_y ni + (gn_height ni + 30))%Z.
Proof.
  intros Hi Hj Hij Hlev Hbetween.
  destruct (positionNodes_lookup ns i ni Hi) as (oi & Hoi & Heqi).
  destruct (positionNodes_lookup ns j nj Hj) as (oj & Hoj & Heqj).
  destruct (positionNodes_y_next ns i j oi oj Hoi Hoj Hij)
    as (xi & xj & y & Hpi & Hpj).
  { rewrite Heqi, Heqj in Hlev. exact Hlev. }
  { intros k ok Hik Hkj Hok.
    destruct (positionNodes_x ns k ok Hok) as (yk & Hpk).
    specialize (Hbetween k _ Hik Hkj Hpk). rewrite Heqi in Hbetween.
    exact Hbetween. }
  rewrite Hi in Hpi. rewrite Hj in Hpj.
  injection Hpi as ->. injection Hpj as ->. done.
Qed.

(** C5.  In the built graph every node has [x = level * 300 + 50]; the
    root is placed at [y = 50]; and of two nodes of one level with no node
    of that level between them in traversal order, the second is placed
    [height + 30] below the first. *)
Theorem C5_layout (E : gset jsstring) (D : JSONValue) :
  Forall (λ n, gn_x n = (Z.of_nat (gn_level n) * 300 + 50)%Z)
         (nodes (build E D)) ∧
  (∃ root rest, nodes (build E D) = root :: rest ∧ gn_y root = 50%Z) ∧
  (∀ i j ni nj,
     nodes (build E D) !! i = Some ni → nodes (build E D) !! j = Some nj →
     i < j → gn_level ni = gn_level nj →
     (∀ k nk, i < k → k < j → nodes (build E D) !! k = Some nk →
              gn_level nk ≠ gn_level ni) →
     gn_y nj = (gn_y ni + (gn_height ni + 30))%Z).
Proof.
  split_and!.
  - apply Forall_forall. intros n' [i Hi]%list_elem_of_lookup.
    rewrite build_eq in Hi. cbn [nodes] in Hi.
    destruct (positionNodes_lookup _ i n' Hi) as (n & Hn & Heq).
    destruct (positionNodes_x _ i n Hn) as (y & Hx).
    rewrite Hi in Hx. by injection Hx as ->.
  - destruct (build_root E D) as (c & rest & Hns).
    eexists _, rest. split; [exact Hns|done].
  - rewrite build_eq. cbn [nodes]. apply positionNodes_y_step.
Qed.

Lemma C5_layout_witness :
  ∃ na nb,
    nodes (build scenario_expanded scenario_doc) !! 1 = Some na ∧
    nodes (build scenario_expanded scenario_doc) !! 2 = Some nb ∧
    gn_y nb = (gn_y na + (gn_height na + 30))%Z.
Proof.
  eexists _, _.
  split; [vm_compute; reflexivity|].
  split; [vm_compute; reflexivity|].
  apply (proj2 (proj2 (C5_layout scenario_expanded scenario_doc)) 1 2).
  - vm_compute; reflexivity.
  - vm_compute; reflexivity.
  - lia.
  - reflexivity.
  - intros k nk Hk1 Hk2. lia.
Defined.

(** The cursor [currentY] is shared by the levels: in the scenario the
    first node of level 1 is placed below the root, not at 50. *)
Example layout_cursor_not_reset :
  (λ n : GraphNode, (gn_level n, gn_x n, gn_y n, gn_height n))
    <$> nodes (build scenario_expanded scenario_doc)
  = [(0, 50%Z, 50%Z, 150%Z); (1, 350%Z, 230%Z, 100%Z);
     (1, 350%Z, 360%Z, 150%Z); (2, 650%Z, 540%Z, 100%Z);
     (2, 650%Z, 670%Z, 100%Z)].
Proof. vm_compute. reflexivity. Qed.

(** The scenarios of the specification: 3 nodes and 2 edges with the root
    expanded, 5 nodes and 4 edges with [b] expanded too. *)
Example scenario_counts :
  length (nodes (build sample_expandedNodes scenario_doc)) = 3 ∧
  length (edges (build sample_expandedNodes scenario_doc)) = 2 ∧
  length (nodes (build scenario_expanded scenario_doc)) = 5 ∧
  length (edges (build scenario_expanded scenario_doc)) = 4.
Proof. vm_compute. done. Qed.

(* ===================================================================== *)
(** ** Toggling the id of a leaf *)
(* ===================================================================== *)

Lemma new_node_mirror (E1 E2 : gset jsstring) (i key : jsstring)
    (v : JSONValue) (p : option jsstring) (level : nat) (c : list jsstring) :
  agree E1 E2 (set_children (new_node E1 i key v p level) c) →
  set_children (new_node E2 i key v p level) c
    = mirror E2 (set_children (new_node E1 i key v p level) c).
Proof.
  unfold agree, mirror, set_isExpanded, set_children, new_node, extraHeight.
  simpl. intros [Heq|Hleaf].
  - by rewrite Heq.
  - by rewrite Hleaf.
Qed.

Lemma children_fold_sim (E1 E2 : gset jsstring) (m level : nat)
    (l : list (jsstring * JSONValue)) :
  Forall (λ kv, sim_ok E1 E2 kv.2) l →
  ∀ m1, m < m1 →
    Forall (agree E1 E2)
      (ts_nodes (children_fold E1 (node_id_string m) level l m1).2) →
    children_fold E2 (node_id_string m) level l m1
      = ((children_fold E1 (node_id_string m) level l m1).1,
         mirror_state E2 (children_fold E1 (node_id_string m) level l m1).2).
Proof.
  induction 1 as [|kv l Hkv _ IH]; intros m1 Hlt Hag; [done|].
  simpl in *. apply Forall_app in Hag as [Hag1 Hag2].
  assert (∀ q, Some (node_id_string m) = Some q → fresh_from m1 q) as Hfresh.
  { intros q [= <-]. by apply fresh_from_id. }
  rewrite (Hkv kv.1 (Some (node_id_string m)) (S level) m1 Hfresh Hag1).
  destruct (subtree_ids E1 kv.2 kv.1 (Some (node_id_string m)) (S level) m1 Hfresh)
    as (_ & Hcnt).
  cbn [mirror_state ts_nodeId ts_nodes ts_edges].
  rewrite IH by (done || lia).
  unfold mirror_state. simpl. by rewrite fmap_app.
Qed.

Lemma sim_ok_all (E1 E2 : gset jsstring) (v : JSONValue) : sim_ok E1 E2 v.
Proof.
  induction v as [v IH] using JSONValue_entries_ind.
  intros key p level m Hp Hag.
  rewrite (subtree_unfold E1 v key p level m Hp) in *.
  rewrite (subtree_unfold E2 v key p level m Hp).
  assert (hasChildren v && bool_decide (node_id_string m ∈ E2)
          = hasChildren v && bool_decide (node_id_string m ∈ E1)) as ->.
  { destruct (hasChildren v && bool_decide (node_id_string m ∈ E1)) eqn:Hc;
      simpl in Hag; apply Forall_cons in Hag as [[Heq|Hleaf] _];
      simpl in Heq || simpl in Hleaf.
    all: first [by rewrite <- Heq | by rewrite Hleaf in Hc |- *]. }
  destruct (hasChildren v && bool_decide (node_id_string m ∈ E1)) eqn:Hc;
    simpl in Hag; apply Forall_cons in Hag as [Hroot Hrest].
  - rewrite (children_fold_sim E1 E2 m level (child_entries v) IH (S m))
      by (done || lia).
    unfold mirror_state. simpl. f_equal. f_equal.
    by apply new_node_mirror.
  - unfold mirror_state. simpl. f_equal. f_equal.
    rewrite <- (set_children_same (new_node E2 _ _ _ _ _)).
    rewrite <- (set_children_same (new_node E1 _ _ _ _ _)) in Hroot |- *.
    simpl gn_children. simpl gn_children in Hroot.
    by apply new_node_mirror.
Qed.

(** The layout pass commutes with a change of the nodes that keeps their
    levels and heights and does not look at their positions. *)
Lemma positionNodes_fmap (f : GraphNode → GraphNode) (ns : list GraphNode) :
  (∀ n, gn_level (f n) = gn_level n) →
  (∀ n, gn_height (f n) = gn_height n) →
  (∀ n x y, f (set_position n x y) = set_position (f n) x y) →
  positionNodes (f <$> ns) = f <$> positionNodes ns.
Proof.
  intros Hlev Hh Hpos.
  assert (levelGroups_of (f <$> ns) = levelGroups_of ns) as Hgroups.
  { induction ns as [|n ns IH] using rev_ind; [done|].
    rewrite fmap_app. simpl. rewrite !levelGroups_of_snoc.
    by rewrite IH, Hlev, length_fmap. }
  unfold positionNodes. rewrite Hgroups. clear Hgroups.
  assert (∀ x i (s : list GraphNode * Z),
            place x (f <$> s.1, s.2) i
            = (f <$> (place x s i).1, (place x s i).2)) as Hplace.
  { intros x i [ms y]. unfold place. simpl. rewrite list_lookup_fmap.
    destruct (ms !! i) as [n|]; simpl; [|done].
    by rewrite Hh, list_fmap_insert, Hpos. }
  assert (∀ x g (s : list GraphNode * Z),
            fold_left (place x) g (f <$> s.1, s.2)
            = (f <$> (fold_left (place x) g s).1,
               (fold_left (place x) g s).2)) as Hinner.
  { intros x g. induction g as [|i g IH]; intros s; simpl; [done|].
    rewrite Hplace. apply (IH (place x s i)). }
  assert (∀ groups (s : list GraphNode * Z),
            fold_left place_level groups (f <$> s.1, s.2)
            = (f <$> (fold_left place_level groups s).1,
               (fold_left place_level groups s).2)) as Houter.
  { intros groups. induction groups as [|entry groups IH]; intros s;
      simpl; [done|].
    unfold place_level at 2 4 6.
    rewrite Hinner. apply (IH (place_level s entry)). }
  by rewrite (Houter _ (ns, 50%Z)).
Qed.

Lemma build_mirror (E1 E2 : gset jsstring) (D : JSONValue) :
  Forall (agree E1 E2) (nodes (build E1 D)) →
  build E2 D = mkGraph (mirror E2 <$> nodes (build E1 D)) (edges (build E1 D)).
Proof.
  intros Hag. rewrite !build_eq in *. cbn [nodes edges] in *.
  assert (Forall (agree E1 E2) (ts_nodes (document_tree E1 D))) as Hag'.
  { apply Forall_forall. intros n [i Hi]%list_elem_of_lookup.
    destruct (positionNodes_x _ i n Hi) as (y & Hp).
    eapply Forall_forall in Hag; [|by eapply list_elem_of_lookup_2].
    exact Hag. }
  unfold document_tree in *.
  rewrite (sim_ok_all E1 E2 D (js "root") None 0 0 (root_fresh 0) Hag').
  unfold mirror_state. simpl. f_equal.
  by apply positionNodes_fmap.
Qed.

Lemma NoDup_fmap_same {A B} (f : A → B) (l : list A) (x y : A) :
  NoDup (f <$> l) → x ∈ l → y ∈ l → f x = f y → x = y.
Proof.
  induction l as [|a l IH]; intros Hnd Hx Hy Hf; [by apply elem_of_nil in Hx|].
  rewrite fmap_cons in Hnd. apply NoDup_cons in Hnd as [Hnot Hnd].
  apply elem_of_cons in Hx as [->|Hx]; apply elem_of_cons in Hy as [->|Hy].
  - done.
  - exfalso. apply Hnot. rewrite Hf. by apply list_elem_of_fmap_2.
  - exfalso. apply Hnot. rewrite <- Hf. by apply list_elem_of_fmap_2.
  - by apply IH.
Qed.

(** When [L] names a leaf, the graph treats alike the expansion set and
    any set that differs from it at most on [L]. *)
Lemma leaf_agree (E E' : gset jsstring) (D : JSONValue) (L : jsstring) :
  names_leaf (build E D) L →
  (∀ i, i ≠ L → i ∈ E ↔ i ∈ E') →
  Forall (agree E E') (nodes (build E D)).
Proof.
  intros (nl & Hnl & Hid & Hleaf) Hsets.
  apply Forall_forall. intros n Hn.
  destruct (decide (gn_id n = L)) as [HL|HL].
  - right.
    assert (n = nl) as ->.
    { apply (NoDup_fmap_same gn_id (nodes (build E D)));
        [apply build_ids_NoDup|done|done|congruence]. }
    rewrite <- hasChildren_nonempty in Hleaf.
    by destruct (hasChildren (gn_value nl)).
  - left. apply bool_decide_ext. by apply Hsets.
Qed.

(** Toggling the id of a leaf in the expansion store flips the flag of
    that node and changes nothing else in the graph. *)
Lemma toggle_leaf (E : gset jsstring) (D : JSONValue) (L : jsstring) :
  names_leaf (build E D) L →
  build (toggleNodeExpansion L E) D
    = mkGraph (flag_at L (negb (bool_decide (L ∈ E))) <$> nodes (build E D))
              (edges (build E D)).
Proof.
  intros Hleaf.
  rewrite (build_mirror E (toggleNodeExpansion L E) D).
  2:{ apply (leaf_agree E _ D L Hleaf). intros i Hi.
      unfold toggleNodeExpansion. case_bool_decide; set_solver. }
  f_equal. apply Forall_fmap_ext_1.
  eapply Forall_impl; [apply (build_isExpanded E D)|].
  intros n Hn. unfold mirror, flag_at, toggleNodeExpansion.
  destruct (decide (L ∈ E)) as [HE|HE].
  - rewrite (bool_decide_eq_true_2 (L ∈ E)) by done. cbn [negb].
    destruct (decide (gn_id n = L)) as [->|HL].
    + f_equal. apply bool_decide_eq_false. set_solver.
    + destruct n. unfold set_isExpanded. simpl in *. f_equal. rewrite Hn.
      apply bool_decide_ext. set_solver.
  - rewrite (bool_decide_eq_false_2 (L ∈ E)) by done. cbn [negb].
    destruct (decide (gn_id n = L)) as [->|HL].
    + f_equal. apply bool_decide_eq_true. set_solver.
    + destruct n. unfold set_isExpanded. simpl in *. f_equal. rewrite Hn.
      apply bool_decide_ext. set_solver.
Qed.

(** C3, as stated, does not hold: the only node of the document [1] is a
    leaf, and the two graphs differ in its [isExpanded] flag. *)
Lemma C3_counterexample :
  names_leaf (build ∅ (JNumber (num 1))) (js "node-0") ∧
  build (∅ ∪ {[ js "node-0" ]}) (JNumber (num 1))
    ≠ build (∅ ∖ {[ js "node-0" ]}) (JNumber (num 1)).
Proof.
  split.
  - eexists. split; [|split].
    + apply (list_elem_of_lookup_2 _ 0). vm_compute. reflexivity.
    + reflexivity.
    + simpl. tauto.
  - intros H.
    apply (f_equal (λ g, gn_isExpanded <$> nodes g)) in H.
    vm_compute in H. discriminate H.
Qed.

(** C3, amended.  When [L] names a leaf of the built graph, the graphs
    built with [L] added to and with [L] removed from the expansion set
    have the same edges and the same nodes, but for the [isExpanded] flag
    of the node [L]: [true] with [L] added, [false] with [L] removed. *)
Theorem C3_leaf_toggle (E : gset jsstring) (D : JSONValue) (L : jsstring) :
  names_leaf (build E D) L →
  edges (build (E ∪ {[ L ]}) D) = edges (build (E ∖ {[ L ]}) D) ∧
  nodes (build (E ∪ {[ L ]}) D)
    = flag_at L true <$> nodes (build (E ∖ {[ L ]}) D) ∧
  nodes (build (E ∖ {[ L ]}) D)
    = flag_at L false <$> nodes (build (E ∪ {[ L ]}) D).
Proof.
  intros Hleaf.
  rewrite (build_mirror E (E ∪ {[ L ]}) D)
    by (apply (leaf_agree E _ D L Hleaf); set_solver).
  rewrite (build_mirror E (E ∖ {[ L ]}) D)
    by (apply (leaf_agree E _ D L Hleaf); set_solver).
  cbn [nodes edges]. split; [done|].
  rewrite <- !list_fmap_compose.
  split; apply list_fmap_ext; intros i n _; unfold flag_at, mirror; simpl;
    destruct (decide (gn_id n = L)) as [HL|HL]; unfold set_isExpanded; simpl;
    f_equal.
  - apply bool_decide_eq_true. set_solver.
  - apply bool_decide_ext. set_solver.
  - apply bool_decide_eq_false. set_solver.
  - apply bool_decide_ext. set_solver.
Qed.

Lemma C3_leaf_toggle_witness :
  names_leaf (build scenario_expanded scenario_doc) (js "node-1") ∧
  edges (build (scenario_expanded ∪ {[ js "node-1" ]}) scenario_doc)
    = edges (build (scenario_expanded ∖ {[ js "node-1" ]}) scenario_doc) ∧
  nodes (build (scenario_expanded ∪ {[ js "node-1" ]}) scenario_doc)
    = flag_at (js "node-1") true
        <$> nodes (build (scenario_expanded ∖ {[ js "node-1" ]}) scenario_doc) ∧
  nodes (build (scenario_expanded ∖ {[ js "node-1" ]}) scenario_doc)
    = flag_at (js "node-1") false
        <$> nodes (build (scenario_expanded ∪ {[ js "node-1" ]}) scenario_doc).
Proof.
  assert (names_leaf (build scenario_expanded scenario_doc) (js "node-1")) as H.
  { eexists. split; [|split].
    - apply (list_elem_of_lookup_2 _ 1). vm_compute. reflexivity.
    - reflexivity.
    - simpl. tauto. }
  split; [exact H|].
  exact (C3_leaf_toggle scenario_expanded scenario_doc (js "node-1") H).
Defined.

(* ===================================================================== *)
(** ** Rounding never produces NaN *)
(* ===================================================================== *)

Lemma shr_1_nonneg (mrs : shr_record) :
  (0 <= shr_m mrs)%Z → (0 <= shr_m (shr_1 mrs))%Z.
Proof.
  destruct mrs as [m r s]. simpl.
  destruct m as [|[p|p|]|[p|p|]]; simpl; intros H; try done.
Qed.

Lemma iter_shr_1_nonneg (p : positive) (mrs : shr_record) :
  (0 <= shr_m mrs)%Z → (0 <= shr_m (SpecFloat.iter_pos shr_1 p mrs))%Z.
Proof.
  revert mrs. induction p as [p IH|p IH|]; intros mrs H; simpl.
  - apply IH, IH. by apply shr_1_nonneg.
  - by apply IH, IH.
  - by apply shr_1_nonneg.
Qed.

Lemma shr_fexp_nonneg (m e : Z) (l : location) :
  (0 <= m)%Z → (0 <= shr_m (shr_fexp prec emax m e l).1)%Z.
Proof.
  intros Hm. unfold shr_fexp, shr.
  assert (0 <= shr_m (shr_record_of_loc m l))%Z as H0.
  { destruct l as [|[| |]]; simpl; lia. }
  destruct (_ - e)%Z; simpl; try done.
  by apply iter_shr_1_nonneg.
Qed.

Lemma round_nearest_even_nonneg (m : Z) (l : location) :
  (0 <= m)%Z → (0 <= round_nearest_even m l)%Z.
Proof.
  intros Hm. destruct l as [|[| |]]; simpl; try lia.
  destruct (Z.even m); lia.
Qed.

Lemma binary_round_aux_not_nan (sx : bool) (mx ex : Z) (lx : location) :
  (0 <= mx)%Z → is_nan (binary_round_aux prec emax sx mx ex lx) = false.
Proof.
  intros Hm. unfold binary_round_aux.
  pose proof (shr_fexp_nonneg mx ex lx Hm) as H1.
  destruct (shr_fexp prec emax mx ex lx) as [mrs' e'].
  pose proof (shr_fexp_nonneg
                (round_nearest_even (shr_m mrs') (loc_of_shr_record mrs'))
                e' loc_Exact
                (round_nearest_even_nonneg _ _ H1)) as H2.
  destruct (shr_fexp prec emax _ e' loc_Exact) as [mrs'' e''].
  simpl in H2.
  destruct (shr_m mrs'') as [|m|m]; [done| |lia].
  by destruct (e'' <=? emax - prec)%Z.
Qed.

Lemma binary_normalize_not_nan (m e : Z) (szero : bool) :
  is_nan (binary_normalize prec emax m e szero) = false.
Proof.
  unfold binary_normalize, binary_round.
  destruct m as [|p|p]; [done| |];
    destruct (shl_align _ _ _) as [mz ez]; by apply binary_round_aux_not_nan.
Qed.

Lemma fmul_finite_not_nan (s : bool) (m : positive) (e : Z) (y : spec_float) :
  is_nan y = false → is_nan (fmul (S754_finite s m e) y) = false.
Proof.
  intros Hy. destruct y as [sy|sy| |sy my ey]; try done.
  unfold fmul, SFmul. by apply binary_round_aux_not_nan.
Qed.

Lemma fmul_not_nan_finite (x : spec_float) (s : bool) (m : positive) (e : Z) :
  is_nan x = false → is_nan (fmul x (S754_finite s m e)) = false.
Proof.
  intros Hx. destruct x as [sx|sx| |sx mx ex]; try done.
  unfold fmul, SFmul. by apply binary_round_aux_not_nan.
Qed.

Lemma fadd_finite_not_nan (s : bool) (m : positive) (e : Z) (y : spec_float) :
  is_nan y = false → is_nan (fadd (S754_finite s m e) y) = false.
Proof.
  intros Hy. destruct y as [sy|sy| |sy my ey]; try done.
  unfold fadd, SFadd. apply binary_normalize_not_nan.
Qed.

Lemma fsub_not_nan_finite (x : spec_float) (s : bool) (m : positive) (e : Z) :
  is_nan x = false → is_nan (fsub x (S754_finite s m e)) = false.
Proof.
  intros Hx. destruct x as [sx|sx| |sx mx ex]; try done.
  unfold fsub, SFsub. apply binary_normalize_not_nan.
Qed.

Lemma fdiv_finite_not_nan (s1 s2 : bool) (m1 m2 : positive) (e1 e2 : Z) :
  is_nan (fdiv (S754_finite s1 m1 e1) (S754_finite s2 m2 e2)) = false.
Proof.
  unfold fdiv, SFdiv, SFdiv_core_binary.
  set (m' := match _ with Z0 => Zpos m1 | Zpos _ => _ | Zneg _ => 0%Z end).
  assert (0 <= m')%Z as Hm'.
  { subst m'. destruct (_ - _)%Z; try lia. apply Z.shiftl_nonneg. lia. }
  pose proof (Z.div_pos m' (Zpos m2) Hm' ltac:(lia)) as Hq.
  unfold Z.div in Hq.
  destruct (Z.div_eucl m' (Zpos m2)) as [q r].
  by apply binary_round_aux_not_nan.
Qed.

(* ===================================================================== *)
(** ** The clamp of the zoom handlers *)
(* ===================================================================== *)

Lemma SFcompare_antisym (x y : spec_float) (c : comparison) :
  SFcompare x y = Some c → SFcompare y x = Some (CompOpp c).
Proof.
  destruct x as [sx|sx| |sx mx ex], y as [sy|sy| |sy my ey]; simpl;
    try discriminate; intros [= <-];
    try (by destruct sx); try (by destruct sy);
    try (by destruct sx, sy).
  f_equal. rewrite (Z.compare_antisym ex ey).
  pose proof (Pos.compare_cont_antisym mx my Eq) as Hm. simpl in Hm.
  destruct sx, sy; simpl; try done;
    destruct (ex ?= ey)%Z; simpl; try done; rewrite <- Hm;
    by destruct (Pos.compare_cont Eq mx my).
Qed.

Lemma f0_1_eq : f0_1 = S754_finite false 7205759403792794 (-56).
Proof. vm_compute. reflexivity. Qed.

Lemma f3_eq : f3 = S754_finite false 6755399441055744 (-51).
Proof. vm_compute. reflexivity. Qed.

Lemma clamp_zoom_in_range (x : spec_float) :
  is_nan x = false → zoom_in_range (clamp_zoom x) = true.
Proof.
  intros Hx. unfold clamp_zoom.
  assert (∀ y, SFcompare f3 y = Some Gt ∨ SFcompare f3 y = Some Eq →
               zoom_in_range (Math_max f0_1 y) = true) as Hmax.
  { intros y Hy.
    assert (SFleb y f3 = true) as Hle.
    { unfold SFleb. destruct Hy as [Hy|Hy];
        by rewrite (SFcompare_antisym _ _ _ Hy). }
    unfold Math_max.
    destruct (SFcompare f0_1 y) as [[| |]|] eqn:Hc.
    - rewrite f0_1_eq at 1. unfold zoom_in_range, SFleb at 1.
      by rewrite Hc, Hle.
    - unfold zoom_in_range, SFleb at 1. by rewrite Hc, Hle.
    - by vm_compute.
    - by destruct y. }
  unfold Math_min.
  destruct (SFcompare f3 x) as [[| |]|] eqn:Hc.
  - rewrite f3_eq at 1. apply Hmax. by right.
  - by vm_compute.
  - apply Hmax. by left.
  - by destruct x.
Qed.

Lemma zoom_in_range_finite (z : spec_float) :
  zoom_in_range z = true → ∃ s m e, z = S754_finite s m e.
Proof.
  destruct z as [s|s| |s m e]; intros H.
  - by destruct s.
  - by destruct s.
  - done.
  - eauto.
Qed.

Lemma literal_finite :
  (∃ m e, f1 = S754_finite false m e) ∧ (∃ m e, f0_3 = S754_finite false m e) ∧
  (∃ m e, f0_95 = S754_finite false m e) ∧ (∃ m e, f1_05 = S754_finite false m e).
Proof. split_and!; eexists _, _; vm_compute; reflexivity. Qed.

(** The damped scale [1 + (rawScale - 1) * 0.3] is a number whenever
    [rawScale] is. *)
Lemma dampedScale_not_nan (rawScale : spec_float) :
  is_nan rawScale = false →
  is_nan (fadd f1 (fmul (fsub rawScale f1) f0_3)) = false.
Proof.
  intros Hr.
  destruct literal_finite as ((m1 & e1 & ->) & (m2 & e2 & ->) & _).
  by apply fadd_finite_not_nan, fmul_not_nan_finite, fsub_not_nan_finite.
Qed.

(** The new zoom [clamp (prev * scale)] is in range whenever [prev] is in
    range and [scale] is a number. *)
Lemma zoom_step_in_range (prev scale : spec_float) :
  zoom_in_range prev = true → is_nan scale = false →
  zoom_in_range (clamp_zoom (fmul prev scale)) = true.
Proof.
  intros Hz Hs. apply clamp_zoom_in_range.
  destruct (zoom_in_range_finite _ Hz) as (s & m & e & ->).
  by apply fmul_finite_not_nan.
Qed.

Lemma handleWheel_in_range (ctrlKey metaKey : bool) (deltaY : spec_float)
    (v : Viewport) :
  zoom_in_range (zoom v) = true →
  zoom_in_range (zoom (handleWheel ctrlKey metaKey deltaY v)) = true.
Proof.
  intros Hz. unfold handleWheel.
  destruct (ctrlKey || metaKey); [|done].
  cbn [zoom]. apply zoom_step_in_range; [done|].
  destruct literal_finite as (_ & _ & (m1 & e1 & ->) & (m2 & e2 & ->)).
  by destruct (SFltb f0 deltaY).
Qed.

(** [handleTouchMove] through the ratio it computes. *)
Lemma handleTouchMove_scale (touches : list Touch) (v : Viewport) :
  handleTouchMove touches v =
    match pinch_scale v touches with
    | Some rawScale =>
        mkViewport
          (clamp_zoom
             (fmul (zoom v) (fadd f1 (fmul (fsub rawScale f1) f0_3))))
          (getTouchDistance touches)
    | None => v
    end.
Proof.
  unfold handleTouchMove, pinch_scale.
  destruct (length touches =? 2); [|done].
  destruct (lastTouchDistance v) as [last|]; [|done].
  destruct (getTouchDistance touches) as [distance|];
    destruct (truthy_number last); try done.
  by destruct (truthy_number distance).
Qed.

Lemma handleTouchMove_in_range (touches : list Touch) (v : Viewport) :
  zoom_in_range (zoom v) = true →
  match pinch_scale v touches with
  | Some rawScale => is_nan rawScale = false
  | None => True
  end →
  zoom_in_range (zoom (handleTouchMove touches v)) = true.
Proof.
  intros Hz Hs. rewrite handleTouchMove_scale.
  destruct (pinch_scale v touches) as [rawScale|]; [|done].
  cbn [zoom]. apply zoom_step_in_range; [done|].
  by apply dampedScale_not_nan.
Qed.

Lemma run_in_range (evs : list ViewportEvent) (v : Viewport) :
  zoom_in_range (zoom v) = true → scales_defined evs v = true →
  zoom_in_range (zoom (run evs v)) = true.
Proof.
  unfold run. revert v.
  induction evs as [|ev evs IH]; intros v Hz Hd; [done|].
  cbn [fold_left]. cbn [scales_defined] in Hd.
  apply andb_true_iff in Hd as [Hev Hd].
  apply IH; [|done].
  destruct ev as [c m d|ts|ts|]; cbn [handle].
  - by apply handleWheel_in_range.
  - unfold handleTouchStart. by destruct (length ts =? 2).
  - apply handleTouchMove_in_range; [done|].
    destruct (pinch_scale v ts) as [r|]; [|done].
    by apply negb_true_iff.
  - done.
Qed.

Lemma scales_defined_take (evs : list ViewportEvent) (v : Viewport) (n : nat) :
  scales_defined evs v = true → scales_defined (take n evs) v = true.
Proof.
  revert v n. induction evs as [|ev evs IH]; intros v [|n] H; try done.
  cbn [take scales_defined] in *.
  apply andb_true_iff in H as [Hev H]. rewrite Hev. cbn [andb].
  by apply IH.
Qed.

(** The ratio is NaN only when the new and the stored distance are both
    infinite. *)
Lemma pinch_scale_nan (v : Viewport) (touches : list Touch) (r : spec_float) :
  pinch_scale v touches = Some r → is_nan r = true →
  ∃ last distance,
    lastTouchDistance v = Some last ∧ getTouchDistance touches = Some distance ∧
    is_infinite last = true ∧ is_infinite distance = true.
Proof.
  unfold pinch_scale.
  destruct (length touches =? 2); [|done].
  destruct (lastTouchDistance v) as [last|]; [|done].
  destruct (getTouchDistance touches) as [distance|]; [|done].
  destruct (truthy_number last) eqn:Hl; [|done].
  destruct (truthy_number distance) eqn:Hd; [|done].
  cbn [andb]. intros [= <-] Hnan.
  exists last, distance. split_and!; try done.
  - destruct last as [s|s| |s m e]; try done.
    destruct distance as [s'|s'| |s' m' e']; try done.
    by rewrite fdiv_finite_not_nan in Hnan.
  - destruct distance as [s'|s'| |s' m' e']; try done.
    destruct last as [s|s| |s m e]; try done.
    by rewrite fdiv_finite_not_nan in Hnan.
Qed.

(** When no distance overflows, no ratio is NaN. *)
Lemma finite_distances_defined (evs : list ViewportEvent) (v : Viewport) :
  last_not_infinite v = true → forallb finite_distance evs = true →
  scales_defined evs v = true.
Proof.
  revert v. induction evs as [|ev evs IH]; intros v Hl Hd; [done|].
  cbn [forallb scales_defined] in *.
  apply andb_true_iff in Hd as [Hev Hd].
  apply andb_true_iff. split.
  - destruct ev as [c m d|ts|ts|]; try done.
    destruct (pinch_scale v ts) as [r|] eqn:Hr; [|done].
    destruct (is_nan r) eqn:Hnan; [|done]. exfalso.
    destruct (pinch_scale_nan v ts r Hr Hnan) as (l & d & Hlast & _ & Hinf & _).
    unfold last_not_infinite in Hl. rewrite Hlast, Hinf in Hl. done.
  - apply IH; [|done].
    destruct ev as [c m d|ts|ts|]; cbn [handle].
    + unfold handleWheel. by destruct (c || m).
    + unfold handleTouchStart, last_not_infinite.
      destruct (length ts =? 2); [|done]. cbn [lastTouchDistance].
      exact Hev.
    + rewrite handleTouchMove_scale.
      destruct (pinch_scale v ts); [|done].
      unfold last_not_infinite. cbn [lastTouchDistance]. exact Hev.
    + done.
Qed.

(** Starting from a zoom within [0.1, 3], the zoom is within [0.1, 3]
    after every event of any sequence of wheel and pinch events, whatever
    the wheel deltas and the distances, provided no pinch move computes
    the ratio NaN, that is, divides an infinite distance by an infinite
    stored distance. *)
Lemma zoom_in_range_defined (evs : list ViewportEvent) (v : Viewport) (n : nat) :
  zoom_in_range (zoom v) = true →
  scales_defined evs v = true →
  zoom_in_range (zoom (run (take n evs) v)) = true.
Proof.
  intros Hz Hd. apply run_in_range; [done|].
  by apply scales_defined_take.
Qed.

(** X15.  Wheel and pinch events keep the zoom within [0.1, 3] when no
    distance between the touch points overflows, however large or small
    the distances and their ratios are. *)
Lemma zoom_in_range_finite_distances (evs : list ViewportEvent)
    (v : Viewport) :
  zoom_in_range (zoom v) = true → last_not_infinite v = true →
  forallb finite_distance evs = true →
  zoom_in_range (zoom (run evs v)) = true.
Proof.
  intros Hz Hl Hd. apply run_in_range; [done|].
  by apply finite_distances_defined.
Qed.

(** Wheel events alone, whatever their deltas, keep the zoom within
    [0.1, 3]. *)
Lemma zoom_in_range_wheel (evs : list ViewportEvent) (v : Viewport) :
  zoom_in_range (zoom v) = true →
  Forall (λ ev, ∃ c m d, ev = Wheel c m d) evs →
  zoom_in_range (zoom (run evs v)) = true.
Proof.
  intros Hz Hw. apply run_in_range; [done|].
  clear Hz. revert v.
  induction Hw as [|ev evs (c & m & d & ->) _ IH]; intros v; [done|].
  cbn [scales_defined andb]. apply IH.
Qed.

(** A wheel tick, then a pinch from 3 to 5 pixels, then a move to an
    infinite distance: one overflow alone is clamped, the zoom ends at 3. *)
Example zoom_run_example :
  scales_defined [Wheel true false (num 120); TouchStart near_touches;
                  TouchMove wide_touches; TouchMove far_touches]
                 initial_viewport = true ∧
  zoom (run [Wheel true false (num 120); TouchStart near_touches;
             TouchMove wide_touches; TouchMove far_touches]
            initial_viewport) = f3.
Proof. vm_compute. done. Qed.

(** C7.  The zoom does not stay within [0.1, 3] for every sequence of
    pinch events.  The sequence [touchstart; touchmove], both with two
    touch points [2^600] pixels apart, is made of events with finite
    coordinates and starts from the zoom 0.8 within [0.1, 3]; the distance
    overflows to [Infinity] twice, the ratio [Infinity / Infinity] is NaN,
    [Math.max(0.1, Math.min(3, NaN))] is NaN, and the zoom leaves the
    interval. *)
Theorem C7_zoom_escapes :
  forallb well_formed_event [TouchStart far_touches; TouchMove far_touches]
    = true ∧
  zoom_in_range (zoom initial_viewport) = true ∧
  getTouchDistance far_touches = Some (S754_infinity false) ∧
  zoom (run [TouchStart far_touches; TouchMove far_touches] initial_viewport)
    = S754_nan ∧
  zoom_in_range
    (zoom (run [TouchStart far_touches; TouchMove far_touches] initial_viewport))
    = false.
Proof. vm_compute. done. Qed.

(* ===================================================================== *)
(** ** Blank and unparseable input *)
(* ===================================================================== *)

Lemma trim_start_blank (s : jsstring) : blank s = true → trim_start s = [].
Proof.
  induction s as [|c s IH]; simpl; [done|].
  intros [Hc Hs]%andb_true_iff. rewrite Hc. by apply IH.
Qed.

Lemma trim_start_not_blank (s : jsstring) :
  blank s = false →
  ∃ c s', trim_start s = c :: s' ∧ is_js_whitespace c = false.
Proof.
  induction s as [|c s IH]; simpl; [done|].
  destruct (is_js_whitespace c) eqn:Hc; simpl; [exact IH|].
  intros _. by exists c, s.
Qed.

Lemma trim_start_snoc (l : jsstring) (c : N) :
  is_js_whitespace c = false → trim_start (l ++ [c]) ≠ [].
Proof.
  intros Hc. induction l as [|a l IH]; simpl.
  - by rewrite Hc.
  - by destruct (is_js_whitespace a).
Qed.

(** [jsonInput.trim()] is falsy exactly for the blank strings. *)
Lemma trim_truthy (s : jsstring) : truthy_string (trim s) = negb (blank s).
Proof.
  unfold trim. destruct (blank s) eqn:Hb; simpl.
  - by rewrite (trim_start_blank s Hb).
  - destruct (trim_start_not_blank s Hb) as (c & s' & -> & Hc).
    simpl. pose proof (trim_start_snoc (rev s') c Hc) as Hne.
    destruct (trim_start (rev s' ++ [c])) as [|a l] eqn:Hl; [done|].
    simpl. by destruct (rev l).
Qed.

(** C8.  For a blank text (empty or white space only) the graph has no
    node and the overlay reads 'Enter JSON to visualize'; for a text that
    is not blank and that [JSON.parse] rejects, the graph has no node and
    no edge, whatever graph was there before, and the overlay reads
    'Invalid JSON format'. *)
Theorem C8_empty_and_invalid (JSON_parse : jsstring → option JSONValue)
    (E : gset jsstring) (jsonInput : jsstring) :
  (blank jsonInput = true →
     createGraph JSON_parse E jsonInput = mkGraph [] [] ∧
     overlay JSON_parse E jsonInput = Some EnterJSONToVisualize) ∧
  (blank jsonInput = false → JSON_parse jsonInput = None →
     createGraph JSON_parse E jsonInput = mkGraph [] [] ∧
     overlay JSON_parse E jsonInput = Some InvalidJSONFormat).
Proof.
  unfold overlay, createGraph. rewrite trim_truthy.
  split.
  - intros ->. done.
  - intros -> ->. done.
Qed.

Lemma C8_empty_and_invalid_witness :
  (createGraph literal_parse ∅ (js "  ") = mkGraph [] [] ∧
   overlay literal_parse ∅ (js "  ") = Some EnterJSONToVisualize) ∧
  (createGraph literal_parse ∅ (js "{invalid") = mkGraph [] [] ∧
   overlay literal_parse ∅ (js "{invalid") = Some InvalidJSONFormat).
Proof.
  split.
  - apply (proj1 (C8_empty_and_invalid literal_parse ∅ (js "  "))).
    reflexivity.
  - apply (proj2 (C8_empty_and_invalid literal_parse ∅ (js "{invalid"))).
    + reflexivity.
    + reflexivity.
Defined.

(** The scenarios of the specification: the empty string, and
    ["{invalid"]. *)
Example scenario_empty_string :
  overlay literal_parse ∅ (js "") = Some EnterJSONToVisualize ∧
  nodes (createGraph literal_parse ∅ (js "")) = [].
Proof. done. Qed.

(** A text that parses yields the graph of the parsed document, and no
    overlay. *)
Lemma overlay_parsed (JSON_parse : jsstring → option JSONValue)
    (E : gset jsstring) (jsonInput : jsstring) (D : JSONValue) :
  blank jsonInput = false → JSON_parse jsonInput = Some D →
  createGraph JSON_parse E jsonInput = build E D ∧
  overlay JSON_parse E jsonInput = None.
Proof.
  intros Hb Hp.
  assert (createGraph JSON_parse E jsonInput = build E D) as Hg.
  { apply createGraph_parsed; [|done]. by rewrite trim_truthy, Hb. }
  split; [done|]. unfold overlay. rewrite Hg.
  destruct (build_root E D) as (c & rest & ->). done.
Qed.

(** Whatever the text, the graph of [createGraph] is empty or a tree. *)
Lemma createGraph_tree (JSON_parse : jsstring → option JSONValue)
    (E : gset jsstring) (jsonInput : jsstring) :
  nodes (createGraph JSON_parse E jsonInput) ≠ [] →
  length (nodes (createGraph JSON_parse E jsonInput))
    = length (edges (createGraph JSON_parse E jsonInput)) + 1.
Proof.
  intros Hne.
  destruct (blank jsonInput) eqn:Hb.
  { exfalso. apply Hne. unfold createGraph. by rewrite trim_truthy, Hb. }
  destruct (JSON_parse jsonInput) as [D|] eqn:Hp.
  - destruct (overlay_parsed JSON_parse E jsonInput D Hb Hp) as [-> _].
    pose proof (build_edge_targets E D) as Hto.
    destruct (build_root E D) as (c & rest & Hns).
    rewrite Hns in *. rewrite fmap_cons in Hto. cbn [tail length] in *.
    rewrite <- (length_fmap ge_to (edges _)), Hto, length_fmap. lia.
  - exfalso. apply Hne. unfold createGraph. by rewrite trim_truthy, Hb, Hp.
Qed.

(* ===================================================================== *)
(** ** Parents, children and levels *)
(* ===================================================================== *)

Lemma Some_id_inj (a b : nat) :
  Some (node_id_string a) = Some (node_id_string b) → a = b.
Proof. intros H. apply node_id_string_inj. congruence. Qed.

Lemma children_of_app (a b : list GraphNode) (i : jsstring) :
  children_of (a ++ b) i = children_of a i ++ children_of b i.
Proof. unfold children_of. apply filter_app. Qed.

Lemma children_of_none (ns : list GraphNode) (i : jsstring) :
  (∀ c, c ∈ ns → gn_parent c ≠ Some i) → children_of ns i = [].
Proof.
  intros H. apply elem_of_nil_inv. intros c Hc.
  apply list_elem_of_filter in Hc as [Hp Hc]. by apply (H c).
Qed.

Lemma family_ok_ext (ns ns' : list GraphNode) (n : GraphNode) :
  children_of ns' (gn_id n) = children_of ns (gn_id n) →
  family_ok ns n → family_ok ns' n.
Proof. unfold family_ok. by intros ->. Qed.

(** The nodes below a subtree root name no node outside the subtree. *)
Lemma inner_children_none (m len k : nat) (rest : list GraphNode) :
  Forall (inner_node m len) rest → k < m ∨ m + len ≤ k →
  children_of rest (node_id_string k) = [].
Proof.
  intros Hrest Hk. apply children_of_none. intros c Hc Hp.
  eapply Forall_forall in Hrest; [|exact Hc].
  destruct Hrest as (a & b & Ha & Hab & Hb & Hpa & _).
  rewrite Hpa in Hp. apply Some_id_inj in Hp. lia.
Qed.

(** The nodes of a loop name no node outside the loop but the node whose
    loop it is. *)
Lemma loop_children_none (m m1 len level k : nat) (N : list GraphNode) :
  m < m1 → Forall (loop_node m m1 len level) N →
  k ≠ m → k < m1 ∨ m1 + len ≤ k →
  children_of N (node_id_string k) = [].
Proof.
  intros Hlt HN Hkm Hk. apply children_of_none. intros c Hc Hp.
  eapply Forall_forall in HN; [|exact Hc].
  destruct HN as (b & Hb1 & Hb2 & _ & [[Hpm _]|(a & Ha1 & Ha2 & Hpa)]).
  - rewrite Hpm in Hp. apply Some_id_inj in Hp. lia.
  - rewrite Hpa in Hp. apply Some_id_inj in Hp. lia.
Qed.

Lemma loop_node_mono (m m1 len m1' len' level : nat) (c : GraphNode) :
  m1 ≤ m1' → m1' + len' ≤ m1 + len →
  loop_node m m1' len' level c → loop_node m m1 len level c.
Proof.
  intros H1 H2 (b & Hb1 & Hb2 & Hid & [Hroot|(a & Ha1 & Ha2 & Hpa)]).
  - exists b. split_and!; [lia|lia|done|by left].
  - exists b. split_and!; [lia|lia|done|]. right. exists a. split_and!; [lia|lia|done].
Qed.

Lemma children_fold_family (E : gset jsstring) (m level : nat)
    (l : list (jsstring * JSONValue)) :
  Forall (λ kv, tree_ok E kv.2) l →
  ∀ m1, m < m1 →
    Forall (loop_node m m1
              (length (ts_nodes (children_fold E (node_id_string m) level l m1).2))
              level)
           (ts_nodes (children_fold E (node_id_string m) level l m1).2) ∧
    gn_id <$> children_of
                (ts_nodes (children_fold E (node_id_string m) level l m1).2)
                (node_id_string m)
      = (children_fold E (node_id_string m) level l m1).1 ∧
    (λ c, (gn_key c, gn_value c))
      <$> children_of
            (ts_nodes (children_fold E (node_id_string m) level l m1).2)
            (node_id_string m)
      = l ∧
    Forall (family_ok (ts_nodes (children_fold E (node_id_string m) level l m1).2))
           (ts_nodes (children_fold E (node_id_string m) level l m1).2).
Proof.
  induction 1 as [|kv l Hkv _ IH]; intros m1 Hlt.
  { simpl. split_and!; by constructor. }
  set (k := kv.1) in *. set (v := kv.2) in *.
  assert (∀ q, Some (node_id_string m) = Some q → fresh_from m1 q) as Hfresh.
  { intros q [= <-]. by apply fresh_from_id. }
  destruct (Hkv k (Some (node_id_string m)) (S level) m1 Hfresh)
    as (ch & rest & Hns & Hrest & Hfam).
  destruct (subtree_ids E v k (Some (node_id_string m)) (S level) m1 Hfresh)
    as (_ & Hcnt).
  cbn [children_fold]. fold k v. cbn [fst snd ts_nodes ts_edges ts_nodeId].
  set (s := subtree E v k (Some (node_id_string m)) (S level) m1) in *.
  destruct (IH (ts_nodeId s)) as (K1 & K2 & K3 & K4); [lia|].
  set (r := children_fold E (node_id_string m) level l (ts_nodeId s)) in *.
  set (root := set_children
                 (new_node E (node_id_string m1) k v (Some (node_id_string m))
                    (S level)) ch) in *.
  assert (length (ts_nodes s) = S (length rest)) as Hlen by (by rewrite Hns).
  rewrite length_app.
  assert (Forall (loop_node m m1 (length (ts_nodes s) + length (ts_nodes r.2)) level)
            (ts_nodes s)) as Hs_loop.
  { rewrite Hns at 2. constructor.
    - exists m1. split_and!; [lia|lia|done|]. by left.
    - eapply Forall_impl; [exact Hrest|].
      intros c (a & b & Ha & Hab & Hb & Hpa & Hid).
      exists b. split_and!; [lia|lia|done|]. right. exists a. split_and!; [lia|lia|done]. }
  assert (Forall (loop_node m m1 (length (ts_nodes s) + length (ts_nodes r.2)) level)
            (ts_nodes r.2)) as Hr_loop.
  { eapply Forall_impl; [exact K1|]. intros c.
    apply loop_node_mono; lia. }
  assert (children_of (ts_nodes s) (node_id_string m) = [root]) as Hkids.
  { rewrite Hns. unfold children_of. rewrite filter_cons_True by done.
    f_equal. apply (inner_children_none m1 (S (length rest)) m); [done|lia]. }
  split_and!.
  - by apply Forall_app.
  - rewrite children_of_app, fmap_app, Hkids, K2. done.
  - rewrite children_of_app, fmap_app, Hkids, K3. subst k v. by destruct kv.
  - apply Forall_app. split.
    + apply Forall_forall. intros n Hn.
      eapply Forall_forall in Hfam as Hn_ok; [|exact Hn].
      eapply family_ok_ext; [|exact Hn_ok].
      rewrite children_of_app.
      eapply Forall_forall in Hs_loop as (b & Hb1 & Hb2 & Hid & _); [|exact Hn].
      assert (b < m1 + length (ts_nodes s)) as Hb.
      { rewrite Hns in Hn. apply elem_of_cons in Hn as [->|Hn].
        - simpl in Hid. apply node_id_string_inj in Hid. lia.
        - eapply Forall_forall in Hrest as (a' & b' & _ & _ & Hb' & _ & Hid');
            [|exact Hn].
          rewrite Hid in Hid'. apply node_id_string_inj in Hid'. lia. }
      rewrite Hid.
      rewrite (loop_children_none m (ts_nodeId s) _ level b _ ltac:(lia) K1);
        [by rewrite app_nil_r|lia|lia].
    + apply Forall_forall. intros n Hn.
      eapply Forall_forall in K4 as Hn_ok; [|exact Hn].
      eapply family_ok_ext; [|exact Hn_ok].
      rewrite children_of_app.
      eapply Forall_forall in K1 as (b & Hb1 & Hb2 & Hid & _); [|exact Hn].
      rewrite Hid, Hns.
      unfold children_of at 1. rewrite filter_cons_False.
      2:{ simpl. intros Heq%Some_id_inj. lia. }
      fold (children_of rest (node_id_string b)).
      rewrite (inner_children_none m1 (S (length rest)) b); [done|done|lia].
Qed.

Lemma tree_ok_all (E : gset jsstring) (v : JSONValue) : tree_ok E v.
Proof.
  induction v as [v IH] using JSONValue_entries_ind.
  intros key p level m Hp.
  assert (gn_parent (new_node E (node_id_string m) key v p level) = p) as Hpar
    by done.
  assert (∀ k c, m ≤ k →
            gn_parent (set_children
                         (new_node E (node_id_string m) key v p level) c)
            ≠ Some (node_id_string k)) as Hroot_par.
  { intros k c Hk Heq. simpl in Heq. by apply (Hp _ Heq k). }
  rewrite (subtree_unfold E v key p level m Hp).
  destruct (hasChildren v && bool_decide (node_id_string m ∈ E)) eqn:Hc;
    cbn [ts_nodes].
  - destruct (children_fold_family E m level (child_entries v) IH (S m))
      as (K1 & K2 & K3 & K4); [lia|].
    set (r := children_fold E (node_id_string m) level (child_entries v) (S m)) in *.
    eexists _, _. split; [reflexivity|]. split.
    + eapply Forall_impl; [exact K1|].
      intros c (b & Hb1 & Hb2 & Hid & [[Hpm _]|(a & Ha1 & Ha2 & Hpa)]).
      * exists m, b. split_and!; [lia|lia|lia|done|done].
      * exists a, b. split_and!; [lia|lia|lia|done|done].
    + constructor.
      * unfold family_ok. cbn [set_children gn_id gn_children gn_value
                               gn_isExpanded gn_level new_node].
        unfold children_of at 1 2 3. rewrite filter_cons_False by (by apply Hroot_par).
        fold (children_of (ts_nodes r.2) (node_id_string m)).
        rewrite K2, K3, Hc. split_and!; [done|done|].
        apply Forall_forall. intros c Hc'.
        apply list_elem_of_filter in Hc' as [Hpc Hc'].
        destruct (proj1 (Forall_forall _ _) K1 c Hc')
          as (b & Hb1 & _ & _ & [[_ Hl]|(a & Ha & _ & Hpa)]).
        -- done.
        -- rewrite Hpa in Hpc. apply Some_id_inj in Hpc. lia.
      * apply Forall_forall. intros n Hn.
        eapply Forall_forall in K4 as Hn_ok; [|exact Hn].
        eapply family_ok_ext; [|exact Hn_ok].
        destruct (proj1 (Forall_forall _ _) K1 n Hn) as (b & Hb1 & _ & Hid & _).
        unfold children_of at 1. rewrite filter_cons_False; [done|].
        rewrite Hid. apply Hroot_par. lia.
  - exists [], []. split; [by rewrite set_children_same|].
    split; [constructor|]. constructor; [|constructor].
    unfold family_ok. cbn [gn_id gn_children gn_value gn_isExpanded new_node].
    unfold children_of. rewrite filter_cons_False.
    2:{ pose proof (Hroot_par m [] (le_n m)) as H. exact H. }
    rewrite Hc. by split_and!.
Qed.

Lemma children_of_erase (ns : list GraphNode) (i : jsstring) :
  erase_position <$> children_of ns i
    = children_of (erase_position <$> ns) i.
Proof.
  unfold children_of. induction ns as [|n ns IH]; [done|].
  rewrite fmap_cons, !filter_cons. simpl gn_parent.
  destruct (decide (gn_parent n = Some i)); [|exact IH].
  by rewrite fmap_cons, IH.
Qed.

Lemma fmap_erase {A} (f : GraphNode → A) (l : list GraphNode) :
  (∀ n, f (erase_position n) = f n) →
  f <$> (erase_position <$> l) = f <$> l.
Proof.
  intros Hf. rewrite <- list_fmap_compose. apply list_fmap_ext.
  intros i n _. apply Hf.
Qed.

Lemma family_ok_erase (ns : list GraphNode) (n : GraphNode) :
  family_ok (erase_position <$> ns) (erase_position n) ↔ family_ok ns n.
Proof.
  unfold family_ok.
  cbn [erase_position set_position gn_id gn_children gn_value gn_isExpanded
       gn_level].
  rewrite <- children_of_erase.
  rewrite (fmap_erase gn_id) by done.
  rewrite (fmap_erase (λ c, (gn_key c, gn_value c))) by done.
  rewrite Forall_fmap. done.
Qed.

(** In the built graph the [children] list of every node holds the ids of
    the nodes that name it as [parent], in order; these nodes carry the
    entries of its value, in source order, when the node is expanded and
    has entries, and there are none otherwise; they are one level below. *)
Lemma build_family (E : gset jsstring) (D : JSONValue) :
  Forall (family_ok (nodes (build E D))) (nodes (build E D)).
Proof.
  destruct (tree_ok_all E D (js "root") None 0 0 (root_fresh 0))
    as (_ & _ & _ & _ & Hfam).
  fold (document_tree E D) in Hfam.
  rewrite build_eq. cbn [nodes].
  pose proof (positionNodes_erase (ts_nodes (document_tree E D))) as Her.
  apply Forall_forall. intros n' Hn'.
  apply family_ok_erase. rewrite Her.
  assert (erase_position n' ∈ erase_position <$> ts_nodes (document_tree E D))
    as Hin.
  { rewrite <- Her. by apply list_elem_of_fmap_2. }
  apply list_elem_of_fmap in Hin as (n & -> & Hn).
  apply family_ok_erase.
  by eapply Forall_forall in Hfam.
Qed.

Lemma edges_of_erase (ns : list GraphNode) :
  edges_of (erase_position <$> ns) = edges_of ns.
Proof.
  unfold edges_of. induction ns as [|n ns IH]; [done|].
  rewrite fmap_cons, !bind_cons. by rewrite IH.
Qed.

(** The edges of the built graph are read off the nodes: one edge per
    node with a parent, from the parent to the node, in node order. *)
Lemma build_edges_of (E : gset jsstring) (D : JSONValue) :
  edges (build E D) = edges_of (nodes (build E D)).
Proof.
  destruct (document_tree_shape E D) as (c & rest & Hns & _ & Hedges).
  rewrite build_eq. cbn [nodes edges].
  rewrite <- (edges_of_erase (positionNodes _)), positionNodes_erase,
    edges_of_erase.
  rewrite Hedges, Hns. unfold edges_of. by rewrite bind_cons.
Qed.

(** Every edge of the built graph leads from a node of the graph to one
    of its children, one level deeper; both ends are found by id. *)
Lemma build_edges_link (E : gset jsstring) (D : JSONValue) :
  Forall (λ e, ∃ pn cn,
            pn ∈ nodes (build E D) ∧ cn ∈ nodes (build E D) ∧
            gn_id pn = ge_from e ∧ gn_id cn = ge_to e ∧
            gn_parent cn = Some (gn_id pn) ∧
            ge_to e ∈ gn_children pn ∧
            gn_level cn = S (gn_level pn))
         (edges (build E D)).
Proof.
  rewrite build_edges_of at 1.
  apply Forall_forall. intros e He.
  unfold edges_of in He. apply list_elem_of_bind in He as (cn & He & Hcn).
  destruct (gn_parent cn) as [q|] eqn:Hq; [|by apply elem_of_nil in He].
  simpl in He. destruct (truthy_string q); [|by apply elem_of_nil in He].
  apply list_elem_of_singleton in He as ->. simpl.
  (* the parent of [cn] is a node of the graph *)
  assert (∃ pn, pn ∈ nodes (build E D) ∧ gn_id pn = q) as (pn & Hpn & Hid).
  { destruct (document_tree_shape E D) as (c & rest & Hns & Hpar & _).
    pose proof (positionNodes_erase (ts_nodes (document_tree E D))) as Her.
    assert (erase_position cn ∈ erase_position <$> ts_nodes (document_tree E D))
      as Hin.
    { rewrite <- Her. apply list_elem_of_fmap_2.
      by rewrite build_eq in Hcn. }
    apply list_elem_of_fmap in Hin as (cn0 & Heq & Hcn0).
    assert (gn_parent cn0 = Some q ∧ gn_id cn0 = gn_id cn) as [Hq0 Hid0].
    { apply erase_position_eq in Heq. rewrite Heq. by split. }
    rewrite Hns in Hcn0. apply elem_of_cons in Hcn0 as [->|Hcn0]; [done|].
    eapply Forall_forall in Hpar as (a & b & _ & Hab & Hpa & Hib); [|exact Hcn0].
    assert (b < length (nodes (build E D))) as Hb.
    { apply list_elem_of_lookup in Hcn as [j Hj].
      pose proof (build_lookup_id E D j cn Hj) as Hidj.
      rewrite <- Hid0, Hib in Hidj. apply node_id_string_inj in Hidj as ->.
      by eapply lookup_lt_Some. }
    destruct (lookup_lt_is_Some_2 (nodes (build E D)) a ltac:(lia)) as [pn Hpn].
    exists pn. split; [by eapply list_elem_of_lookup_2|].
    rewrite (build_lookup_id E D a pn Hpn). congruence. }
  exists pn, cn. subst q.
  pose proof (build_family E D) as Hfam.
  eapply Forall_forall in Hfam as (Hch & _ & Hlev); [|exact Hpn].
  assert (cn ∈ children_of (nodes (build E D)) (gn_id pn)) as Hkid.
  { apply list_elem_of_filter. by split. }
  split_and!; try done.
  - rewrite Hch. by apply list_elem_of_fmap_2.
  - by eapply Forall_forall in Hlev.
Qed.
(* ===================================================================== *)
(** ** The vertical order of the layout *)
(* ===================================================================== *)

Lemma sorted_app {A} (R : relation A) (l1 l2 : list A) :
  StronglySorted R l1 → StronglySorted R l2 →
  (∀ x y, x ∈ l1 → y ∈ l2 → R x y) →
  StronglySorted R (l1 ++ l2).
Proof.
  induction 1 as [|a l1 Hs IH Hall]; intros Hs2 Hx; simpl; [done|].
  constructor.
  - apply IH; [done|]. intros x y Hx1 Hy. apply Hx; [by right|done].
  - apply Forall_app. split; [done|].
    apply Forall_forall. intros y Hy. apply Hx; [by left|done].
Qed.

Lemma sorted_filter {A} (R : relation A) (P : A → Prop)
    `{!∀ x, Decision (P x)} (l : list A) :
  StronglySorted R l → StronglySorted R (filter P l).
Proof.
  induction 1 as [|a l Hs IH Hall]; [constructor|].
  rewrite filter_cons. destruct (decide (P a)); [|done].
  constructor; [done|].
  apply Forall_forall. intros y [_ Hy]%list_elem_of_filter.
  by eapply Forall_forall in Hall.
Qed.

Lemma sorted_seq (a n : nat) : StronglySorted lt (seq a n).
Proof.
  revert a. induction n as [|n IH]; intros a; simpl; constructor; [apply IH|].
  apply Forall_forall. intros y Hy%elem_of_seq. lia.
Qed.

Lemma sorted_split {A} (R : relation A) (l1 l2 : list A) (a : A) :
  StronglySorted R (l1 ++ a :: l2) →
  (∀ x, x ∈ l1 → R x a) ∧ (∀ y, y ∈ l2 → R a y).
Proof.
  induction l1 as [|b l1 IH]; simpl; intros Hs;
    apply StronglySorted_inv in Hs as [Hs Hall].
  - split; [by intros x ?%elem_of_nil|].
    intros y Hy. by eapply Forall_forall in Hall.
  - destruct (IH Hs) as [H1 H2]. split; [|done].
    intros x [->|Hx]%elem_of_cons; [|by apply H1].
    eapply Forall_forall in Hall; [exact Hall|].
    apply elem_of_app. right. by left.
Qed.

(** The two nested loops of [positionNodes] reach the nodes level by
    level, and within a level in the order of [nodes]. *)
Lemma flatten_groups_sorted (ns : list GraphNode) :
  StronglySorted layout_before (flatten_groups (levelGroups_of ns)).
Proof.
  destruct (levelGroups_of_ok ns) as (Hs & Hmem & _).
  revert Hs Hmem. generalize (levelGroups_of ns) as groups.
  induction groups as [|[l g] groups IH]; intros Hs Hmem; [constructor|].
  rewrite fmap_cons in Hs. apply StronglySorted_inv in Hs as [Hs Hall].
  unfold flatten_groups. rewrite bind_cons. cbn [fst snd].
  apply sorted_app.
  - rewrite (Hmem l g) by left. unfold level_members.
    generalize (sorted_filter lt (λ i, gn_level <$> ns !! i = Some l) _
                  (sorted_seq 0 (length ns))).
    generalize (filter (λ i, gn_level <$> ns !! i = Some l) (seq 0 (length ns))).
    induction 1 as [|a m Hm IHm Hallm]; [constructor|].
    rewrite fmap_cons. constructor; [done|].
    apply Forall_fmap, Forall_forall. intros y Hy. right. simpl.
    split; [done|]. by eapply Forall_forall in Hallm.
  - apply IH; [done|]. intros l' g' Hin. apply Hmem. by right.
  - intros [l1 i1] [l2 i2] Hx Hy.
    apply list_elem_of_fmap in Hx as (i & [= -> ->] & _).
    apply (flatten_groups_elem groups) in Hy as (g2 & Hg2 & _).
    left. simpl. eapply Forall_forall in Hall; [exact Hall|].
    apply list_elem_of_fmap. by exists (l2, g2).
Qed.

Lemma place_entry_cursor (s : list GraphNode * Z) (lr : nat * nat) :
  Forall (λ n, (0 ≤ gn_height n)%Z) s.1 →
  (s.2 ≤ (place_entry s lr).2)%Z ∧
  Forall (λ n, (0 ≤ gn_height n)%Z) (place_entry s lr).1.
Proof.
  intros Hh. unfold place_entry, place.
  destruct (s.1 !! lr.2) as [n|] eqn:Hn; [|by split].
  assert (0 ≤ gn_height n)%Z as H0.
  { eapply Forall_forall in Hh; [exact Hh|]. by eapply list_elem_of_lookup_2. }
  simpl. split; [lia|]. by apply Forall_insert.
Qed.

(** The cursor [currentY] never moves up. *)
Lemma fold_place_cursor (o : list (nat * nat)) (s : list GraphNode * Z) :
  Forall (λ n, (0 ≤ gn_height n)%Z) s.1 →
  (s.2 ≤ (fold_left place_entry o s).2)%Z.
Proof.
  revert s. induction o as [|lr o IH]; intros s Hh; simpl; [lia|].
  destruct (place_entry_cursor s lr Hh) as [Hle Hh'].
  specialize (IH _ Hh'). lia.
Qed.

Lemma fold_place_heights (o : list (nat * nat)) (s : list GraphNode * Z) :
  Forall (λ n, (0 ≤ gn_height n)%Z) s.1 →
  Forall (λ n, (0 ≤ gn_height n)%Z) (fold_left place_entry o s).1.
Proof.
  revert s. induction o as [|lr o IH]; intros s Hh; simpl; [done|].
  apply IH. by apply place_entry_cursor.
Qed.

Lemma layout_before_asym (a b : nat * nat) :
  layout_before a b → layout_before b a → False.
Proof. unfold layout_before. lia. Qed.

(** A node reached earlier by the layout lies above every node reached
    later, with the gap of 30 below its box. *)
Lemma positionNodes_stacked (ns : list GraphNode) (i j : nat) (ni nj : GraphNode) :
  Forall (λ n, (0 ≤ gn_height n)%Z) ns →
  positionNodes ns !! i = Some ni → positionNodes ns !! j = Some nj →
  layout_before (gn_level ni, i) (gn_level nj, j) →
  (gn_y ni + (gn_height ni + 30) ≤ gn_y nj)%Z.
Proof.
  intros Hh Hi Hj Hlt.
  destruct (positionNodes_lookup ns i ni Hi) as (ni0 & Hni0 & Hieq).
  destruct (positionNodes_lookup ns j nj Hj) as (nj0 & Hnj0 & Hjeq).
  assert (gn_level ni = gn_level ni0 ∧ gn_height ni = gn_height ni0)
    as [Hli Hhi] by (by rewrite Hieq).
  assert (gn_level nj = gn_level nj0) as Hlj by (by rewrite Hjeq).
  rewrite Hli, Hlj in Hlt. rewrite Hhi.
  set (o := flatten_groups (levelGroups_of ns)).
  assert ((gn_level ni0, i) ∈ o) as Hino.
  { destruct (flatten_groups_member ns i ni0 Hni0) as (g & Hg & _ & Hin).
    apply flatten_groups_elem. by exists g. }
  assert ((gn_level nj0, j) ∈ o) as Hjno.
  { destruct (flatten_groups_member ns j nj0 Hnj0) as (g & Hg & _ & Hin).
    apply flatten_groups_elem. by exists g. }
  pose proof (flatten_groups_sorted ns) as Hs. fold o in Hs.
  pose proof (flatten_groups_NoDup ns _ (levelGroups_of_ok ns)) as Hnd.
  fold o in Hnd.
  rewrite positionNodes_flat in Hi, Hj. fold o in Hi, Hj.
  apply list_elem_of_split in Hino as (o1 & o2 & Ho).
  rewrite Ho in Hs, Hnd, Hi, Hj, Hjno.
  destruct (sorted_split _ _ _ _ Hs) as [Hbefore _].
  apply elem_of_app in Hjno as [Hjno|Hjno].
  { exfalso. eapply layout_before_asym; [exact Hlt|]. by apply Hbefore. }
  apply elem_of_cons in Hjno as [Hjno|Hjno].
  { exfalso. rewrite Hjno in Hlt. unfold layout_before in Hlt. simpl in Hlt. lia. }
  apply list_elem_of_split in Hjno as (o3 & o4 & Ho2). subst o2.
  destruct (fold_place_single o1 (o3 ++ (gn_level nj0, j) :: o4)
              (gn_level ni0, i) (ns, 50%Z) ni0 Hnd Hni0) as [Hyi Hci].
  simpl in Hyi. rewrite Hi in Hyi. injection Hyi as ->.
  assert (o1 ++ (gn_level ni0, i) :: o3 ++ (gn_level nj0, j) :: o4
          = (o1 ++ (gn_level ni0, i) :: o3) ++ (gn_level nj0, j) :: o4) as Hre.
  { by rewrite <- app_assoc. }
  rewrite Hre in Hnd, Hj.
  destruct (fold_place_single (o1 ++ (gn_level ni0, i) :: o3) o4
              (gn_level nj0, j) (ns, 50%Z) nj0 Hnd Hnj0) as [Hyj _].
  simpl in Hyj. rewrite Hj in Hyj. injection Hyj as ->.
  cbn [set_position gn_y gn_height].
  assert (o1 ++ (gn_level ni0, i) :: o3 = (o1 ++ [(gn_level ni0, i)]) ++ o3)
    as -> by (by rewrite <- app_assoc).
  rewrite (fold_left_app _ (o1 ++ _) o3).
  rewrite <- Hci.
  apply fold_place_cursor. by apply fold_place_heights.
Qed.

Lemma build_heights (E : gset jsstring) (D : JSONValue) :
  Forall (λ n, (100 ≤ gn_height n ≤ 250)%Z) (nodes (build E D)).
Proof.
  apply Forall_forall. intros n' Hn'.
  destruct (build_nodes_elem E D n' Hn') as (n & _ & Hok & ->). simpl.
  destruct Hok as (_ & _ & _ & _ & _ & Hh & _).
  rewrite Hh. unfold extraHeight.
  destruct (hasChildren (gn_value n) && gn_isExpanded n); lia.
Qed.

Lemma document_tree_heights (E : gset jsstring) (D : JSONValue) :
  Forall (λ n, (0 ≤ gn_height n)%Z) (ts_nodes (document_tree E D)).
Proof.
  destruct (subtree_ok_all E D (js "root") None 0 0 (root_fresh 0)) as (Hok & _).
  eapply Forall_impl; [exact Hok|].
  intros n (_ & _ & _ & _ & _ & Hh & _). rewrite Hh. unfold extraHeight.
  destruct (hasChildren (gn_value n) && gn_isExpanded n); lia.
Qed.

Lemma build_stacked_all (E : gset jsstring) (D : JSONValue) (i j : nat)
    (ni nj : GraphNode) :
  nodes (build E D) !! i = Some ni → nodes (build E D) !! j = Some nj →
  layout_before (gn_level ni, i) (gn_level nj, j) →
  (gn_y ni + (gn_height ni + 30) ≤ gn_y nj)%Z.
Proof.
  rewrite build_eq. cbn [nodes].
  apply positionNodes_stacked, document_tree_heights.
Qed.

(** Of two nodes that follow each other in the order of the layout, the
    second is placed right below the first, whether or not they are on
    one level. *)
Lemma positionNodes_consecutive (ns : list GraphNode) (i j : nat)
    (ni nj : GraphNode) :
  positionNodes ns !! i = Some ni → positionNodes ns !! j = Some nj →
  layout_before (gn_level ni, i) (gn_level nj, j) →
  (∀ k nk, positionNodes ns !! k = Some nk →
           layout_before (gn_level ni, i) (gn_level nk, k) →
           layout_before (gn_level nk, k) (gn_level nj, j) → False) →
  gn_y nj = (gn_y ni + (gn_height ni + 30))%Z.
Proof.
  intros Hi Hj Hlt Hbetween.
  destruct (positionNodes_lookup ns i ni Hi) as (ni0 & Hni0 & Hieq).
  destruct (positionNodes_lookup ns j nj Hj) as (nj0 & Hnj0 & Hjeq).
  assert (gn_level ni = gn_level ni0 ∧ gn_height ni = gn_height ni0)
    as [Hli Hhi] by (by rewrite Hieq).
  assert (gn_level nj = gn_level nj0) as Hlj by (by rewrite Hjeq).
  rewrite Hli, Hlj in Hlt, Hbetween. rewrite Hhi.
  set (o := flatten_groups (levelGroups_of ns)).
  assert ((gn_level ni0, i) ∈ o) as Hino.
  { destruct (flatten_groups_member ns i ni0 Hni0) as (g & Hg & _ & Hin).
    apply flatten_groups_elem. by exists g. }
  assert ((gn_level nj0, j) ∈ o) as Hjno.
  { destruct (flatten_groups_member ns j nj0 Hnj0) as (g & Hg & _ & Hin).
    apply flatten_groups_elem. by exists g. }
  assert (∀ l k, (l, k) ∈ o →
            ∃ nk, positionNodes ns !! k = Some nk ∧ gn_level nk = l) as Hmem.
  { intros l k (g & Hg & Hk)%flatten_groups_elem.
    destruct (levelGroups_of_ok ns) as (_ & Hgm & _).
    rewrite (Hgm l g Hg) in Hk.
    apply level_members_lookup in Hk as (nk0 & Hnk0 & Hl).
    destruct (positionNodes_x ns k nk0 Hnk0) as (y & Hy).
    eexists. split; [exact Hy|done]. }
  pose proof (flatten_groups_sorted ns) as Hs. fold o in Hs.
  pose proof (flatten_groups_NoDup ns _ (levelGroups_of_ok ns)) as Hnd.
  fold o in Hnd.
  rewrite positionNodes_flat in Hi, Hj. fold o in Hi, Hj.
  apply list_elem_of_split in Hino as (o1 & o2 & Ho).
  rewrite Ho in Hs, Hnd, Hi, Hj, Hjno, Hmem.
  destruct (sorted_split _ _ _ _ Hs) as [Hbefore Hafter].
  apply elem_of_app in Hjno as [Hjno|Hjno].
  { exfalso. eapply layout_before_asym; [exact Hlt|]. by apply Hbefore. }
  apply elem_of_cons in Hjno as [Hjno|Hjno].
  { exfalso. rewrite Hjno in Hlt. unfold layout_before in Hlt. simpl in Hlt. lia. }
  apply list_elem_of_split in Hjno as (o3 & o4 & Ho2). subst o2.
  assert (o3 = []) as ->.
  { destruct o3 as [|[l k] o3]; [done|]. exfalso.
    destruct (Hmem l k) as (nk & Hnk & Hl).
    { apply elem_of_app. right. right. by left. }
    apply (Hbetween k nk Hnk); rewrite Hl.
    - apply Hafter. by left.
    - assert (o1 ++ (gn_level ni0, i) :: ((l, k) :: o3) ++ (gn_level nj0, j) :: o4
              = (o1 ++ (gn_level ni0, i) :: (l, k) :: o3)
                  ++ (gn_level nj0, j) :: o4) as Hre.
      { by rewrite <- app_assoc. }
      rewrite Hre in Hs.
      destruct (sorted_split _ _ _ _ Hs) as [Hbefore' _].
      apply Hbefore'. apply elem_of_app. right. right. by left. }
  simpl in *.
  destruct (fold_place_single o1 ((gn_level nj0, j) :: o4)
              (gn_level ni0, i) (ns, 50%Z) ni0 Hnd Hni0) as [Hyi Hci].
  simpl in Hyi. rewrite Hi in Hyi. injection Hyi as ->.
  assert (o1 ++ (gn_level ni0, i) :: (gn_level nj0, j) :: o4
          = (o1 ++ [(gn_level ni0, i)]) ++ (gn_level nj0, j) :: o4) as Hre.
  { by rewrite <- app_assoc. }
  rewrite Hre in Hnd, Hj.
  destruct (fold_place_single (o1 ++ [(gn_level ni0, i)]) o4
              (gn_level nj0, j) (ns, 50%Z) nj0 Hnd Hnj0) as [Hyj _].
  simpl in Hyj. rewrite Hj in Hyj. injection Hyj as ->.
  cbn [set_position gn_y gn_height]. exact Hci.
Qed.
(* ===================================================================== *)
(** ** Looking nodes up by id *)
(* ===================================================================== *)

Lemma find_node_ids (ns : list GraphNode) (k : nat) :
  ids_from 0 ns → find_node ns (node_id_string k) = ns !! k.
Proof.
  intros Hids. unfold find_node, ids_from in *.
  assert (∀ j n, ns !! j = Some n → gn_id n = node_id_string j) as Hid.
  { intros j n Hn.
    assert ((gn_id <$> ns) !! j = Some (gn_id n)) as H
      by (by rewrite list_lookup_fmap, Hn).
    rewrite Hids, list_lookup_fmap in H.
    destruct (seq 0 (length ns) !! j) as [j'|] eqn:Hj; simpl in H; [|done].
    apply lookup_seq in Hj as [-> _]. by injection H as <-. }
  destruct (list_find (λ n, gn_id n = node_id_string k) ns) as [[i x]|] eqn:Hf;
    simpl.
  - apply list_find_Some in Hf as (Hi & Hx & _).
    rewrite (Hid i x Hi) in Hx. apply node_id_string_inj in Hx as ->. done.
  - apply list_find_None in Hf.
    destruct (ns !! k) as [n|] eqn:Hn; [|done].
    exfalso. eapply Forall_forall in Hf; [|by eapply list_elem_of_lookup_2].
    apply Hf. by apply Hid.
Qed.

Lemma build_ids_from (E : gset jsstring) (D : JSONValue) :
  ids_from 0 (nodes (build E D)).
Proof. apply build_ids. Qed.

Lemma find_node_build (E : gset jsstring) (D : JSONValue) (k : nat) :
  find_node (nodes (build E D)) (node_id_string k) = nodes (build E D) !! k.
Proof. apply find_node_ids, build_ids_from. Qed.

Lemma find_node_elem (E : gset jsstring) (D : JSONValue) (n : GraphNode) :
  n ∈ nodes (build E D) → find_node (nodes (build E D)) (gn_id n) = Some n.
Proof.
  intros [k Hk]%list_elem_of_lookup.
  by rewrite (build_lookup_id E D k n Hk), find_node_build.
Qed.

Lemma children_of_elem (ns : list GraphNode) (i : jsstring) (c : GraphNode) :
  c ∈ children_of ns i ↔ c ∈ ns ∧ gn_parent c = Some i.
Proof. unfold children_of. rewrite list_elem_of_filter. tauto. Qed.

Lemma find_children (E : gset jsstring) (D : JSONValue) (n : GraphNode) :
  n ∈ nodes (build E D) →
  find_node (nodes (build E D)) <$> gn_children n
    = Some <$> children_of (nodes (build E D)) (gn_id n).
Proof.
  intros Hn. pose proof (build_family E D) as Hfam.
  eapply Forall_forall in Hfam as (Hch & _); [|exact Hn].
  rewrite Hch, <- list_fmap_compose.
  apply list_fmap_ext. intros j c Hc. simpl.
  apply find_node_elem.
  apply list_elem_of_lookup_2, children_of_elem in Hc. tauto.
Qed.

Lemma build_types (E : gset jsstring) (D : JSONValue) :
  Forall (λ n, gn_type n = node_type (gn_value n) ∧ gn_width n = 220%Z)
         (nodes (build E D)).
Proof.
  apply Forall_forall. intros n' Hn'.
  destruct (build_nodes_elem E D n' Hn') as (n & _ & Hok & ->). simpl.
  destruct Hok as (Ht & _ & _ & Hw & _). by split.
Qed.

Lemma build_x (E : gset jsstring) (D : JSONValue) :
  Forall (λ n, gn_x n = (Z.of_nat (gn_level n) * 300 + 50)%Z)
         (nodes (build E D)).
Proof.
  apply Forall_forall. intros n' [i Hi]%list_elem_of_lookup.
  rewrite build_eq in Hi. cbn [nodes] in Hi.
  destruct (positionNodes_lookup _ i n' Hi) as (n & Hn & Heq).
  destruct (positionNodes_x _ i n Hn) as (y & Hx).
  rewrite Hi in Hx. by injection Hx as ->.
Qed.

(* ===================================================================== *)
(** ** The values shown by the graph *)
(* ===================================================================== *)

Lemma json_values_entries (v : JSONValue) :
  json_values v = v :: (child_entries v ≫= (λ kv, json_values kv.2)).
Proof.
  destruct v as [| | | |items|props]; try reflexivity; simpl; f_equal.
  - generalize index_key.
    induction items as [|item items IH]; intros f; [done|].
    rewrite imap_cons, bind_cons. cbn [snd]. f_equal. apply (IH (f ∘ S)).
  - induction props as [|[k c] props IH]; [done|].
    rewrite bind_cons. cbn [snd]. by f_equal.
Qed.

Lemma children_fold_values (E : gset jsstring) (m level : nat)
    (l : list (jsstring * JSONValue)) :
  Forall (λ kv, values_ok E kv.2) l →
  ∀ m1, m < m1 →
    gn_value <$> ts_nodes (children_fold E (node_id_string m) level l m1).2
      `sublist_of` (l ≫= (λ kv, json_values kv.2)) ∧
    ((∀ k, m1 ≤ k → k < m1 + length (l ≫= (λ kv, json_values kv.2)) →
           node_id_string k ∈ E) →
     gn_value <$> ts_nodes (children_fold E (node_id_string m) level l m1).2
       = l ≫= (λ kv, json_values kv.2)).
Proof.
  induction 1 as [|kv l Hkv _ IH]; intros m1 Hlt; [done|].
  assert (∀ q, Some (node_id_string m) = Some q → fresh_from m1 q) as Hfresh.
  { intros q [= <-]. by apply fresh_from_id. }
  destruct (Hkv kv.1 (Some (node_id_string m)) (S level) m1 Hfresh)
    as [Hsub Hall].
  destruct (subtree_ids E kv.2 kv.1 (Some (node_id_string m)) (S level) m1 Hfresh)
    as (_ & Hcnt).
  cbn [children_fold snd ts_nodes]. rewrite fmap_app, bind_cons.
  destruct (IH (ts_nodeId (subtree E kv.2 kv.1 (Some (node_id_string m)) (S level) m1))
              ltac:(lia)) as [Hsub' Hall'].
  split; [by apply sublist_app|].
  intros HE. rewrite length_app in HE.
  rewrite Hall by (intros k ? ?; apply HE; lia).
  rewrite Hall'; [done|].
  intros k Hk1 Hk2. apply HE; [lia|].
  rewrite Hcnt in Hk1, Hk2.
  rewrite <- (length_fmap gn_value), Hall in Hk1, Hk2
    by (intros k' ? ?; apply HE; lia).
  lia.
Qed.

Lemma values_ok_all (E : gset jsstring) (v : JSONValue) : values_ok E v.
Proof.
  induction v as [v IH] using JSONValue_entries_ind.
  intros key p level m Hp.
  rewrite (subtree_unfold E v key p level m Hp), json_values_entries.
  destruct (hasChildren v && bool_decide (node_id_string m ∈ E)) eqn:Hc;
    cbn [ts_nodes].
  - destruct (children_fold_values E m level (child_entries v) IH (S m)
                ltac:(lia)) as [Hsub Hall].
    rewrite fmap_cons. cbn [set_children gn_value new_node].
    split; [by apply sublist_skip|].
    intros HE. f_equal. apply Hall.
    intros k Hk1 Hk2. apply HE; [lia|]. simpl. lia.
  - simpl. split; [apply sublist_skip, sublist_nil_l|].
    intros HE. f_equal.
    assert (node_id_string m ∈ E) as Hm by (apply HE; simpl; lia).
    rewrite (bool_decide_eq_true_2 _ Hm), andb_true_r in Hc.
    rewrite hasChildren_entries in Hc.
    destruct (child_entries v); [done|]. simpl in Hc. done.
Qed.

Lemma build_values (E : gset jsstring) (D : JSONValue) :
  gn_value <$> nodes (build E D)
    = gn_value <$> ts_nodes (document_tree E D).
Proof.
  rewrite build_eq. cbn [nodes].
  rewrite <- (fmap_erase gn_value (positionNodes _)) by done.
  rewrite positionNodes_erase. by apply fmap_erase.
Qed.

Lemma elem_of_first_ids (n k : nat) :
  node_id_string k ∈ first_ids n ↔ k < n.
Proof.
  unfold first_ids. rewrite elem_of_list_to_set, list_elem_of_fmap. split.
  - intros (j & Heq & Hj). apply node_id_string_inj in Heq as ->.
    apply elem_of_seq in Hj. lia.
  - intros Hk. exists k. split; [done|]. apply elem_of_seq. lia.
Qed.

(* ===================================================================== *)
(** ** The expand/collapse button *)
(* ===================================================================== *)

Lemma shows_toggle_build (E : gset jsstring) (D : JSONValue) :
  Forall (λ n, shows_toggle n = hasChildren (gn_value n)) (nodes (build E D)).
Proof.
  pose proof (build_types E D) as Ht.
  pose proof (build_children_length E D) as Hl.
  apply Forall_forall. intros n Hn.
  eapply Forall_forall in Ht as [Ht _]; [|exact Hn].
  eapply Forall_forall in Hl; [|exact Hn]. simpl in Hl.
  unfold shows_toggle. rewrite Ht, Hl.
  unfold hasChildren.
  destruct (gn_value n) as [| | | |[|x items]|[|kv props]] eqn:Hv;
    destruct (gn_isExpanded n); simpl; try done.
  all: unfold hasChildren; simpl; try done.
Qed.
(* ===================================================================== *)
(** ** The edges as drawn *)
(* ===================================================================== *)

Lemma build_heights_ok (E : gset jsstring) (D : JSONValue) :
  Forall (λ n, gn_height n
               = (100 + extraHeight (gn_value n) (gn_isExpanded n))%Z)
         (nodes (build E D)).
Proof.
  apply Forall_forall. intros n' Hn'.
  destruct (build_nodes_elem E D n' Hn') as (n & _ & Hok & ->). simpl.
  by destruct Hok as (_ & _ & _ & _ & _ & Hh & _).
Qed.

(** Every edge of the built graph is drawn: its path starts at the
    parent, ends 80 to the right at the child, bends half way, and
    descends by at least 130. *)
Lemma renderEdge_build (E : gset jsstring) (D : JSONValue) (e : GraphEdge) :
  e ∈ edges (build E D) →
  ∃ p, renderEdge (nodes (build E D)) e = Some p ∧
       QArith_base.Qeq (ep_toX p) (QArith_base.Qplus (ep_fromX p) (Qof 80)) ∧
       QArith_base.Qeq (ep_midX p) (QArith_base.Qplus (ep_fromX p) (Qof 40)) ∧
       QArith_base.Qle (QArith_base.Qplus (ep_fromY p) (Qof 130)) (ep_toY p).
Proof.
  intros He.
  pose proof (build_edges_link E D) as Hlink.
  eapply Forall_forall in Hlink
    as (pn & cn & Hpn & Hcn & Hfrom & Hto & Hpar & _ & Hlev); [|exact He].
  unfold renderEdge.
  rewrite <- Hfrom, <- Hto, !find_node_elem by done.
  eexists. split; [done|]. cbn [ep_toX ep_fromX ep_midX ep_fromY ep_toY].
  pose proof (build_x E D) as Hx. pose proof (build_types E D) as Hw.
  pose proof (build_heights E D) as Hh.
  assert (gn_x pn = (Z.of_nat (gn_level pn) * 300 + 50)%Z) as Hxp
    by (by eapply Forall_forall in Hx).
  assert (gn_x cn = (Z.of_nat (gn_level cn) * 300 + 50)%Z) as Hxc
    by (by eapply Forall_forall in Hx).
  assert (gn_width pn = 220%Z) as Hwp.
  { eapply Forall_forall in Hw; [|exact Hpn]. tauto. }
  assert (100 ≤ gn_height pn)%Z as Hhp.
  { eapply Forall_forall in Hh; [|exact Hpn]. simpl in Hh. lia. }
  assert (100 ≤ gn_height cn)%Z as Hhc.
  { eapply Forall_forall in Hh; [|exact Hcn]. simpl in Hh. lia. }
  assert (gn_y pn + (gn_height pn + 30) ≤ gn_y cn)%Z as Hy.
  { apply list_elem_of_lookup in Hpn as [a Ha].
    apply list_elem_of_lookup in Hcn as [b Hb].
    apply (build_stacked_all E D a b pn cn Ha Hb).
    left. simpl. lia. }
  rewrite Hxp, Hxc, Hwp, Hlev.
  unfold QArith_base.Qeq, QArith_base.Qle, QArith_base.Qplus, half,
    QArith_base.Qdiv, QArith_base.Qmult, QArith_base.Qinv, QArith_base.Qminus,
    QArith_base.Qopp, Qof, QArith_base.inject_Z.
  simpl. lia.
Qed.

(* ===================================================================== *)
(** ** The preview rows of a node card *)
(* ===================================================================== *)

Lemma preview_rows (Number_toString : spec_float → jsstring) (v : JSONValue) :
  (λ r, (pr_key r, pr_type r)) <$> getObjectPreview Number_toString v (node_type v)
    = take 3 ((λ kv, (kv.1, node_type kv.2)) <$> child_entries v).
Proof.
  destruct v as [| | | |items|props]; try reflexivity.
  - destruct items as [|a [|b [|c items]]]; reflexivity.
  - unfold getObjectPreview. simpl.
    rewrite <- fmap_take, <- list_fmap_compose. done.
Qed.

Lemma preview_of_length (Number_toString : spec_float → jsstring)
    (v : JSONValue) (s : jsstring) :
  preview_of Number_toString v = Some s → length s ≤ 20.
Proof.
  destruct v as [|b|x|t|items|props]; cbn [preview_of]; intros [= <-].
  - destruct b; simpl; lia.
  - rewrite length_take. lia.
  - cbn [length]. rewrite !length_app, length_take. unfold quote.
    destruct (15 <? length t);
      [change (length (js "...")) with 3|]; cbn [length]; lia.
  - simpl. lia.
  - simpl. lia.
Qed.

Lemma getObjectPreview_texts (Number_toString : spec_float → jsstring)
    (v : JSONValue) (t : NodeType) :
  Forall (λ r, ∀ s, pr_preview r = Some s → length s ≤ 20)
         (getObjectPreview Number_toString v t).
Proof.
  unfold getObjectPreview.
  destruct (NodeType_eqb t TObject && negb (isNull v)).
  - apply Forall_fmap, Forall_forall. intros kv _ s. simpl.
    apply preview_of_length.
  - destruct (NodeType_eqb t TArray); [|constructor].
    apply Forall_forall. intros r Hr.
    apply elem_of_lookup_imap in Hr as (i & val & -> & _). simpl.
    intros s. apply preview_of_length.
Qed.

(** The rows of an expanded node are those of its first three children. *)
Lemma preview_rows_children (Number_toString : spec_float → jsstring)
    (E : gset jsstring) (D : JSONValue) (n : GraphNode) :
  n ∈ nodes (build E D) →
  hasChildren (gn_value n) && gn_isExpanded n = true →
  (λ r, (pr_key r, pr_type r))
    <$> getObjectPreview Number_toString (gn_value n) (gn_type n)
  = take 3 ((λ c, (gn_key c, gn_type c))
              <$> children_of (nodes (build E D)) (gn_id n)).
Proof.
  intros Hn Hexp.
  pose proof (build_types E D) as Ht.
  pose proof (build_family E D) as Hfam.
  eapply Forall_forall in Hfam as (_ & Hkv & _); [|exact Hn].
  rewrite Hexp in Hkv.
  assert (gn_type n = node_type (gn_value n)) as ->.
  { eapply Forall_forall in Ht; [|exact Hn]. tauto. }
  rewrite preview_rows, <- Hkv, <- list_fmap_compose. f_equal.
  apply list_fmap_ext. intros i c Hc. simpl.
  apply list_elem_of_lookup_2, children_of_elem in Hc as [Hc _].
  eapply Forall_forall in Ht; [|exact Hc]. destruct Ht as [-> _]. done.
Qed.

(** The text lines of the preview block lie within the card of an
    expanded node, and within the card of a collapsed node only when
    its value has at most two entries. *)
Lemma preview_lines_fit (Number_toString : spec_float → jsstring)
    (n : GraphNode) :
  gn_type n = node_type (gn_value n) →
  gn_height n = (100 + extraHeight (gn_value n) (gn_isExpanded n))%Z →
  Forall (λ y, (y ≤ gn_y n + gn_height n)%Z) (preview_lines Number_toString n)
  ↔ gn_isExpanded n = true ∨ length (child_entries (gn_value n)) ≤ 2.
Proof.
  intros Ht Hh. unfold preview_lines. rewrite Hh, Ht. unfold extraHeight.
  rewrite hasChildren_entries, preview_keys_length.
  destruct (gn_value n) as [|b|x|t|items|props]; simpl;
    try (split; [intros _; right; lia|constructor]).
  - destruct items as [|a1 [|a2 [|a3 [|a4 items]]]];
      destruct (gn_isExpanded n); simpl;
      rewrite ?Forall_cons, ?Forall_nil; try rewrite length_imap; simpl;
      split; try lia; intros; split_and?; try lia; try done.
    all: try (left; done). 
    all: try (right; lia).
  - unfold Object_keys. simpl.
    destruct props as [|a1 [|a2 [|a3 [|a4 props]]]];
      destruct (gn_isExpanded n); simpl;
      rewrite ?Forall_cons, ?Forall_nil; try rewrite length_fmap; simpl;
      split; try lia; intros; split_and?; try lia; try done.
    all: try (left; done).
    all: try (right; lia).
Qed.
(* ===================================================================== *)
(** ** The canvas handlers *)
(* ===================================================================== *)

Lemma f1_2_eq : f1_2 = S754_finite false 5404319552844595 (-52).
Proof. vm_compute. reflexivity. Qed.

Lemma fmul_nan_l (y : spec_float) : fmul S754_nan y = S754_nan.
Proof. by destruct y. Qed.

Lemma fdiv_nan_l (y : spec_float) : fdiv S754_nan y = S754_nan.
Proof. by destruct y. Qed.

Lemma clamp_zoom_nan : clamp_zoom S754_nan = S754_nan.
Proof. vm_compute. reflexivity. Qed.

Lemma is_nan_eq (x : spec_float) : is_nan x = true → x = S754_nan.
Proof. by destruct x. Qed.

(** A zoom that is NaN is left NaN by the wheel and by the pinch. *)
Lemma handle_nan (v : Viewport) (ev : ViewportEvent) :
  is_nan (zoom v) = true → is_nan (zoom (handle v ev)) = true.
Proof.
  intros Hz. pose proof (is_nan_eq _ Hz) as Hn.
  destruct ev as [c m d|ts|ts|]; simpl.
  - unfold handleWheel. destruct (c || m); [|done].
    cbn [zoom]. by rewrite Hn, fmul_nan_l, clamp_zoom_nan.
  - unfold handleTouchStart. by destruct (length ts =? 2).
  - rewrite handleTouchMove_scale.
    destruct (pinch_scale v ts); [|done].
    cbn [zoom]. by rewrite Hn, fmul_nan_l, clamp_zoom_nan.
  - done.
Qed.

Lemma canvas_handle_nan (c : Canvas) (ev : CanvasEvent) :
  resets_zoom ev = false →
  is_nan (zoom (cv_view c)) = true →
  is_nan (zoom (cv_view (canvas_handle c ev))) = true.
Proof.
  intros Hev Hz. pose proof (is_nan_eq _ Hz) as Hn.
  destruct ev as [ev|[|] x y|x y| | |[|] now| | | | |i]; try done; simpl.
  - by apply handle_nan.
  - unfold handleMouseMove. by destruct (cv_isDragging c).
  - unfold handleZoomIn. by rewrite Hn, fmul_nan_l.
  - unfold handleZoomOut. by rewrite Hn, fdiv_nan_l.
  - unfold handleNodeClick. by destruct (decide _).
Qed.

(** The three resets install a zoom within the range. *)
Lemma canvas_reset_in_range (c : Canvas) (now : Z) :
  zoom_in_range (zoom (cv_view (handleResetView c))) = true ∧
  zoom_in_range (zoom (cv_view (handleRecenter c))) = true ∧
  ((now - cv_lastTap c < 300)%Z →
   zoom_in_range (zoom (cv_view (handleDoubleClick true now c))) = true).
Proof.
  split_and!; [by vm_compute..|].
  intros Hlt%Z.ltb_lt. unfold handleDoubleClick. rewrite Hlt.
  cbn [cv_view set_pan set_zoom set_view zoom].
  by destruct (SFeqb _ _); vm_compute.
Qed.

(** Without a press on the canvas, a double click or a reset, the view
    does not move and no drag starts. *)
Lemma canvas_handle_pan (c : Canvas) (ev : CanvasEvent) :
  moves_view ev = false → cv_isDragging c = false →
  cv_pan (canvas_handle c ev) = cv_pan c ∧
  cv_isDragging (canvas_handle c ev) = false.
Proof.
  intros Hev Hd.
  destruct ev as [ev|[|] x y|x y| | |[|] now| | | | |i]; try done; simpl.
  - unfold handleMouseMove. by rewrite Hd.
  - unfold handleNodeClick. by destruct (decide _).
Qed.

Lemma fdiv_not_nan_finite (x : spec_float) (s : bool) (m : positive) (e : Z) :
  is_nan x = false → is_nan (fdiv x (S754_finite s m e)) = false.
Proof.
  intros Hx. destruct x as [sx|sx| |sx mx ex]; try done.
  apply fdiv_finite_not_nan.
Qed.

Lemma SFcompare_nan (x y : spec_float) :
  SFcompare x y = None → is_nan x = true ∨ is_nan y = true.
Proof.
  destruct x as [sx|sx| |sx mx ex], y as [sy|sy| |sy my ey]; simpl;
    try (by left); try (by right); try discriminate.
  all: repeat match goal with
              | |- context [match ?b with true => _ | false => _ end] =>
                  is_var b; destruct b
              end; try discriminate.
  all: try (by destruct (Z.compare ex ey); try destruct (CompOpp _)).
Qed.

Lemma Math_min_le (x : spec_float) :
  is_nan x = false →
  is_nan (Math_min x f3) = false ∧ SFleb (Math_min x f3) f3 = true.
Proof.
  intros Hx. unfold Math_min.
  destruct (SFcompare x f3) as [[| |]|] eqn:Hc.
  - destruct x as [[|]| | |]; by vm_compute.
  - split; [done|]. unfold SFleb. by rewrite Hc.
  - by vm_compute.
  - apply SFcompare_nan in Hc as [Hc|Hc]; [congruence|by vm_compute in Hc].
Qed.

Lemma Math_max_ge (x : spec_float) :
  is_nan x = false →
  is_nan (Math_max x f0_1) = false ∧ SFleb f0_1 (Math_max x f0_1) = true.
Proof.
  intros Hx. unfold Math_max.
  destruct (SFcompare x f0_1) as [[| |]|] eqn:Hc.
  - destruct x as [[|]| | |]; by vm_compute.
  - by vm_compute.
  - split; [done|]. unfold SFleb.
    by rewrite (SFcompare_antisym _ _ _ Hc).
  - apply SFcompare_nan in Hc as [Hc|Hc]; [congruence|by vm_compute in Hc].
Qed.

(* ===================================================================== *)
(** ** Ids are assigned in traversal order *)
(* ===================================================================== *)

Lemma new_node_agree (E E' : gset jsstring) (i key : jsstring)
    (v : JSONValue) (p : option jsstring) (level : nat) :
  (i ∈ E ↔ i ∈ E') →
  new_node E' i key v p level = new_node E i key v p level.
Proof.
  intros H. unfold new_node.
  by rewrite (bool_decide_ext (i ∈ E') (i ∈ E)) by tauto.
Qed.

(** A subtree whose ids all lie below [k] is the same under both sets. *)
Lemma subtree_agree (E E' : gset jsstring) (v : JSONValue) (key : jsstring)
    (p : option jsstring) (level m k : nat) :
  (∀ q, p = Some q → fresh_from m q) →
  (∀ j, m ≤ j → j < k → node_id_string j ∈ E ↔ node_id_string j ∈ E') →
  m + length (ts_nodes (subtree E v key p level m)) ≤ k →
  subtree E' v key p level m = subtree E v key p level m.
Proof.
  intros Hp Hag Hlen.
  destruct (subtree_ids E v key p level m Hp) as [Hids _].
  destruct (subtree_ok_all E v key p level m Hp) as (Hok & _).
  assert (∀ n, n ∈ ts_nodes (subtree E v key p level m) →
            gn_id n ∈ E ↔ gn_id n ∈ E') as Hin.
  { intros n [i Hi]%list_elem_of_lookup.
    assert ((gn_id <$> ts_nodes (subtree E v key p level m)) !! i
            = Some (gn_id n)) as H by (by rewrite list_lookup_fmap, Hi).
    unfold ids_from in Hids. rewrite Hids, list_lookup_fmap in H.
    destruct (seq m _ !! i) as [j|] eqn:Hj; simpl in H; [|done].
    apply lookup_seq in Hj as [-> Hlt]. injection H as <-.
    apply Hag; lia. }
  rewrite (sim_ok_all E E' v key p level m Hp).
  2:{ apply Forall_forall. intros n Hn. left.
      apply bool_decide_ext. by apply Hin. }
  destruct (subtree E v key p level m) as [ns es c]. unfold mirror_state.
  cbn [ts_nodes ts_edges ts_nodeId] in *. f_equal.
  rewrite <- (list_fmap_id ns) at 2. apply Forall_fmap_ext_1.
  apply Forall_forall. intros n Hn.
  eapply Forall_forall in Hok; [|exact Hn].
  destruct Hok as (_ & _ & _ & _ & Hexp & _).
  unfold mirror, set_isExpanded. destruct n. simpl in *. f_equal.
  rewrite Hexp. symmetry. apply bool_decide_ext. by apply (Hin _ Hn).
Qed.

Lemma children_fold_prefix (E E' : gset jsstring) (m level : nat)
    (l : list (jsstring * JSONValue)) :
  Forall (λ kv, prefix_ok E E' kv.2) l →
  ∀ m1 k, m < m1 →
    (∀ j, m1 ≤ j → j < k → node_id_string j ∈ E ↔ node_id_string j ∈ E') →
    take (S k - m1)
      (label <$> ts_nodes (children_fold E (node_id_string m) level l m1).2)
    = take (S k - m1)
        (label <$> ts_nodes (children_fold E' (node_id_string m) level l m1).2)
    ∧ take (k - m1)
        (created <$> ts_nodes (children_fold E (node_id_string m) level l m1).2)
      = take (k - m1)
          (created <$> ts_nodes (children_fold E' (node_id_string m) level l m1).2).
Proof.
  induction 1 as [|kv l Hkv _ IH]; intros m1 k Hlt Hag; [done|].
  assert (∀ q, Some (node_id_string m) = Some q → fresh_from m1 q) as Hfresh.
  { intros q [= <-]. by apply fresh_from_id. }
  cbn [children_fold snd ts_nodes]. rewrite !fmap_app, !take_app, !length_fmap.
  destruct (subtree_ids E kv.2 kv.1 (Some (node_id_string m)) (S level) m1 Hfresh)
    as (_ & Hcnt).
  destruct (subtree_ids E' kv.2 kv.1 (Some (node_id_string m)) (S level) m1 Hfresh)
    as (_ & Hcnt').
  set (s := subtree E kv.2 kv.1 (Some (node_id_string m)) (S level) m1) in *.
  set (s' := subtree E' kv.2 kv.1 (Some (node_id_string m)) (S level) m1) in *.
  destruct (decide (m1 + length (ts_nodes s) ≤ k)) as [Hall|Hpart].
  - assert (s' = s) as Heq by (by apply (subtree_agree E E' _ _ _ _ m1 k)).
    rewrite Heq. rewrite Hcnt.
    destruct (IH (m1 + length (ts_nodes s)) k ltac:(lia)) as [Hl Hc].
    { intros j ? ?. apply Hag; lia. }
    replace (S k - m1 - length (ts_nodes s))
      with (S k - (m1 + length (ts_nodes s))) by lia.
    replace (k - m1 - length (ts_nodes s))
      with (k - (m1 + length (ts_nodes s))) by lia.
    by rewrite Hl, Hc.
  - destruct (Hkv kv.1 (Some (node_id_string m)) (S level) m1 k Hfresh Hag)
      as [Hl Hc]. fold s s' in Hl, Hc.
    assert (S k - m1 ≤ length (ts_nodes s')) as Hlen'.
    { apply (f_equal length) in Hl.
      rewrite !length_take, !length_fmap in Hl. lia. }
    replace (S k - m1 - length (ts_nodes s)) with 0 by lia.
    replace (S k - m1 - length (ts_nodes s')) with 0 by lia.
    replace (k - m1 - length (ts_nodes s)) with 0 by lia.
    replace (k - m1 - length (ts_nodes s')) with 0 by lia.
    by rewrite Hl, Hc.
Qed.

Lemma prefix_ok_all (E E' : gset jsstring) (v : JSONValue) : prefix_ok E E' v.
Proof.
  induction v as [v IH] using JSONValue_entries_ind.
  intros key p level m k Hp Hag.
  rewrite (subtree_unfold E v key p level m Hp).
  rewrite (subtree_unfold E' v key p level m Hp).
  destruct (decide (k < m)) as [Hkm|Hkm].
  { replace (S k - m) with 0 by lia. replace (k - m) with 0 by lia. done. }
  destruct (decide (k = m)) as [->|Hne].
  { replace (S m - m) with 1 by lia. replace (m - m) with 0 by lia.
    split; [|done].
    by destruct (hasChildren v && bool_decide (node_id_string m ∈ E)),
                (hasChildren v && bool_decide (node_id_string m ∈ E')). }
  assert (node_id_string m ∈ E ↔ node_id_string m ∈ E') as Hm
    by (apply Hag; lia).
  rewrite (bool_decide_ext (node_id_string m ∈ E') (node_id_string m ∈ E))
    by tauto.
  rewrite (new_node_agree E E' _ _ _ _ _ Hm).
  destruct (hasChildren v && bool_decide (node_id_string m ∈ E)); [|done].
  cbn [ts_nodes].
  destruct (children_fold_prefix E E' m level (child_entries v) IH (S m) k
              ltac:(lia)) as [Hl Hc].
  { intros j ? ?. apply Hag; lia. }
  replace (S k - m) with (S (S k - S m)) by lia.
  replace (k - m) with (S (k - S m)) by lia.
  rewrite !fmap_cons. cbn [take]. split.
  - f_equal. exact Hl.
  - f_equal. exact Hc.
Qed.

Lemma build_labels (E : gset jsstring) (D : JSONValue) :
  label <$> nodes (build E D) = label <$> ts_nodes (document_tree E D) ∧
  created <$> nodes (build E D) = created <$> ts_nodes (document_tree E D).
Proof.
  rewrite build_eq. cbn [nodes]. split.
  - rewrite <- (fmap_erase label (positionNodes _)) by done.
    rewrite positionNodes_erase. by apply fmap_erase.
  - rewrite <- (fmap_erase created (positionNodes _)) by done.
    rewrite positionNodes_erase. by apply fmap_erase.
Qed.
(* ===================================================================== *)
(** ** Further properties of the graph, the cards and the canvas *)
(* ===================================================================== *)

(** X1.  The built graph is the tree of the traversal.  Its first node is
    the root: key ['root'], the document as value, level 0, no parent.
    The [children] list of every node holds the ids of the nodes that
    name it as [parent], in the order of [nodes]; these nodes carry the
    entries of its value, in source order, when the node is expanded and
    has entries, and there are none otherwise; each is one level below. *)
Theorem children_match_parents (E : gset jsstring) (D : JSONValue) :
  (∃ root rest,
     nodes (build E D) = root :: rest ∧
     gn_key root = js "root" ∧ gn_value root = D ∧
     gn_level root = 0 ∧ gn_parent root = None) ∧
  Forall (family_ok (nodes (build E D))) (nodes (build E D)).
Proof.
  split; [|apply build_family].
  destruct (build_root E D) as (c & rest & ->).
  by eexists _, rest.
Qed.

(** X2.  The edges are read off the nodes: one edge per node with a
    parent, in the order of [nodes]; every edge leads from an expanded
    node of the graph to one of its children, one level deeper. *)
Theorem edges_link_parent_to_child (E : gset jsstring) (D : JSONValue) :
  edges (build E D) = edges_of (nodes (build E D)) ∧
  Forall (λ e, ∃ pn cn,
            pn ∈ nodes (build E D) ∧ cn ∈ nodes (build E D) ∧
            gn_id pn = ge_from e ∧ gn_id cn = ge_to e ∧
            gn_parent cn = Some (gn_id pn) ∧
            ge_to e ∈ gn_children pn ∧
            gn_level cn = S (gn_level pn) ∧
            gn_isExpanded pn = true)
         (edges (build E D)).
Proof.
  split; [apply build_edges_of|].
  eapply Forall_impl; [apply build_edges_link|].
  intros e (pn & cn & Hpn & Hcn & Hfrom & Hto & Hpar & Hin & Hlev).
  exists pn, cn. split_and!; try done.
  pose proof (build_family E D) as Hfam.
  eapply Forall_forall in Hfam as (_ & Hkv & _); [|exact Hpn].
  assert (cn ∈ children_of (nodes (build E D)) (gn_id pn)) as Hkid.
  { apply children_of_elem. by split. }
  destruct (hasChildren (gn_value pn)); destruct (gn_isExpanded pn);
    cbn [andb] in Hkv; try done.
  all: apply fmap_nil_inv in Hkv; rewrite Hkv in Hkid;
    by apply elem_of_nil in Hkid.
Qed.

(** X3.  Looking a node up by id finds the node at the position the id
    names: [node-k] resolves to [nodes[k]], and to nothing when the graph
    has no such position.  So the details panel shows the node selected,
    and lists one button per child, in order, with the key and the type
    of the child. *)
Theorem ids_resolve (E : gset jsstring) (D : JSONValue) :
  (∀ k, find_node (nodes (build E D)) (node_id_string k)
        = nodes (build E D) !! k) ∧
  (∀ k, selectedNodeData (nodes (build E D)) (Some (node_id_string k))
        = nodes (build E D) !! k) ∧
  Forall (λ n, find_node (nodes (build E D)) (gn_id n) = Some n ∧
               panel_children (nodes (build E D)) n
               = (λ c, Some (gn_key c, gn_type c))
                   <$> children_of (nodes (build E D)) (gn_id n))
         (nodes (build E D)).
Proof.
  split_and!.
  - apply find_node_build.
  - intros k. unfold selectedNodeData.
    rewrite node_id_string_truthy. apply find_node_build.
  - apply Forall_forall. intros n Hn. split; [by apply find_node_elem|].
    unfold panel_children.
    transitivity (fmap (λ child : GraphNode, (gn_key child, gn_type child))
                    <$> (find_node (nodes (build E D)) <$> gn_children n)).
    { by rewrite <- list_fmap_compose. }
    rewrite (find_children E D n Hn), <- list_fmap_compose. done.
Qed.

(** X4.  The values of the nodes form a subsequence of the values of
    the document in document order; with every id below the number of
    values in the expansion set, the graph has a node for each value of
    the document, in that order. *)
Theorem graph_values (E : gset jsstring) (D : JSONValue) :
  gn_value <$> nodes (build E D) `sublist_of` json_values D ∧
  gn_value <$> nodes (build (E ∪ first_ids (length (json_values D))) D)
    = json_values D.
Proof.
  rewrite !build_values. unfold document_tree. split.
  - apply (values_ok_all E D (js "root") None 0 0 (root_fresh 0)).
  - apply (values_ok_all _ D (js "root") None 0 0 (root_fresh 0)).
    intros k _ Hk. apply elem_of_union_r, elem_of_first_ids. lia.
Qed.

(** X5.  The graph depends on the expansion set through the ids of its
    own nodes only: a set that agrees with it on these ids yields the
    same graph.  Ids left in the set by an earlier document or an earlier
    expansion state, which name no node, change nothing. *)
Theorem expansion_read_at_node_ids (E E' : gset jsstring) (D : JSONValue) :
  Forall (λ n, gn_id n ∈ E ↔ gn_id n ∈ E') (nodes (build E D)) →
  build E' D = build E D.
Proof.
  intros Hag.
  rewrite (build_mirror E E' D).
  2:{ eapply Forall_impl; [exact Hag|]. intros n Hn. left.
      by apply bool_decide_ext. }
  destruct (build E D) as [ns es] eqn:Hb. cbn [nodes edges]. f_equal.
  rewrite <- (list_fmap_id ns) at 2.
  apply Forall_fmap_ext_1.
  pose proof (build_isExpanded E D) as Hexp. rewrite Hb in Hexp.
  cbn [nodes] in Hexp, Hag.
  apply Forall_forall. intros n Hn.
  eapply Forall_forall in Hexp; [|exact Hn].
  eapply Forall_forall in Hag; [|exact Hn].
  unfold mirror, set_isExpanded. destruct n. simpl in *. f_equal.
  rewrite Hexp. symmetry. by apply bool_decide_ext.
Qed.

Lemma expansion_read_at_node_ids_witness :
  build (scenario_expanded ∪ {[ js "node-9" ]}) scenario_doc
    = build scenario_expanded scenario_doc.
Proof.
  apply (expansion_read_at_node_ids scenario_expanded
           (scenario_expanded ∪ {[ js "node-9" ]}) scenario_doc).
  apply Forall_forall. intros n [k Hk]%list_elem_of_lookup.
  pose proof (build_lookup_id _ _ k n Hk) as Hid.
  apply lookup_lt_Some in Hk.
  change (length (nodes (build scenario_expanded scenario_doc))) with 5 in Hk.
  rewrite Hid, elem_of_union, elem_of_singleton.
  split; [by left|]. intros [H|H]; [done|].
  apply (node_id_string_inj k 9) in H. lia.
Defined.

(** X6.  Ids are handed out in traversal order, so a change of the
    expansion set at [node-k] or later (a toggle of [node-k], say) leaves
    the nodes before [node-k] as they were created, with their id, key,
    value, type, parent, level, flag and height, and leaves [node-k] its
    key, value, type, parent and level; only later ids can come to name
    other values. *)
Theorem earlier_nodes_unchanged (E E' : gset jsstring) (D : JSONValue)
    (k : nat) :
  (∀ j, j < k → node_id_string j ∈ E ↔ node_id_string j ∈ E') →
  take (S k) (label <$> nodes (build E D))
    = take (S k) (label <$> nodes (build E' D)) ∧
  take k (created <$> nodes (build E D))
    = take k (created <$> nodes (build E' D)).
Proof.
  intros Hag.
  destruct (build_labels E D) as [-> ->].
  destruct (build_labels E' D) as [-> ->].
  destruct (prefix_ok_all E E' D (js "root") None 0 0 k (root_fresh 0))
    as [Hl Hc].
  { intros j _ Hj. by apply Hag. }
  rewrite !Nat.sub_0_r in Hl, Hc. by split.
Qed.

Lemma earlier_nodes_unchanged_witness :
  take 3 (label <$> nodes (build scenario_expanded scenario_doc))
    = take 3 (label <$> nodes
                (build (toggleNodeExpansion (js "node-2") scenario_expanded)
                   scenario_doc)) ∧
  take 2 (created <$> nodes (build scenario_expanded scenario_doc))
    = take 2 (created <$> nodes
                (build (toggleNodeExpansion (js "node-2") scenario_expanded)
                   scenario_doc)).
Proof.
  apply (earlier_nodes_unchanged scenario_expanded
           (toggleNodeExpansion (js "node-2") scenario_expanded)
           scenario_doc 2).
  intros j Hj.
  assert (node_id_string j ≠ js "node-2") as Hne.
  { intros H. apply (node_id_string_inj j 2) in H. lia. }
  assert (js "node-2" ∈ scenario_expanded) as Hin.
  { unfold scenario_expanded. set_solver. }
  unfold toggleNodeExpansion. rewrite (bool_decide_eq_true_2 _ Hin).
  set_solver.
Defined.

(** X7.  The layout stacks the nodes in one column order: by level, and
    within a level by position in [nodes].  A node that comes earlier in
    this order lies above one that comes later, which starts at least 30
    below its box; so the boxes of two nodes never overlap. *)
Theorem layout_stacked (E : gset jsstring) (D : JSONValue) (i j : nat)
    (ni nj : GraphNode) :
  nodes (build E D) !! i = Some ni → nodes (build E D) !! j = Some nj →
  i ≠ j →
  (layout_before (gn_level ni, i) (gn_level nj, j) →
   (gn_y ni + (gn_height ni + 30) ≤ gn_y nj)%Z) ∧
  ((gn_y ni + (gn_height ni + 30) ≤ gn_y nj)%Z ∨
   (gn_y nj + (gn_height nj + 30) ≤ gn_y ni)%Z).
Proof.
  intros Hi Hj Hne. split; [by apply (build_stacked_all E D i j)|].
  destruct (decide (layout_before (gn_level ni, i) (gn_level nj, j)))
    as [Hlt|Hge].
  - left. by apply (build_stacked_all E D i j).
  - right. apply (build_stacked_all E D j i); [done..|].
    unfold layout_before in *. simpl in *. lia.
Qed.

Lemma layout_stacked_witness :
  ∃ ni nj,
    nodes (build scenario_expanded scenario_doc) !! 3 = Some ni ∧
    nodes (build scenario_expanded scenario_doc) !! 1 = Some nj ∧
    (layout_before (gn_level ni, 3) (gn_level nj, 1) →
     (gn_y ni + (gn_height ni + 30) ≤ gn_y nj)%Z) ∧
    ((gn_y ni + (gn_height ni + 30) ≤ gn_y nj)%Z ∨
     (gn_y nj + (gn_height nj + 30) ≤ gn_y ni)%Z).
Proof.
  eexists _, _.
  split; [vm_compute; reflexivity|].
  split; [vm_compute; reflexivity|].
  apply (layout_stacked scenario_expanded scenario_doc 3 1).
  - vm_compute; reflexivity.
  - vm_compute; reflexivity.
  - lia.
Defined.

(** X8.  Of two nodes that follow each other in the order of the layout
    (by level, then by position in [nodes]), the second is placed exactly
    [height + 30] below the first, also when it opens the next level: the
    vertical cursor runs on from one level to the next. *)
Theorem layout_consecutive (E : gset jsstring) (D : JSONValue) (i j : nat)
    (ni nj : GraphNode) :
  nodes (build E D) !! i = Some ni → nodes (build E D) !! j = Some nj →
  layout_before (gn_level ni, i) (gn_level nj, j) →
  (∀ k nk, nodes (build E D) !! k = Some nk →
           layout_before (gn_level ni, i) (gn_level nk, k) →
           layout_before (gn_level nk, k) (gn_level nj, j) → False) →
  gn_y nj = (gn_y ni + (gn_height ni + 30))%Z.
Proof.
  rewrite build_eq. cbn [nodes]. apply positionNodes_consecutive.
Qed.

Lemma layout_consecutive_witness :
  ∃ ni nj,
    nodes (build scenario_expanded scenario_doc) !! 2 = Some ni ∧
    nodes (build scenario_expanded scenario_doc) !! 3 = Some nj ∧
    gn_level ni = 1 ∧ gn_level nj = 2 ∧
    gn_y nj = (gn_y ni + (gn_height ni + 30))%Z.
Proof.
  eexists _, _.
  split; [vm_compute; reflexivity|].
  split; [vm_compute; reflexivity|].
  split; [reflexivity|]. split; [reflexivity|].
  apply (layout_consecutive scenario_expanded scenario_doc 2 3).
  - vm_compute; reflexivity.
  - vm_compute; reflexivity.
  - left. simpl. lia.
  - intros k nk Hk H1 H2.
    destruct k as [|[|[|[|[|k]]]]]; vm_compute in Hk; try discriminate;
      injection Hk as <-; unfold layout_before in *; simpl in *; lia.
Defined.

(** X9.  [renderEdges] draws every edge of the built graph: both ends
    are found.  The path starts at the right side of the parent, ends 80
    further right at the left side of the child, has its control points
    half way (40), and descends by at least 130 from start to end. *)
Theorem edges_drawn (E : gset jsstring) (D : JSONValue) :
  length (renderEdges (build E D)) = length (edges (build E D)) ∧
  Forall (λ o, ∃ p,
            o = Some p ∧
            QArith_base.Qeq (ep_toX p)
              (QArith_base.Qplus (ep_fromX p) (Qof 80)) ∧
            QArith_base.Qeq (ep_midX p)
              (QArith_base.Qplus (ep_fromX p) (Qof 40)) ∧
            QArith_base.Qle (QArith_base.Qplus (ep_fromY p) (Qof 130))
              (ep_toY p))
         (renderEdges (build E D)).
Proof.
  unfold renderEdges. split; [apply length_fmap|].
  apply Forall_fmap, Forall_forall. intros e He. simpl.
  by apply renderEdge_build.
Qed.

(** X10.  The preview of a node card has at most three rows: those of the
    first three entries of the value, with the key and the type of each;
    for an expanded node these are the keys and types of its first three
    children.  No preview text is longer than 20 code units. *)
Theorem preview_rows_match_children
    (Number_toString : spec_float → jsstring)
    (E : gset jsstring) (D : JSONValue) :
  Forall (λ n,
      (λ r, (pr_key r, pr_type r))
        <$> getObjectPreview Number_toString (gn_value n) (gn_type n)
      = take 3 ((λ kv, (kv.1, node_type kv.2)) <$> child_entries (gn_value n))
      ∧ (hasChildren (gn_value n) && gn_isExpanded n = true →
         (λ r, (pr_key r, pr_type r))
           <$> getObjectPreview Number_toString (gn_value n) (gn_type n)
         = take 3 ((λ c, (gn_key c, gn_type c))
                     <$> children_of (nodes (build E D)) (gn_id n)))
      ∧ Forall (λ r, ∀ s, pr_preview r = Some s → length s ≤ 20)
               (getObjectPreview Number_toString (gn_value n) (gn_type n)))
    (nodes (build E D)).
Proof.
  pose proof (build_types E D) as Ht.
  apply Forall_forall. intros n Hn.
  eapply Forall_forall in Ht as [Ht _]; [|exact Hn].
  split_and!.
  - rewrite Ht. apply preview_rows.
  - by apply preview_rows_children.
  - apply getObjectPreview_texts.
Qed.

(** X11.  The text lines of the preview block (the rows and the line
    ['+N more...']) lie within the card of every expanded node; on a
    collapsed node they do so only when the value has at most two
    entries: the third row, at [y + 115], is below the card, which ends
    at [y + 100]. *)
Theorem preview_lines_within_card
    (Number_toString : spec_float → jsstring)
    (E : gset jsstring) (D : JSONValue) :
  Forall (λ n,
      Forall (λ y, (y ≤ gn_y n + gn_height n)%Z)
             (preview_lines Number_toString n)
      ↔ gn_isExpanded n = true ∨ length (child_entries (gn_value n)) ≤ 2)
    (nodes (build E D)).
Proof.
  pose proof (build_types E D) as Ht.
  pose proof (build_heights_ok E D) as Hh.
  apply Forall_forall. intros n Hn.
  eapply Forall_forall in Ht as [Ht _]; [|exact Hn].
  eapply Forall_forall in Hh; [|exact Hn].
  by apply preview_lines_fit.
Qed.

(** X12.  The expand/collapse button is drawn on exactly the nodes whose
    value is a non-empty object or a non-empty array, expanded or not. *)
Theorem toggle_button_shown (E : gset jsstring) (D : JSONValue) :
  Forall (λ n, shows_toggle n = true ↔ nonempty_container (gn_value n))
         (nodes (build E D)).
Proof.
  eapply Forall_impl; [apply shows_toggle_build|].
  intros n ->. apply hasChildren_nonempty.
Qed.

(** X13.  Toggling an id flips its membership in the expansion set and
    no other; toggling it twice restores the set. *)
Theorem toggle_round_trip (i : jsstring) (E : gset jsstring) :
  (i ∈ toggleNodeExpansion i E ↔ i ∉ E) ∧
  (∀ j, j ≠ i → j ∈ toggleNodeExpansion i E ↔ j ∈ E) ∧
  toggleNodeExpansion i (toggleNodeExpansion i E) = E.
Proof.
  unfold toggleNodeExpansion.
  destruct (decide (i ∈ E)) as [Hi|Hi].
  - rewrite (bool_decide_eq_true_2 _ Hi).
    rewrite (bool_decide_eq_false_2 (i ∈ E ∖ {[i]})) by set_solver.
    split_and!; [set_solver|set_solver|].
    apply set_eq. intros j. destruct (decide (j = i)); set_solver.
  - rewrite (bool_decide_eq_false_2 _ Hi).
    rewrite (bool_decide_eq_true_2 (i ∈ E ∪ {[i]})) by set_solver.
    split_and!; [set_solver|set_solver|].
    apply set_eq. intros j. destruct (decide (j = i)); set_solver.
Qed.

(** X14.  The canvas shows no overlay message exactly when the text is
    not blank and [JSON.parse] accepts it; the graph is then the graph of
    the parsed document, which has at least the root node. *)
Theorem overlay_absent_iff_parsed (JSON_parse : jsstring → option JSONValue)
    (E : gset jsstring) (jsonInput : jsstring) :
  (overlay JSON_parse E jsonInput = None
   ↔ blank jsonInput = false ∧ is_Some (JSON_parse jsonInput)) ∧
  (∀ D, blank jsonInput = false → JSON_parse jsonInput = Some D →
        createGraph JSON_parse E jsonInput = build E D ∧
        0 < length (nodes (build E D))).
Proof.
  split.
  - destruct (blank jsonInput) eqn:Hb.
    + unfold overlay, createGraph. rewrite trim_truthy, Hb. simpl.
      split; [done|]. by intros [? _].
    + destruct (JSON_parse jsonInput) as [D|] eqn:Hp.
      * destruct (overlay_parsed JSON_parse E jsonInput D Hb Hp) as [_ ->].
        split; [eauto|done].
      * unfold overlay, createGraph. rewrite trim_truthy, Hb, Hp. simpl.
        split; [done|]. intros [_ [? ?]]. done.
  - intros D Hb Hp. split.
    + apply createGraph_parsed; [|done]. by rewrite trim_truthy, Hb.
    + destruct (build_root E D) as (c & rest & ->). simpl. lia.
Qed.

Lemma zoom_in_range_finite_distances_witness :
  zoom_in_range
    (zoom (run [Wheel true false (num 120); TouchStart near_touches;
                TouchMove wide_touches; TouchEnd; Wheel false true (num (-120))]
             initial_viewport)) = true.
Proof.
  apply (zoom_in_range_finite_distances
           [Wheel true false (num 120); TouchStart near_touches;
            TouchMove wide_touches; TouchEnd; Wheel false true (num (-120))]
           initial_viewport).
  - vm_compute; reflexivity.
  - reflexivity.
  - vm_compute; reflexivity.
Defined.

(** X16.  A zoom that has become NaN stays NaN under the wheel, the
    pinch, the two zoom buttons, the drag and the node clicks: only the
    double click on the canvas and the two reset buttons install a
    number again. *)
Theorem nan_zoom_persists (evs : list CanvasEvent) (c : Canvas) :
  is_nan (zoom (cv_view c)) = true →
  forallb (λ ev, negb (resets_zoom ev)) evs = true →
  is_nan (zoom (cv_view (canvas_run evs c))) = true.
Proof.
  revert c. induction evs as [|ev evs IH]; intros c Hz Hevs; [done|].
  simpl in Hevs. apply andb_true_iff in Hevs as [Hev Hevs].
  apply negb_true_iff in Hev.
  apply IH; [|done]. by apply canvas_handle_nan.
Qed.

Lemma nan_zoom_persists_witness :
  is_nan
    (zoom (cv_view
       (canvas_run [ZoomOut; Gesture (Wheel true false (num 120)); ZoomIn;
                    DoubleClick false 5]
          (canvas_run [Gesture (TouchStart far_touches);
                       Gesture (TouchMove far_touches)] initial_canvas))))
  = true.
Proof.
  apply (nan_zoom_persists
           [ZoomOut; Gesture (Wheel true false (num 120)); ZoomIn;
            DoubleClick false 5]).
  - vm_compute; reflexivity.
  - reflexivity.
Defined.

(** X17.  Whatever number the zoom is, the button [Zoom In] leaves a
    number that is at most 3 and the button [Zoom Out] a number that is
    at least 0.1. *)
Theorem zoom_buttons_bounded (z : spec_float) :
  is_nan z = false →
  (is_nan (handleZoomIn z) = false ∧ SFleb (handleZoomIn z) f3 = true) ∧
  (is_nan (handleZoomOut z) = false ∧ SFleb f0_1 (handleZoomOut z) = true).
Proof.
  intros Hz. unfold handleZoomIn, handleZoomOut. rewrite f1_2_eq. split.
  - apply Math_min_le. by apply fmul_not_nan_finite.
  - apply Math_max_ge. by apply fdiv_not_nan_finite.
Qed.

Lemma zoom_buttons_bounded_witness :
  (is_nan (handleZoomIn f3) = false ∧ SFleb (handleZoomIn f3) f3 = true) ∧
  (is_nan (handleZoomOut f0_1) = false ∧
   SFleb f0_1 (handleZoomOut f0_1) = true).
Proof.
  split.
  - apply (proj1 (zoom_buttons_bounded f3 eq_refl)).
  - apply (proj2 (zoom_buttons_bounded f0_1 ltac:(vm_compute; reflexivity))).
Defined.

(** X18.  The view moves only by a drag that began with a press on the
    canvas itself, by a double click on the canvas or by a reset: while
    no drag is under way, events other than these leave the pan as it is
    and start no drag. *)
Theorem pan_fixed_without_drag (evs : list CanvasEvent) (c : Canvas) :
  cv_isDragging c = false →
  forallb (λ ev, negb (moves_view ev)) evs = true →
  cv_pan (canvas_run evs c) = cv_pan c ∧
  cv_isDragging (canvas_run evs c) = false.
Proof.
  revert c. induction evs as [|ev evs IH]; intros c Hd Hevs; [done|].
  simpl in Hevs. apply andb_true_iff in Hevs as [Hev Hevs].
  apply negb_true_iff in Hev.
  destruct (canvas_handle_pan c ev Hev Hd) as [Hp Hd'].
  destruct (IH (canvas_handle c ev) Hd' Hevs) as [Hp' Hd''].
  simpl. by rewrite Hp', Hp.
Qed.

Lemma pan_fixed_without_drag_witness :
  cv_pan (canvas_run [MouseDown false (num 10) (num 10);
                      MouseMove (num 70) (num 90); MouseUp;
                      Gesture (Wheel true false (num 120)); ZoomIn;
                      MouseMove (num 5) (num 5); NodeClick (js "node-1")]
            initial_canvas)
    = cv_pan initial_canvas ∧
  cv_isDragging
    (canvas_run [MouseDown false (num 10) (num 10);
                 MouseMove (num 70) (num 90); MouseUp;
                 Gesture (Wheel true false (num 120)); ZoomIn;
                 MouseMove (num 5) (num 5); NodeClick (js "node-1")]
       initial_canvas) = false.
Proof.
  apply (pan_fixed_without_drag
           [MouseDown false (num 10) (num 10);
            MouseMove (num 70) (num 90); MouseUp;
            Gesture (Wheel true false (num 120)); ZoomIn;
            MouseMove (num 5) (num 5); NodeClick (js "node-1")]
           initial_canvas).
  - reflexivity.
  - reflexivity.
Defined.

